(** * Town_Runner: the actor scene, the rigid-body component and the lights

    A shallow embedding of
    - [TestScene] (Render, Update, addActor, removeActor),
    - the two revisions of [RigidbodyComponent] (constructors and update),
    - [Light::UpdateLights],
    with the properties the specification states about them.

    Pointers are identifiers into finite maps ([gmap]): an [Actor*] is an
    [ActorId] looked up in the heap of actors, a [RigidBody*] is an optional
    [BodyId] ([None] is [nullptr]) looked up in the physics world.  Code
    whose behaviour is undefined in C++ (a null or dangling dereference,
    [back()] of an empty vector, [operator[]] out of range) returns a
    [Fault].  [float] is IEEE-754 binary32, through the parameterised
    specification of the standard library ([SpecFloat], round to nearest
    even); every operation of the source is rounded on its own. *)

From Stdlib Require Import ZArith List Permutation Floats.SpecFloat QArith Lqa.
From stdpp Require Import gmap strings list fin_maps.

Close Scope Q_scope.
Open Scope Z_scope.

(** ** binary32 arithmetic *)

Definition prec : Z := 24.
Definition emax : Z := 128.

Definition float : Type := spec_float.

Definition fadd (x y : float) : float := SFadd prec emax x y.
Definition fsub (x y : float) : float := SFsub prec emax x y.
Definition fmul (x y : float) : float := SFmul prec emax x y.
Definition fneg (x : float) : float := SFopp x.
Definition flt (x y : float) : bool := SFltb x y.
Definition fle (x y : float) : bool := SFleb x y.

(** [static_cast<float>(n)] for an [int] n, and a literal [m * 2^e]. *)
Definition float_of_int (n : Z) : float := binary_normalize prec emax n 0 false.
Definition float_lit (m e : Z) : float := binary_normalize prec emax m e false.

Global Instance spec_float_eq_dec : EqDecision spec_float.
Proof. solve_decision. Defined.

(** ** Vectors of the engine and of the physics library *)

Record float3 := mk_float3 { x : float; y : float; z : float }.

(** [reactphysics3d::Vector3], [Quaternion] and [Transform]; the library's
    [decimal] is [float] (its default precision). *)
Record Vector3 := mk_Vector3 { vx : float; vy : float; vz : float }.
Record Quaternion := mk_Quaternion { qx : float; qy : float; qz : float; qw : float }.
Record Transform := mk_Transform { tposition : Vector3; torientation : Quaternion }.

Global Instance float3_eq_dec : EqDecision float3.
Proof. solve_decision. Defined.
Global Instance Vector3_eq_dec : EqDecision Vector3.
Proof. solve_decision. Defined.
Global Instance Quaternion_eq_dec : EqDecision Quaternion.
Proof. solve_decision. Defined.
Global Instance Transform_eq_dec : EqDecision Transform.
Proof. solve_decision. Defined.

Definition fzero : float := S754_zero false.
Definition Vector3_zero : Vector3 := mk_Vector3 fzero fzero fzero.
Definition Quaternion_identity : Quaternion :=
  mk_Quaternion fzero fzero fzero (float_of_int 1).

(** [Transform::setPosition] of the physics library. *)
Definition setPosition_transform (p : Vector3) (t : Transform) : Transform :=
  mk_Transform p (torientation t).

(** ** Actors *)

(** Modelled from the spec: [Actor::ActorState], "state (Active/Dead)". *)
Inductive ActorState := Active | Dead.

Global Instance ActorState_eq_dec : EqDecision ActorState.
Proof. solve_decision. Defined.

(** Modelled from the spec: the class [Actor], whose declaration is not
    among the sources ("position, rotation, state (Active/Dead), ordered
    collection of owned Components").  Kept are the members the code
    below reads and writes: [getPosition] / [setPosition], [getState] /
    [setState], and the name [GetActorName] returns. *)
Record Actor := mk_Actor {
  position : float3;
  state : ActorState;
  actorName : string
}.

Definition ActorId := positive.
Definition BodyId := positive.

(** [Log]: the messages added with [addInfo]; [Draw] only displays them. *)
Record World := mk_World {
  heap : gmap ActorId Actor;
  bodies : gmap BodyId Transform;
  log : list string
}.

(** ** Faults and the error monad *)

Inductive fault := NullDereference | DanglingPointer | EmptyBack | OutOfRange.

Inductive outcome (A : Type) :=
  | Ok (a : A)
  | Fault (f : fault).
Arguments Ok {A} a.
Arguments Fault {A} f.

Definition bind {A B : Type} (m : outcome A) (k : A -> outcome B) : outcome B :=
  match m with
  | Ok a => k a
  | Fault f => Fault f
  end.

Notation "'do' x <- m ; k" := (bind m (fun x => k))
  (at level 10, x pattern, m at level 100, k at level 200).

Definition from_option {A : Type} (f : fault) (o : option A) : outcome A :=
  match o with
  | Some a => Ok a
  | None => Fault f
  end.

(** Dereferencing an [Actor*]. *)
Definition deref_actor (a : ActorId) (w : World) : outcome Actor :=
  from_option DanglingPointer (heap w !! a).

Definition store_actor (a : ActorId) (act : Actor) (w : World) : World :=
  mk_World (<[a := act]> (heap w)) (bodies w) (log w).

Definition getState (a : ActorId) (w : World) : outcome ActorState :=
  do act <- deref_actor a w; Ok (state act).

Definition setState (a : ActorId) (st : ActorState) (w : World) : outcome World :=
  do act <- deref_actor a w;
  Ok (store_actor a (mk_Actor (position act) st (actorName act)) w).

Definition getPosition (a : ActorId) (w : World) : outcome float3 :=
  do act <- deref_actor a w; Ok (position act).

Definition setPosition (a : ActorId) (p : float3) (w : World) : outcome World :=
  do act <- deref_actor a w;
  Ok (store_actor a (mk_Actor p (state act) (actorName act)) w).

Definition GetActorName (a : ActorId) (w : World) : outcome string :=
  do act <- deref_actor a w; Ok (actorName act).

(** Dereferencing a [RigidBody*]: [None] is [nullptr]. *)
Definition deref_body (rb : option BodyId) (w : World) : outcome (BodyId * Transform) :=
  match rb with
  | None => Fault NullDereference
  | Some b => do t <- from_option DanglingPointer (bodies w !! b); Ok (b, t)
  end.

(** [RigidBody::setTransform], as far as the transform goes. *)
Definition setTransform (b : BodyId) (t : Transform) (w : World) : World :=
  mk_World (heap w) (<[b := t]> (bodies w)) (log w).

(** [PhysicsWorld::createRigidBody]: a new body with the given transform. *)
Definition createRigidBody (t : Transform) (w : World) : BodyId * World :=
  let b := fresh (dom (bodies w)) in
  (b, mk_World (heap w) (<[b := t]> (bodies w)) (log w)).

(** ** std::vector operations used by the scene *)

Section Vector.
Context {A : Type} `{EqDecision A}.

(** [std::find(begin(v), end(v), a)]: the index of the first element equal
    to [a]; [None] stands for [end(v)]. *)
Definition std_find (a : A) (v : list A) : option nat :=
  fst <$> list_find (λ e, e = a) v.

(** [std::iter_swap] on two positions of the vector. *)
Definition iter_swap (i j : nat) (v : list A) : list A :=
  match v !! i, v !! j with
  | Some ei, Some ej => <[j := ei]> (<[i := ej]> v)
  | _, _ => v
  end.

Definition pop_back (v : list A) : list A := removelast v.

(** [v.back()]; undefined on an empty vector. *)
Definition back (v : list A) : outcome A := from_option EmptyBack (last v).

Definition emplace_back (a : A) (v : list A) : list A := v ++ [a].

End Vector.

(** ** RigidbodyComponent *)

(** Modelled from the spec: the class [RigidbodyComponent] and its base
    [Component], whose declarations are not among the sources ("back-
    reference to owning Actor (non-owning), update order", "owns a handle to
    an external rigid body"): the members the two revisions of the
    constructors and of [update] set and read. *)
Record RigidbodyComponent := mk_RigidbodyComponent {
  owner : ActorId;
  updateOrder : Z;
  _rigidBody : option BodyId
}.

Definition float3_of_Vector3 (v : Vector3) : float3 :=
  mk_float3 (vx v) (vy v) (vz v).

Definition Vector3_of_float3 (p : float3) : Vector3 :=
  mk_Vector3 (x p) (y p) (z p).

Definition Log_addInfo (message : string) (w : World) : World :=
  mk_World (heap w) (bodies w) (log w ++ [message]).

(** src/Projects/TownRunner/src/RigidbodyComponent.cpp *)
Module RigidbodyComponent_TownRunner.
Section Component.
(** The update order [Component(ownerP)] gives by default, and
    [std::to_string(float)]. *)
Variable defaultOrder : Z.
Variable to_string : float -> string.

Definition make (ownerP : ActorId) : RigidbodyComponent :=
  mk_RigidbodyComponent ownerP defaultOrder None.

Definition make_order (ownerP : ActorId) (order : Z) : RigidbodyComponent :=
  mk_RigidbodyComponent ownerP order None.

Definition make_world (ownerP : ActorId) (transform : Transform) (w : World)
  : RigidbodyComponent * World :=
  let '(b, w') := createRigidBody transform w in
  (mk_RigidbodyComponent ownerP defaultOrder (Some b), w').

Definition make_world_order (ownerP : ActorId) (transform : Transform) (w : World)
    (order : Z) : RigidbodyComponent * World :=
  let '(b, w') := createRigidBody transform w in
  (mk_RigidbodyComponent ownerP order (Some b), w').

Definition update (c : RigidbodyComponent) (w : World) : outcome World :=
  do (_, t) <- deref_body (_rigidBody c) w;
  let rbPosV3 := tposition t in
  let rbPosF3 := mk_float3 (vx rbPosV3) (vy rbPosV3) (vz rbPosV3) in
  do w1 <- setPosition (owner c) rbPosF3 w;
  do name <- GetActorName (owner c) w1;
  let message :=
    ("Actor name : " +:+ name +:+ " ,x = " +:+ to_string (vx rbPosV3)
       +:+ " ,y = " +:+ to_string (vy rbPosV3)
       +:+ " ,z = " +:+ to_string (vz rbPosV3))%string in
  Ok (Log_addInfo message w1).

End Component.
End RigidbodyComponent_TownRunner.

(** src/unnamed/part_004 *)
Module RigidbodyComponent_part004.
Section Component.
Variable defaultOrder : Z.

Definition make_world (ownerP : ActorId) (transform : Transform) (w : World)
  : RigidbodyComponent * World :=
  let '(b, w') := createRigidBody transform w in
  (mk_RigidbodyComponent ownerP defaultOrder (Some b), w').

Definition make_world_order (ownerP : ActorId) (transform : Transform) (w : World)
    (order : Z) : RigidbodyComponent * World :=
  let '(b, w') := createRigidBody transform w in
  (mk_RigidbodyComponent ownerP order (Some b), w').

End Component.

Definition update (c : RigidbodyComponent) (w : World) : outcome World :=
  (* rbPosV3, read and not used *)
  do (_, _) <- deref_body (_rigidBody c) w;
  do (b, rbTrans) <- deref_body (_rigidBody c) w;
  do pos <- getPosition (owner c) w;
  let rbTrans' :=
    setPosition_transform (mk_Vector3 (x pos) (y pos) (z pos)) rbTrans in
  Ok (setTransform b rbTrans' w).

End RigidbodyComponent_part004.

(** ** TestScene *)

(** [InputKeys] of the engine's input controller; the scene consults
    [MoveBackward] only. *)
Inductive InputKeys :=
  | MoveLeft | MoveRight | MoveForward | MoveBackward | MoveUp | MoveDown
  | Reset | ControlDown | ShiftDown | AltDown | ZoomIn | ZoomOut.

Global Instance InputKeys_eq_dec : EqDecision InputKeys.
Proof. solve_decision. Defined.

(** [InputController::IsKeyDown]. *)
Definition InputController : Type := InputKeys -> bool.

(** [CurrTime] and [ElapsedTime] are binary64 values. *)
Definition double : Type := spec_float.

(** The calls the scene makes into the engine, the physics wrapper and its
    actors, in the order it makes them. *)
Inductive Event :=
  | EvSampleBaseUpdate
  | EvPhysicsUpdate
  | EvCameraUpdate
  | EvActorUpdate (a : ActorId)
  | EvSetRenderTargets
  | EvClearRenderTarget
  | EvClearDepthStencil
  | EvEnvMapRender
  | EvRenderActor (a : ActorId)
  | EvActorInitialize (a : ActorId).

Global Instance Event_eq_dec : EqDecision Event.
Proof. solve_decision. Defined.

Record Scene := mk_Scene {
  actors : list ActorId;
  world : World;
  trace : list Event
}.

Definition emit (e : Event) (s : Scene) : Scene :=
  mk_Scene (actors s) (world s) (trace s ++ [e]).

Definition with_world (w : World) (s : Scene) : Scene :=
  mk_Scene (actors s) w (trace s).

Module TestScene.

(** The loop of [Render] over [actors]. *)
Fixpoint render_actors (l : list ActorId) (s : Scene) : outcome Scene :=
  match l with
  | [] => Ok s
  | actor :: rest =>
      do st <- getState actor (world s);
      render_actors rest
        (if decide (st = Active) then emit (EvRenderActor actor) s else s)
  end.

Definition Render (s : Scene) : outcome Scene :=
  let s := emit EvSetRenderTargets s in
  let s := emit EvClearRenderTarget s in
  let s := emit EvClearDepthStencil s in
  let s := emit EvEnvMapRender s in
  render_actors (actors s) s.

Section Update.
(** [Actor::Update] and [ReactPhysic::Update] are not among the sources:
    they are parameters, state transformers of the actors and the bodies. *)
Variable Actor_Update : ActorId -> double -> double -> World -> World.
Variable ReactPhysic_Update : World -> World.

(** The loop "Animate Actors". *)
Fixpoint animate (l : list ActorId) (CurrTime ElapsedTime : double) (s : Scene)
  : outcome Scene :=
  match l with
  | [] => Ok s
  | actor :: rest =>
      do _ <- deref_actor actor (world s);
      animate rest CurrTime ElapsedTime
        (with_world (Actor_Update actor CurrTime ElapsedTime (world s))
                    (emit (EvActorUpdate actor) s))
  end.

(** The loop that fills [deadActors]. *)
Fixpoint collect_dead (l : list ActorId) (w : World) (deadActors : list ActorId)
  : outcome (list ActorId) :=
  match l with
  | [] => Ok deadActors
  | actor :: rest =>
      do st <- getState actor w;
      collect_dead rest w
        (if decide (st = Dead) then emplace_back actor deadActors else deadActors)
  end.

Definition Update (keys : InputController) (CurrTime ElapsedTime : double)
    (s : Scene) : outcome Scene :=
  let s := emit EvSampleBaseUpdate s in
  let s := with_world (ReactPhysic_Update (world s)) (emit EvPhysicsUpdate s) in
  let s := emit EvCameraUpdate s in
  do s <- animate (actors s) CurrTime ElapsedTime s;
  do s <- (if keys MoveBackward
           then do last_actor <- back (actors s);
                do w <- setState last_actor Dead (world s);
                Ok (with_world w s)
           else Ok s);
  do deadActors <- collect_dead (actors s) (world s) [];
  (* for (auto deadActor : deadActors) { } *)
  Ok (foldl (λ s' deadActor, s') s deadActors).

End Update.

Definition addActor (actor : ActorId) (s : Scene) : outcome Scene :=
  let s := mk_Scene (emplace_back actor (actors s)) (world s) (trace s) in
  do _ <- deref_actor actor (world s);
  Ok (emit (EvActorInitialize actor) s).

Definition removeActor (actor : ActorId) (s : Scene) : Scene :=
  match std_find actor (actors s) with
  | Some iter =>
      mk_Scene (pop_back (iter_swap iter (length (actors s) - 1) (actors s)))
               (world s) (trace s)
  | None => s
  end.

End TestScene.

(** ** Light *)

(** Modelled from the spec: [LightAttribs] and the members of [Light] that
    [UpdateLights] uses, whose declarations are not among the sources ("an
    array-of-structs of position/size/color"). *)
Record LightAttribs := mk_LightAttribs {
  Location : float3;
  Size : float;
  Color : float3
}.

Record LightState := mk_LightState {
  m_Lights : list LightAttribs;
  m_LightMoveDirs : list float3;
  m_LightsCount : Z
}.

(** [float3 * float] and [float3 += float3] of the engine, by component. *)
Definition float3_scale (v : float3) (k : float) : float3 :=
  mk_float3 (fmul (x v) k) (fmul (y v) k) (fmul (z v) k).

Definition float3_add (u v : float3) : float3 :=
  mk_float3 (fadd (x u) (x v)) (fadd (y u) (y v)) (fadd (z u) (z v)).

(** A coordinate lies between the two bounds ([false] for a NaN). *)
Definition within (Min Max c : float) : bool := fle Min c && fle c Max.

Module Light.

(** The lambda of [UpdateLights]: the new [Coord] and the new [Dir]. *)
Definition ClampCoordinate (Coord Dir Min Max : float) : float * float :=
  if flt Coord Min then
    (fadd Coord (fmul (fsub Min Coord) (float_of_int 2)), fmul Dir (float_of_int (-1)))
  else if flt Max Coord then
    (fsub Coord (fmul (fsub Coord Max) (float_of_int 2)), fmul Dir (float_of_int (-1)))
  else (Coord, Dir).

(** The same lambda over the rationals, that is without rounding: it tells
    how far beyond a boundary one reflection still brings a light back. *)
Definition ClampCoordinate_exact (Coord Dir Min Max : Q) : Q * Q :=
  if Qlt_le_dec Coord Min then
    (Coord + (Min - Coord) * 2, Dir * -1)%Q
  else if Qlt_le_dec Max Coord then
    (Coord - (Coord - Max) * 2, Dir * -1)%Q
  else (Coord, Dir).

Section Lights.
(** [GridDim], an [int] constant of the class declaration. *)
Variable GridDim : Z.

Definition VolumeMin : float3 :=
  mk_float3 (fneg (float_of_int GridDim)) (fneg (float_of_int GridDim))
            (fneg (float_of_int GridDim)).

Definition VolumeMax : float3 :=
  mk_float3 (float_of_int GridDim) (float_of_int GridDim) (float_of_int GridDim).

(** The point lies in the volume [[-GridDim, +GridDim]^3]. *)
Definition in_volume (p : float3) : bool :=
  within (x VolumeMin) (x VolumeMax) (x p)
  && within (y VolumeMin) (y VolumeMax) (y p)
  && within (z VolumeMin) (z VolumeMax) (z p).

(** What one light and its direction become. *)
Definition move_light (fElapsedTime : float) (L : LightAttribs) (Dir : float3)
  : LightAttribs * float3 :=
  let Loc := float3_add (Location L) (float3_scale Dir fElapsedTime) in
  let '(cx, dx) := ClampCoordinate (x Loc) (x Dir) (x VolumeMin) (x VolumeMax) in
  let '(cy, dy) := ClampCoordinate (y Loc) (y Dir) (y VolumeMin) (y VolumeMax) in
  let '(cz, dz) := ClampCoordinate (z Loc) (z Dir) (z VolumeMin) (z VolumeMax) in
  (mk_LightAttribs (mk_float3 cx cy cz) (Size L) (Color L), mk_float3 dx dy dz).

(** The body of the loop, at index [light]. *)
Definition update_light (fElapsedTime : float) (light : nat) (st : LightState)
  : outcome LightState :=
  do L <- from_option OutOfRange (m_Lights st !! light);
  do Dir <- from_option OutOfRange (m_LightMoveDirs st !! light);
  let '(L', Dir') := move_light fElapsedTime L Dir in
  Ok (mk_LightState (<[light := L']> (m_Lights st))
                    (<[light := Dir']> (m_LightMoveDirs st))
                    (m_LightsCount st)).

Fixpoint update_lights_from (fElapsedTime : float) (indices : list nat)
    (st : LightState) : outcome LightState :=
  match indices with
  | [] => Ok st
  | light :: rest =>
      do st' <- update_light fElapsedTime light st;
      update_lights_from fElapsedTime rest st'
  end.

(** [for (int light = 0; light < m_LightsCount; ++light)]. *)
Definition UpdateLights (fElapsedTime : float) (st : LightState) : outcome LightState :=
  update_lights_from fElapsedTime (seq 0 (Z.to_nat (m_LightsCount st))) st.

End Lights.
End Light.

(** ** Vocabulary of the statements *)

(** What is left of the elements after the removed one once the last of
    them has been moved into its place. *)
Definition moved_last {A : Type} (l : list A) : list A :=
  match last l with
  | Some e => e :: removelast l
  | None => []
  end.

(** The pointer [a] refers to a live actor of [w]. *)
Definition present (w : World) (a : ActorId) : Prop := is_Some (heap w !! a).

Definition state_of (w : World) (a : ActorId) : option ActorState :=
  state <$> heap w !! a.

Definition is_dead (w : World) (a : ActorId) : Prop := state_of w a = Some Dead.
Definition is_active (w : World) (a : ActorId) : Prop := state_of w a = Some Active.

Global Instance is_dead_dec w a : Decision (is_dead w a).
Proof. unfold is_dead. apply _. Defined.
Global Instance is_active_dec w a : Decision (is_active w a).
Proof. unfold is_active. apply _. Defined.

(** A state transformer frees no actor, respectively revives none. *)
Definition preserves_actors (f : World -> World) : Prop :=
  ∀ w a, present w a → present (f w) a.

Definition preserves_dead (f : World -> World) : Prop :=
  ∀ w a, is_dead w a → is_dead (f w) a.

(** The scene can be updated: its pointers are live, and the vector is not
    empty when the key that kills its last actor is down. *)
Definition updatable (keys : InputController) (s : Scene) : Prop :=
  Forall (present (world s)) (actors s)
  ∧ (keys MoveBackward = true → actors s ≠ []).

(** The world after the actors of [l] have been updated in turn. *)
Definition animated (AU : ActorId -> double -> double -> World -> World)
    (CurrTime ElapsedTime : double) (l : list ActorId) (w : World) : World :=
  foldl (λ w' a, AU a CurrTime ElapsedTime w') w l.

(** What [Update] emits, in this order. *)
Definition update_calls (l : list ActorId) : list Event :=
  [EvSampleBaseUpdate; EvPhysicsUpdate; EvCameraUpdate] ++ map EvActorUpdate l.

(** One frame: a call of [Update] that returns. *)
Definition step (AU : ActorId -> double -> double -> World -> World)
    (PU : World -> World) (s s' : Scene) : Prop :=
  ∃ keys CurrTime ElapsedTime, TestScene.Update AU PU keys CurrTime ElapsedTime s = Ok s'.

(** A run of the scene: consecutive frames. *)
Inductive run (AU : ActorId -> double -> double -> World -> World)
    (PU : World -> World) : list Scene -> Prop :=
  | run_one s : run AU PU [s]
  | run_cons s s' r : step AU PU s s' → run AU PU (s' :: r) → run AU PU (s :: s' :: r).

(** How often the state of [a] goes from [from] to [to] between two
    consecutive scenes of [r]. *)
Fixpoint transitions (from to : ActorState) (a : ActorId) (r : list Scene) : nat :=
  match r with
  | s1 :: (s2 :: _) as r' =>
      ((if decide (state_of (world s1) a = Some from ∧ state_of (world s2) a = Some to)
        then 1 else 0) + transitions from to a r')%nat
  | _ => 0%nat
  end.

(** The actor and the body are synchronised: same position. *)
Definition synced (c : RigidbodyComponent) (w : World) : Prop :=
  ∃ act b t, heap w !! owner c = Some act ∧ _rigidBody c = Some b
             ∧ bodies w !! b = Some t
             ∧ position act = float3_of_Vector3 (tposition t).

(** The two revisions of [update] leave the same actors and bodies. *)
Definition revisions_agree (to_string : float -> string)
    (c : RigidbodyComponent) (w : World) : Prop :=
  ∀ w1 w2,
    RigidbodyComponent_TownRunner.update to_string c w = Ok w1 →
    RigidbodyComponent_part004.update c w = Ok w2 →
    heap w1 = heap w2 ∧ bodies w1 = bodies w2.

(** After the call every light lies in the volume. *)
Definition lights_stay_in_volume (GridDim : Z) (fElapsedTime : float)
    (st : LightState) : Prop :=
  ∀ st', Light.UpdateLights GridDim fElapsedTime st = Ok st' →
  ∀ L, L ∈ m_Lights st' → Light.in_volume GridDim (Location L) = true.

(** The call returns with a light outside the volume (a test on its
    result). *)
Definition some_light_outside (GridDim : Z) (fElapsedTime : float)
    (st : LightState) : bool :=
  match Light.UpdateLights GridDim fElapsedTime st with
  | Ok st' => negb (forallb (λ L, Light.in_volume GridDim (Location L)) (m_Lights st'))
  | Fault _ => false
  end.

(** One light at the origin that moves along x by a half per second. *)
Definition sample_lights : LightState :=
  mk_LightState
    [mk_LightAttribs (mk_float3 fzero fzero fzero) (float_of_int 1)
                     (mk_float3 (float_of_int 1) (float_of_int 1) (float_of_int 1))]
    [mk_float3 (float_lit 1 (-1)) fzero fzero]
    1.

(** ** The scene of [ActorCreation], for the examples *)

Definition helmet1 : ActorId := 1%positive.
Definition animPeople1 : ActorId := 2%positive.

Definition sample_heap : gmap ActorId Actor :=
  {[ helmet1 := mk_Actor (mk_float3 fzero fzero fzero) Active "Helmet";
     animPeople1 := mk_Actor (mk_float3 fzero fzero fzero) Active "AnimPeople" ]}.

Definition helmetTransform : Transform :=
  mk_Transform Vector3_zero Quaternion_identity.

Definition helmetRigidbody : RigidbodyComponent :=
  fst (RigidbodyComponent_part004.make_world 100 helmet1 helmetTransform
         (mk_World sample_heap ∅ [])).

Definition sample_world : World :=
  snd (RigidbodyComponent_part004.make_world 100 helmet1 helmetTransform
         (mk_World sample_heap ∅ [])).

(** The same world once the helmet has been moved to (1, 0, 0). *)
Definition moved_world : World :=
  store_actor helmet1
    (mk_Actor (mk_float3 (float_of_int 1) fzero fzero) Active "Helmet")
    sample_world.

(** [std::to_string] on the coordinates of the examples, 0 and 1. *)
Definition sample_to_string (f : float) : string :=
  match f with
  | S754_zero false => "0.000000"
  | S754_zero true => "-0.000000"
  | _ => "1.000000"
  end.

Definition sample_scene : Scene :=
  mk_Scene [helmet1; animPeople1] sample_world [].

(** An [Actor::Update] for the examples: the helmet runs its rigid-body
    component (when the component cannot run, the world is left as it is),
    the other actor has no component. *)
Definition sample_Actor_Update (a : ActorId) (CurrTime ElapsedTime : double)
    (w : World) : World :=
  if decide (a = helmet1) then
    match RigidbodyComponent_part004.update helmetRigidbody w with
    | Ok w' => w'
    | Fault _ => w
    end
  else w.

(** A [ReactPhysic::Update] for the examples: every body falls by one
    unit. *)
Definition fall (t : Transform) : Transform :=
  mk_Transform
    (mk_Vector3 (vx (tposition t)) (fsub (vy (tposition t)) (float_of_int 1))
                (vz (tposition t)))
    (torientation t).

Definition sample_ReactPhysic_Update (w : World) : World :=
  mk_World (heap w) (fall <$> bodies w) (log w).

Definition key_down (k : InputKeys) : InputController :=
  λ k', if decide (k' = k) then true else false.

Definition no_key : InputController := λ _, false.

(** ** Further code of the same files *)

(** *** Light::InitLights *)

(** [float3 - float3] of the engine, by component. *)
Definition float3_sub (u v : float3) : float3 :=
  mk_float3 (fsub (x u) (x v)) (fsub (y u) (y v)) (fsub (z u) (z v)).

(** What [InitLights] can throw: [std::vector::resize] with a size beyond
    [max_size()], which is what a negative [int] becomes. *)
Inductive thrown := length_error.

Module InitLights.
Section Init.
(** [GridDim], and the engine's generator [FastRandReal<float>]: its state,
    one draw [Rnd()], and the state [Rnd{0, 0, 1}] starts in. *)
Variable GridDim : Z.
Context {RndState : Type}.
Variable Rnd : RndState -> float * RndState.
Variable Rnd0 : RndState.
(** The value [resize] fills new slots with (every slot is overwritten). *)
Variable LightAttribs_default : LightAttribs.

(** [float3{Rnd(), Rnd(), Rnd()}]: the three draws, left to right. *)
Definition Rnd3 (r : RndState) : float3 * RndState :=
  let '(a, r) := Rnd r in
  let '(b, r) := Rnd r in
  let '(c, r) := Rnd r in
  (mk_float3 a b c, r).

Definition half : float := float_lit 1 (-1).
Definition half3 : float3 := mk_float3 half half half.

(** The body of the first loop: the light is overwritten. *)
Definition init_light (Light : LightAttribs) (r : RndState) : LightAttribs * RndState :=
  let '(v, r) := Rnd3 r in
  let Location :=
    float3_scale (float3_scale (float3_sub v half3) (float_of_int 2))
                 (float_of_int GridDim) in
  let '(s, r) := Rnd r in
  let Size := fadd half (fmul s half) in
  let '(Color, r) := Rnd3 r in
  (mk_LightAttribs Location Size Color, r).

(** The body of the second loop. *)
Definition init_dir (MoveDir : float3) (r : RndState) : float3 * RndState :=
  let '(v, r) := Rnd3 r in
  (float3_scale (float3_sub v half3) (float_of_int 1), r).

(** [for (auto& e : v) body(e)], threading the generator. *)
Fixpoint for_each {A : Type} (body : A -> RndState -> A * RndState)
    (v : list A) (r : RndState) : list A * RndState :=
  match v with
  | [] => ([], r)
  | e :: rest =>
      let '(e', r) := body e r in
      let '(rest', r) := for_each body rest r in
      (e' :: rest', r)
  end.

Definition InitLights (st : LightState) : (LightState * RndState) + thrown :=
  if m_LightsCount st <? 0 then inr length_error else
  let lights := resize (Z.to_nat (m_LightsCount st)) LightAttribs_default (m_Lights st) in
  let '(lights, r) := for_each init_light lights Rnd0 in
  let dirs := resize (length lights) (mk_float3 fzero fzero fzero) (m_LightMoveDirs st) in
  let '(dirs, r) := for_each init_dir dirs r in
  inl (mk_LightState lights dirs (m_LightsCount st), r).

(** The generator after [k] draws. *)
Fixpoint after_draws (k : nat) (r : RndState) : RndState :=
  match k with
  | O => r
  | S k' => after_draws k' (snd (Rnd r))
  end.

End Init.
End InitLights.

(** *** Vocabulary of the further statements *)

(** A state transformer changes the state of no actor, creates no actor. *)
Definition preserves_states (f : World -> World) : Prop :=
  ∀ w a, state_of (f w) a = state_of w a.

Definition creates_no_actor (f : World -> World) : Prop :=
  ∀ w a, present (f w) a → present w a.

(** [update], [n] frames in a row. *)
Fixpoint update_times (update : RigidbodyComponent -> World -> outcome World)
    (n : nat) (c : RigidbodyComponent) (w : World) : outcome World :=
  match n with
  | O => Ok w
  | S n' => do w' <- update c w; update_times update n' c w'
  end.

(** [UpdateLights], one call per elapsed time of the list. *)
Fixpoint UpdateLights_frames (GridDim : Z) (times : list float) (st : LightState)
  : outcome LightState :=
  match times with
  | [] => Ok st
  | t :: rest =>
      do st' <- Light.UpdateLights GridDim t st;
      UpdateLights_frames GridDim rest st'
  end.

Definition valid_float (f : float) : Prop := valid_binary prec emax f = true.

Definition valid_float3 (v : float3) : Prop :=
  valid_float (x v) ∧ valid_float (y v) ∧ valid_float (z v).

(** The two directions have the same speed along every axis. *)
Definition same_speed (u v : float3) : Prop :=
  SFabs (x u) = SFabs (x v) ∧ SFabs (y u) = SFabs (y v) ∧ SFabs (z u) = SFabs (z v).

(** The line the TownRunner [update] logs for an actor [name] whose body is
    at [rbPosV3]. *)
Definition update_message (to_string : float -> string) (name : string)
    (rbPosV3 : Vector3) : string :=
  ("Actor name : " +:+ name +:+ " ,x = " +:+ to_string (vx rbPosV3)
     +:+ " ,y = " +:+ to_string (vy rbPosV3)
     +:+ " ,z = " +:+ to_string (vz rbPosV3))%string.

(** A generator for the examples: a counter, drawing 0.25 and 0.75 in
    turn. *)
Definition sample_Rnd (k : nat) : float * nat :=
  (if Nat.even k then float_lit 1 (-2) else float_lit 3 (-2), S k).

(** A light whose x coordinate is not a number. *)
Definition nan_lights : LightState :=
  mk_LightState
    [mk_LightAttribs (mk_float3 S754_nan fzero fzero) (float_of_int 1)
                     (mk_float3 (float_of_int 1) (float_of_int 1) (float_of_int 1))]
    [mk_float3 (float_lit 1 (-1)) fzero fzero]
    1.

(** *** TestScene::ActorCreation *)

Module ActorCreation.
Section Creation.
(** What the function calls and the sources do not hold: the two
    constructors behind [new Helmet(...)] and [new AnimPeople(...)], which
    return the new actor, [Actor::GetActor] and [Actor::addComponent]; and
    the update order [Component(ownerP)] gives by default. *)
Variable new_Helmet : World -> ActorId * World.
Variable new_AnimPeople : World -> ActorId * World.
Variable GetActor : ActorId -> World -> ActorId.
Variable addComponent : ActorId -> RigidbodyComponent -> World -> World.
Variable defaultOrder : Z.

(** [for (auto actor : actors) actor->setPosition(float3(0, 0, 0))]. *)
Fixpoint set_positions (l : list ActorId) (w : World) : outcome World :=
  match l with
  | [] => Ok w
  | actor :: rest =>
      do w' <- setPosition actor (mk_float3 fzero fzero fzero) w;
      set_positions rest w'
  end.

(** [helmet1->GetActor()] and [helmet1->addComponent(...)] dereference the
    new pointer; the constructor of [RigidbodyComponent] with a physics
    world is the same in the two revisions. *)
Definition ActorCreation (s : Scene) : outcome Scene :=
  let '(helmet1, w) := new_Helmet (world s) in
  let helmetTransform := mk_Transform Vector3_zero Quaternion_identity in
  do _ <- deref_actor helmet1 w;
  let '(helmetRigidbody, w) :=
    RigidbodyComponent_part004.make_world defaultOrder (GetActor helmet1 w)
      helmetTransform w in
  do _ <- deref_actor helmet1 w;
  let w := addComponent helmet1 helmetRigidbody w in
  let '(animPeople1, w) := new_AnimPeople w in
  let actors' := emplace_back animPeople1 (emplace_back helmet1 (actors s)) in
  do w <- set_positions actors' w;
  Ok (mk_Scene actors' w (trace s)).

End Creation.
End ActorCreation.

(** A constructor returns a live pointer and frees no actor. *)
Definition allocates (new : World -> ActorId * World) : Prop :=
  ∀ w, present (new w).2 (new w).1 ∧ ∀ a, present w a → present (new w).2 a.

(** Constructors for the examples: the new actor starts at (1, 1, 1). *)
Definition sample_new (name : string) (w : World) : ActorId * World :=
  let a := fresh (dom (heap w)) in
  (a, store_actor a
        (mk_Actor (mk_float3 (float_of_int 1) (float_of_int 1) (float_of_int 1))
                  Active name) w).

(** *** The numbers behind binary32 values *)

(** The number a finite binary32 value stands for, counted in units of
    2^-149, the smallest positive binary32 number; 0 for the others. *)
Definition F2Z (f : float) : Z :=
  match f with
  | S754_finite s m e => cond_Zopp s (Z.pos m * 2 ^ (e + 149))
  | _ => 0
  end.

(** A zero or a finite number: neither an infinity nor a NaN. *)
Definition finite (f : float) : bool :=
  match f with
  | S754_zero _ | S754_finite _ _ _ => true
  | _ => false
  end.

(** Every coordinate of the point lies in [[-3 * GridDim, 3 * GridDim]]:
    it is beyond a boundary of the volume by no more than the width
    [2 * GridDim] of the volume. *)
Definition within_reach (GridDim : Z) (p : float3) : bool :=
  let lo := fneg (float_of_int (3 * GridDim)) in
  let hi := float_of_int (3 * GridDim) in
  within lo hi (x p) && within lo hi (y p) && within lo hi (z p).

(** What [UpdateLights] has made of a coordinate and of the matching
    component of the direction: below [Min] or above [Max] the coordinate
    is the mirror image about that bound, as a number, and the direction is
    negated; between the two both are kept. *)
Definition reflected (Min Max Coord Dir Coord' Dir' : float) : Prop :=
  (flt Coord Min = true →
   F2Z Coord' = 2 * F2Z Min - F2Z Coord ∧ Dir' = fneg Dir)
  ∧ (flt Coord Min = false → flt Max Coord = true →
     F2Z Coord' = 2 * F2Z Max - F2Z Coord ∧ Dir' = fneg Dir)
  ∧ (flt Coord Min = false → flt Max Coord = false →
     Coord' = Coord ∧ Dir' = Dir).

(** *** A scene with a dead actor *)

(** The world of the examples once the helmet has been moved to (1, 0, 0)
    and killed; its body is still at the origin. *)
Definition dead_helmet_world : World :=
  store_actor helmet1
    (mk_Actor (mk_float3 (float_of_int 1) fzero fzero) Dead "Helmet")
    sample_world.

Definition dead_helmet_scene : Scene :=
  mk_Scene [helmet1; animPeople1] dead_helmet_world [].

(** * Properties *)

(** ** std::vector operations *)

Section VectorFacts.
Context {A : Type} `{EqDecision A}.

Lemma std_find_app_first (a : A) (l1 l2 : list A) :
  a ∉ l1 → std_find a (l1 ++ a :: l2) = Some (length l1).
Proof.
  intros Hn. unfold std_find.
  assert (Hf : list_find (λ e, e = a) (l1 ++ a :: l2) = Some (length l1, a)).
  { apply list_find_Some. split; [|split; [done|]].
    - by rewrite list_lookup_middle.
    - intros j e Hj Hlt ->. apply Hn.
      rewrite lookup_app_l in Hj by done.
      by eapply list_elem_of_lookup_2. }
  by rewrite Hf.
Qed.

Lemma std_find_None (a : A) (l : list A) : a ∉ l → std_find a l = None.
Proof.
  intros Hn. unfold std_find.
  destruct (list_find (λ e, e = a) l) as [[i e]|] eqn:Hf; [|done].
  apply list_find_Some in Hf as (Hi & -> & _).
  exfalso. apply Hn. by eapply list_elem_of_lookup_2.
Qed.

Lemma std_find_Some_elem (a : A) (l : list A) i :
  std_find a l = Some i → a ∈ l.
Proof.
  unfold std_find.
  destruct (list_find (λ e, e = a) l) as [[j e]|] eqn:Hf; [|done].
  intros _. apply list_find_Some in Hf as (Hi & -> & _).
  by eapply list_elem_of_lookup_2.
Qed.

Lemma swap_pop_last (a : A) (l1 : list A) :
  pop_back (iter_swap (length l1) (length (l1 ++ [a]) - 1) (l1 ++ [a])) = l1.
Proof.
  rewrite length_app. simpl.
  replace (length l1 + 1 - 1)%nat with (length l1) by lia.
  assert (Hl : (l1 ++ [a]) !! length l1 = Some a) by by apply list_lookup_middle.
  unfold iter_swap. rewrite Hl.
  rewrite (list_insert_id (l1 ++ [a])) by done.
  rewrite (list_insert_id (l1 ++ [a])) by done.
  unfold pop_back. by rewrite removelast_last.
Qed.

Lemma swap_pop_middle (a e : A) (l1 l2 : list A) :
  pop_back (iter_swap (length l1) (length (l1 ++ a :: l2 ++ [e]) - 1)
                      (l1 ++ a :: l2 ++ [e]))
  = l1 ++ e :: l2.
Proof.
  set (n := length (l1 ++ a :: l2)).
  assert (Hlen : (length (l1 ++ a :: l2 ++ [e]) - 1 = n)%nat).
  { unfold n. repeat (rewrite ?length_app; simpl). lia. }
  assert (Hassoc : ∀ b, l1 ++ b :: l2 ++ [e] = (l1 ++ b :: l2) ++ [e]).
  { intros b. by rewrite <- app_assoc. }
  assert (Hn : ∀ b, length (l1 ++ b :: l2) = n).
  { intros b. unfold n. by rewrite !length_app. }
  assert (Hi : (l1 ++ a :: l2 ++ [e]) !! length l1 = Some a)
    by by apply list_lookup_middle.
  assert (Hj : (l1 ++ a :: l2 ++ [e]) !! n = Some e).
  { rewrite Hassoc. by apply list_lookup_middle. }
  rewrite Hlen. unfold iter_swap. rewrite Hi, Hj.
  assert (H1 : <[length l1 := e]> (l1 ++ a :: l2 ++ [e]) = l1 ++ e :: l2 ++ [e]).
  { rewrite insert_app_r_alt by lia.
    replace (length l1 - length l1)%nat with 0%nat by lia. done. }
  rewrite H1, Hassoc.
  rewrite insert_app_r_alt by (rewrite Hn; lia).
  rewrite Hn. replace (n - n)%nat with 0%nat by lia. simpl.
  unfold pop_back. by rewrite removelast_last.
Qed.

Lemma first_occurrence (a : A) (l : list A) :
  a ∈ l → ∃ l1 l2, l = l1 ++ a :: l2 ∧ a ∉ l1.
Proof.
  induction l as [|e l IH]; intros Hin.
  - by apply elem_of_nil in Hin.
  - destruct (decide (e = a)) as [->|Hne].
    + exists [], l. split; [done|]. apply not_elem_of_nil.
    + apply elem_of_cons in Hin as [->|Hin]; [done|].
      destruct (IH Hin) as (l1 & l2 & -> & Hn).
      exists (e :: l1), l2. split; [done|].
      intros [Heq|Hin']%elem_of_cons; [by subst|done].
Qed.

Lemma moved_last_snoc (e : A) (l : list A) : moved_last (l ++ [e]) = e :: l.
Proof. unfold moved_last. by rewrite last_snoc, removelast_last. Qed.

Lemma moved_last_perm (l : list A) : moved_last l ≡ₚ l.
Proof.
  destruct l as [|e l] using rev_ind; [done|].
  rewrite moved_last_snoc. by rewrite Permutation_app_comm.
Qed.

Lemma swap_pop_first_occurrence (a : A) (l1 l2 : list A) :
  pop_back (iter_swap (length l1) (length (l1 ++ a :: l2) - 1) (l1 ++ a :: l2))
  = l1 ++ moved_last l2.
Proof.
  destruct l2 as [|e l2 _] using rev_ind.
  - simpl. rewrite app_nil_r. apply swap_pop_last.
  - rewrite moved_last_snoc. apply swap_pop_middle.
Qed.
End VectorFacts.

(** ** removeActor *)

Lemma removeActor_at (a : ActorId) (l1 l2 : list ActorId) (w : World) (tr : list Event) :
  a ∉ l1 →
  TestScene.removeActor a (mk_Scene (l1 ++ a :: l2) w tr)
  = mk_Scene (l1 ++ moved_last l2) w tr.
Proof.
  intros Hn. unfold TestScene.removeActor. simpl.
  rewrite std_find_app_first by done.
  by rewrite swap_pop_first_occurrence.
Qed.

Lemma removeActor_not_found (a : ActorId) (s : Scene) :
  a ∉ actors s → TestScene.removeActor a s = s.
Proof.
  intros Hn. unfold TestScene.removeActor. by rewrite std_find_None.
Qed.

(** C4. When [a] is in the vector, [removeActor a] overwrites its first
    occurrence with the last element and drops the last slot: the vector
    is one shorter, it holds the other elements (as a multiset), and the
    world, with the [Actor] object [a] points to, is left as it was. *)
Theorem removeActor_present (a : ActorId) (s : Scene) :
  a ∈ actors s →
  (∃ l1 l2, actors s = l1 ++ a :: l2 ∧ (a ∉ l1)
            ∧ actors (TestScene.removeActor a s) = l1 ++ moved_last l2)
  ∧ (length (actors (TestScene.removeActor a s)) + 1 = length (actors s))%nat
  ∧ actors s ≡ₚ a :: actors (TestScene.removeActor a s)
  ∧ world (TestScene.removeActor a s) = world s
  ∧ heap (world (TestScene.removeActor a s)) !! a = heap (world s) !! a.
Proof.
  intros Hin. destruct s as [l w tr]. simpl in Hin.
  destruct (first_occurrence a l Hin) as (l1 & l2 & -> & Hn).
  rewrite removeActor_at by done. simpl.
  assert (Hperm : (l1 ++ a :: l2) ≡ₚ (a :: l1 ++ moved_last l2)).
  { rewrite moved_last_perm. symmetry. apply Permutation_middle. }
  split; [by exists l1, l2|].
  split; [|done].
  apply Permutation_length in Hperm. simpl in Hperm. lia.
Qed.

Lemma removeActor_present_witness :
  helmet1 ∈ actors sample_scene
  ∧ actors sample_scene ≡ₚ helmet1 :: actors (TestScene.removeActor helmet1 sample_scene)
  ∧ world (TestScene.removeActor helmet1 sample_scene) = world sample_scene.
Proof.
  assert (Hin : helmet1 ∈ actors sample_scene) by (simpl; left).
  split; [exact Hin|].
  destruct (removeActor_present helmet1 sample_scene Hin) as (_ & _ & Hp & Hw & _).
  exact (conj Hp Hw).
Defined.

(** C10. When [a] is not in the vector, [removeActor a] changes nothing;
    so on a vector without duplicates a second [removeActor a] changes
    nothing. *)
Theorem removeActor_absent (a : ActorId) (s : Scene) :
  (a ∉ actors s → TestScene.removeActor a s = s)
  ∧ (NoDup (actors s) →
     TestScene.removeActor a (TestScene.removeActor a s) = TestScene.removeActor a s).
Proof.
  split; [apply removeActor_not_found|].
  intros Hnd. destruct (decide (a ∈ actors s)) as [Hin|Hn].
  - apply removeActor_not_found.
    destruct s as [l w tr]. simpl in *.
    destruct (first_occurrence a l Hin) as (l1 & l2 & -> & Hn).
    rewrite removeActor_at by done. simpl.
    apply NoDup_app in Hnd as (Hnd1 & Hnd12 & Hnd2).
    apply NoDup_cons in Hnd2 as [Ha2 Hnd2].
    rewrite elem_of_app, moved_last_perm. tauto.
  - by rewrite !(removeActor_not_found a s Hn).
Qed.

Lemma removeActor_absent_witness :
  ((3%positive ∉ actors sample_scene) ∧ NoDup (actors sample_scene))
  ∧ TestScene.removeActor 3%positive sample_scene = sample_scene
  ∧ TestScene.removeActor helmet1 (TestScene.removeActor helmet1 sample_scene)
    = TestScene.removeActor helmet1 sample_scene.
Proof.
  assert (Hn : 3%positive ∉ actors sample_scene).
  { simpl. intros Hin. apply list_elem_of_In in Hin. simpl in Hin.
    unfold helmet1, animPeople1 in Hin. intuition discriminate. }
  assert (Hnd : NoDup (actors sample_scene)).
  { apply NoDup_ListNoDup. simpl. repeat constructor; simpl;
      unfold helmet1, animPeople1; intuition discriminate. }
  split; [exact (conj Hn Hnd)|].
  split.
  - exact (proj1 (removeActor_absent 3%positive sample_scene) Hn).
  - exact (proj2 (removeActor_absent helmet1 sample_scene) Hnd).
Defined.

(** ** RigidbodyComponent *)

Ltac unfold_actor_ops :=
  unfold setPosition, getPosition, GetActorName, getState, setState,
    deref_actor, deref_body, from_option, bind in *.

Section RigidbodyFacts.
Variable defaultOrder : Z.
Variable to_string : float -> string.

Abbreviation update_TownRunner := (RigidbodyComponent_TownRunner.update to_string).
Abbreviation update_part004 := RigidbodyComponent_part004.update.

(** What the TownRunner revision does when both pointers are live. *)
Lemma update_TownRunner_Ok (c : RigidbodyComponent) (w : World) b t act :
  _rigidBody c = Some b → bodies w !! b = Some t → heap w !! owner c = Some act →
  ∃ message,
    update_TownRunner c w
    = Ok (mk_World
            (<[owner c := mk_Actor (float3_of_Vector3 (tposition t)) (state act)
                                   (actorName act)]> (heap w))
            (bodies w) (log w ++ [message])).
Proof.
  intros Hrb Hb Ha. unfold RigidbodyComponent_TownRunner.update.
  unfold_actor_ops. rewrite Hrb, Hb, Ha. simpl.
  rewrite lookup_insert_eq. simpl. eexists. reflexivity.
Qed.

(** The same with the line it logs. *)
Lemma update_TR_Ok_message (c : RigidbodyComponent) (w : World) b t act :
  _rigidBody c = Some b → bodies w !! b = Some t → heap w !! owner c = Some act →
  update_TownRunner c w
  = Ok (mk_World
          (<[owner c := mk_Actor (float3_of_Vector3 (tposition t)) (state act)
                                 (actorName act)]> (heap w))
          (bodies w)
          (log w ++ [update_message to_string (actorName act) (tposition t)])).
Proof.
  intros Hrb Hb Ha. unfold RigidbodyComponent_TownRunner.update.
  unfold_actor_ops. rewrite Hrb, Hb, Ha. simpl.
  rewrite lookup_insert_eq. reflexivity.
Qed.

(** What the part_004 revision does when both pointers are live. *)
Lemma update_part004_Ok (c : RigidbodyComponent) (w : World) b t act :
  _rigidBody c = Some b → bodies w !! b = Some t → heap w !! owner c = Some act →
  update_part004 c w
  = Ok (mk_World (heap w)
          (<[b := mk_Transform (Vector3_of_float3 (position act)) (torientation t)]>
             (bodies w))
          (log w)).
Proof.
  intros Hrb Hb Ha. unfold RigidbodyComponent_part004.update.
  unfold_actor_ops. rewrite Hrb, Hb, Ha. reflexivity.
Qed.

Lemma float3_Vector3_inv (v : Vector3) :
  Vector3_of_float3 (float3_of_Vector3 v) = v.
Proof. by destruct v. Qed.

Lemma Vector3_float3_inv (p : float3) :
  float3_of_Vector3 (Vector3_of_float3 p) = p.
Proof. by destruct p. Qed.

(** C7. The part_004 revision writes the owner's position into the
    position of the body's transform; the orientation of the body, the
    other bodies and every actor (the owner's position and state with
    them) are as before. *)
Theorem update_part004_frame (c : RigidbodyComponent) (w : World) b t act :
  _rigidBody c = Some b → bodies w !! b = Some t → heap w !! owner c = Some act →
  ∃ w', update_part004 c w = Ok w'
    ∧ bodies w' !! b
      = Some (mk_Transform (Vector3_of_float3 (position act)) (torientation t))
    ∧ (∀ b', b' ≠ b → bodies w' !! b' = bodies w !! b')
    ∧ heap w' = heap w
    ∧ heap w' !! owner c = Some act
    ∧ log w' = log w.
Proof.
  intros Hrb Hb Ha. eexists. split; [by eapply update_part004_Ok|]. simpl.
  split; [by rewrite lookup_insert_eq|].
  split; [|done].
  intros b' Hne. by rewrite lookup_insert_ne.
Qed.

(** C2, as amended. With both pointers live, both revisions return and leave
    the actor and the body at the same position, in opposite directions:
    the TownRunner revision moves the actor to the body, leaves the bodies
    as they were and appends one line to the log, naming the actor and the
    position of the body; the part_004 revision moves the body to the
    actor and leaves the actors and the log as they were.  They leave the
    same actors and bodies exactly when the two positions were equal before
    the call. *)
Theorem update_revisions_sync (c : RigidbodyComponent) (w : World) b t act :
  _rigidBody c = Some b → bodies w !! b = Some t → heap w !! owner c = Some act →
  ∃ w1 w2,
    update_TownRunner c w = Ok w1 ∧ update_part004 c w = Ok w2
    ∧ synced c w1 ∧ synced c w2
    ∧ (bodies w1 = bodies w
       ∧ position <$> heap w1 !! owner c = Some (float3_of_Vector3 (tposition t))
       ∧ log w1 = log w ++ [update_message to_string (actorName act) (tposition t)])
    ∧ (heap w2 = heap w
       ∧ tposition <$> bodies w2 !! b = Some (Vector3_of_float3 (position act))
       ∧ log w2 = log w)
    ∧ ((heap w1 = heap w2 ∧ bodies w1 = bodies w2)
       ↔ position act = float3_of_Vector3 (tposition t)).
Proof.
  intros Hrb Hb Ha.
  pose proof (update_TR_Ok_message c w b t act Hrb Hb Ha) as H1.
  pose proof (update_part004_Ok c w b t act Hrb Hb Ha) as H2.
  eexists _, _. split; [exact H1|]. split; [exact H2|]. simpl.
  split.
  { unfold synced. simpl. eexists _, b, t. rewrite lookup_insert_eq. done. }
  split.
  { unfold synced. simpl. eexists act, b, _. rewrite lookup_insert_eq.
    repeat split; try done. simpl. by destruct (position act). }
  split; [by rewrite lookup_insert_eq|].
  split; [by rewrite lookup_insert_eq|].
  split.
  - intros [Hh _].
    assert (Hl : <[owner c := mk_Actor (float3_of_Vector3 (tposition t))
                                (state act) (actorName act)]> (heap w) !! owner c
                 = heap w !! owner c) by by rewrite Hh.
    rewrite lookup_insert_eq, Ha in Hl. by inversion Hl.
  - intros Hp. split.
    + apply insert_id. rewrite Ha, <- Hp. by destruct act.
    + symmetry. apply insert_id. rewrite Hb, Hp, float3_Vector3_inv.
      by destruct t.
Qed.

(** A fault of [update]: null dereference exactly for a null handle. *)
Lemma update_TownRunner_null (c : RigidbodyComponent) (w : World) :
  update_TownRunner c w = Fault NullDereference ↔ _rigidBody c = None.
Proof.
  unfold RigidbodyComponent_TownRunner.update. unfold_actor_ops.
  destruct (_rigidBody c) as [b|]; [|done].
  split; [|done].
  destruct (bodies w !! b); [|done].
  destruct (heap w !! owner c); simpl; [|done].
  rewrite lookup_insert_eq. done.
Qed.

Lemma createRigidBody_lookup (t : Transform) (w : World) :
  bodies (createRigidBody t w).2 !! (createRigidBody t w).1 = Some t.
Proof. unfold createRigidBody. simpl. by rewrite lookup_insert_eq. Qed.

(** C8. The two constructors without a physics world leave [_rigidBody]
    null; [update] faults with a null dereference exactly when the handle is
    null; the two constructors with a physics world store the body they
    create, so that [update] on their result does not dereference null. *)
Theorem update_null_dereference :
  (∀ a, _rigidBody (RigidbodyComponent_TownRunner.make defaultOrder a) = None)
  ∧ (∀ a o, _rigidBody (RigidbodyComponent_TownRunner.make_order a o) = None)
  ∧ (∀ c w, update_TownRunner c w = Fault NullDereference ↔ _rigidBody c = None)
  ∧ (∀ a t w,
       let cw := RigidbodyComponent_TownRunner.make_world defaultOrder a t w in
       (∃ b, _rigidBody cw.1 = Some b ∧ bodies cw.2 !! b = Some t)
       ∧ update_TownRunner cw.1 cw.2 ≠ Fault NullDereference)
  ∧ (∀ a t w o,
       let cw := RigidbodyComponent_TownRunner.make_world_order a t w o in
       (∃ b, _rigidBody cw.1 = Some b ∧ bodies cw.2 !! b = Some t)
       ∧ update_TownRunner cw.1 cw.2 ≠ Fault NullDereference).
Proof.
  split; [done|]. split; [done|]. split; [apply update_TownRunner_null|].
  split.
  - intros a t w. simpl. split.
    + eexists. split; [reflexivity|]. simpl. apply lookup_insert_eq.
    + rewrite update_TownRunner_null. done.
  - intros a t w o. simpl. split.
    + eexists. split; [reflexivity|]. simpl. apply lookup_insert_eq.
    + rewrite update_TownRunner_null. done.
Qed.

End RigidbodyFacts.

Lemma update_part004_frame_witness :
  ∃ w', RigidbodyComponent_part004.update helmetRigidbody sample_world = Ok w'
        ∧ heap w' = heap sample_world.
Proof.
  destruct (update_part004_frame helmetRigidbody sample_world 1%positive
              helmetTransform
              (mk_Actor (mk_float3 fzero fzero fzero) Active "Helmet"))
    as (w' & Hu & _ & _ & Hh & _); [reflexivity | reflexivity | reflexivity |].
  exists w'. exact (conj Hu Hh).
Defined.

Lemma update_revisions_sync_witness :
  ∃ w1 w2,
    RigidbodyComponent_TownRunner.update sample_to_string helmetRigidbody moved_world = Ok w1
    ∧ RigidbodyComponent_part004.update helmetRigidbody moved_world = Ok w2
    ∧ synced helmetRigidbody w1 ∧ synced helmetRigidbody w2
    ∧ log w1 = log moved_world
               ++ [update_message sample_to_string "Helmet" (tposition helmetTransform)]
    ∧ log w2 = log moved_world
    ∧ ¬ (heap w1 = heap w2 ∧ bodies w1 = bodies w2).
Proof.
  destruct (update_revisions_sync sample_to_string helmetRigidbody moved_world 1%positive
              helmetTransform
              (mk_Actor (mk_float3 (float_of_int 1) fzero fzero) Active "Helmet"))
    as (w1 & w2 & H1 & H2 & S1 & S2 & (_ & _ & L1) & (_ & _ & L2) & Hiff);
    [reflexivity | reflexivity | reflexivity |].
  exists w1, w2.
  refine (conj H1 (conj H2 (conj S1 (conj S2 (conj L1 (conj L2 _)))))).
  intros Heq. apply Hiff in Heq. vm_compute in Heq. discriminate Heq.
Defined.

Lemma update_null_dereference_witness :
  RigidbodyComponent_TownRunner.update sample_to_string
    (RigidbodyComponent_TownRunner.make 100 helmet1) sample_world
  = Fault NullDereference.
Proof.
  destruct (update_null_dereference 100 sample_to_string) as (H1 & _ & H3 & _).
  apply H3. apply H1.
Defined.

(** C2, as stated, fails: with the helmet at (1, 0, 0) and its body at the
    origin, the TownRunner revision moves the actor to the origin and the
    part_004 revision moves the body to (1, 0, 0). *)
Lemma update_revisions_differ :
  ¬ revisions_agree sample_to_string helmetRigidbody moved_world.
Proof.
  intros Hagree.
  destruct (update_TownRunner_Ok sample_to_string helmetRigidbody moved_world
              1%positive helmetTransform
              (mk_Actor (mk_float3 (float_of_int 1) fzero fzero) Active "Helmet"))
    as [message H1]; [reflexivity..|].
  pose proof (update_part004_Ok helmetRigidbody moved_world
              1%positive helmetTransform
              (mk_Actor (mk_float3 (float_of_int 1) fzero fzero) Active "Helmet")
              eq_refl eq_refl eq_refl) as H2.
  destruct (Hagree _ _ H1 H2) as [Hh _]. simpl in Hh.
  assert (Hl : ∀ m1 m2 : gmap ActorId Actor, m1 = m2 → m1 !! helmet1 = m2 !! helmet1)
    by (by intros ? ? ->).
  apply Hl in Hh. vm_compute in Hh. discriminate Hh.
Qed.

(** ** Actors in the world *)

Lemma present_deref (w : World) (a : ActorId) :
  present w a → ∃ act, deref_actor a w = Ok act ∧ heap w !! a = Some act.
Proof. intros [act Ha]. exists act. unfold deref_actor. by rewrite Ha. Qed.

Lemma deref_present (w : World) (a : ActorId) act :
  deref_actor a w = Ok act → heap w !! a = Some act.
Proof.
  unfold deref_actor, from_option. destruct (heap w !! a); [|done].
  by intros [= ->].
Qed.

Lemma setState_Ok (w w' : World) (a : ActorId) (st : ActorState) :
  setState a st w = Ok w' →
  ∃ act, heap w !! a = Some act
         ∧ w' = store_actor a (mk_Actor (position act) st (actorName act)) w.
Proof.
  unfold setState, bind. destruct (deref_actor a w) as [act|] eqn:Hd; [|done].
  intros [= <-]. exists act. split; [by apply deref_present|done].
Qed.

Lemma setState_state_of (w w' : World) (a b : ActorId) (st : ActorState) :
  setState a st w = Ok w' →
  state_of w' b = if decide (b = a) then Some st else state_of w b.
Proof.
  intros (act & Ha & ->)%setState_Ok. unfold state_of, store_actor. simpl.
  case_decide as Hab.
  - subst. by rewrite lookup_insert_eq.
  - by rewrite lookup_insert_ne.
Qed.

Lemma setState_present (w w' : World) (a b : ActorId) (st : ActorState) :
  setState a st w = Ok w' → present w b → present w' b.
Proof.
  intros (act & Ha & ->)%setState_Ok Hb. unfold present, store_actor. simpl.
  destruct (decide (a = b)) as [->|Hne].
  - rewrite lookup_insert_eq. by eexists.
  - by rewrite lookup_insert_ne.
Qed.

Lemma setState_total (w : World) (a : ActorId) (st : ActorState) :
  present w a → ∃ w', setState a st w = Ok w'.
Proof.
  intros (act & Hd & _)%present_deref. unfold setState, bind. rewrite Hd.
  by eexists.
Qed.

Lemma getState_state_of (w : World) (a : ActorId) (st : ActorState) :
  getState a w = Ok st ↔ state_of w a = Some st.
Proof.
  unfold getState, state_of, bind, deref_actor, from_option.
  destruct (heap w !! a); simpl; split; intros [=]; by subst.
Qed.

(** ** The loops of the scene *)

Lemma foldl_ignore {A B : Type} (s : A) (l : list B) : foldl (λ s' _, s') s l = s.
Proof. by induction l. Qed.

Lemma render_actors_Ok (l : list ActorId) (s s' : Scene) :
  TestScene.render_actors l s = Ok s' →
  actors s' = actors s ∧ world s' = world s
  ∧ trace s' = trace s ++ map EvRenderActor (filter (is_active (world s)) l).
Proof.
  revert s. induction l as [|a l IH]; intros s; simpl.
  - intros [= <-]. by rewrite app_nil_r.
  - unfold bind. destruct (getState a (world s)) as [st|] eqn:Hst; [|done].
    apply getState_state_of in Hst. intros Hr. apply IH in Hr as (Ha & Hw & Ht).
    rewrite filter_cons. destruct st.
    + rewrite decide_True in Ha, Hw, Ht by done. simpl in *.
      rewrite decide_True by done. simpl.
      rewrite Ha, Hw, Ht, <- app_assoc. done.
    + rewrite decide_False in Ha, Hw, Ht by done.
      rewrite decide_False by (unfold is_active; congruence). done.
Qed.

Lemma render_actors_total (l : list ActorId) (s : Scene) :
  Forall (present (world s)) l → ∃ s', TestScene.render_actors l s = Ok s'.
Proof.
  revert s. induction l as [|a l IH]; intros s Hall; simpl.
  - by eexists.
  - apply Forall_cons in Hall as [[act Ha] Hall].
    unfold getState, deref_actor, bind. rewrite Ha. simpl.
    apply IH. by destruct (decide (state act = Active)).
Qed.

Section SceneFacts.
Variable AU : ActorId -> double -> double -> World -> World.
Variable PU : World -> World.

Lemma animate_Ok (l : list ActorId) ct et (s s' : Scene) :
  TestScene.animate AU l ct et s = Ok s' →
  actors s' = actors s
  ∧ trace s' = trace s ++ map EvActorUpdate l
  ∧ world s' = animated AU ct et l (world s).
Proof.
  revert s. induction l as [|a l IH]; intros s; simpl.
  - intros [= <-]. by rewrite app_nil_r.
  - unfold bind. destruct (deref_actor a (world s)); [|done].
    intros Hr. apply IH in Hr as (Ha & Ht & Hw). simpl in *.
    by rewrite Ha, Ht, Hw, <- app_assoc.
Qed.

Lemma animate_total (l : list ActorId) ct et (s : Scene) :
  (∀ a, preserves_actors (AU a ct et)) →
  Forall (present (world s)) l →
  ∃ s', TestScene.animate AU l ct et s = Ok s'.
Proof.
  intros HAU. revert s. induction l as [|a l IH]; intros s Hall; simpl.
  - by eexists.
  - apply Forall_cons in Hall as [Ha Hall].
    destruct (present_deref _ _ Ha) as (act & -> & _). simpl.
    apply IH. simpl. eapply Forall_impl; [exact Hall|].
    intros b Hb. by apply HAU.
Qed.

Lemma animated_present ct et (l : list ActorId) (w : World) (a : ActorId) :
  (∀ b, preserves_actors (AU b ct et)) →
  present w a → present (animated AU ct et l w) a.
Proof.
  intros HAU. revert w. induction l as [|b l IH]; intros w Ha; [done|].
  simpl. apply IH. by apply HAU.
Qed.

Lemma animated_dead ct et (l : list ActorId) (w : World) (a : ActorId) :
  (∀ b, preserves_dead (AU b ct et)) →
  is_dead w a → is_dead (animated AU ct et l w) a.
Proof.
  intros HAU. revert w. induction l as [|b l IH]; intros w Ha; [done|].
  simpl. apply IH. by apply HAU.
Qed.

Lemma collect_dead_total (l : list ActorId) (w : World) (acc : list ActorId) :
  Forall (present w) l → ∃ d, TestScene.collect_dead l w acc = Ok d.
Proof.
  revert acc. induction l as [|a l IH]; intros acc Hall; simpl.
  - by eexists.
  - apply Forall_cons in Hall as [[act Ha] Hall].
    unfold getState, deref_actor, bind. rewrite Ha. simpl. by apply IH.
Qed.

(** What a call of [Update] that returns has done. *)
Lemma Update_Ok keys ct et (s s' : Scene) :
  TestScene.Update AU PU keys ct et s = Ok s' →
  actors s' = actors s
  ∧ trace s' = trace s ++ update_calls (actors s)
  ∧ (if keys MoveBackward
     then ∃ a, last (actors s) = Some a
               ∧ setState a Dead (animated AU ct et (actors s) (PU (world s)))
                 = Ok (world s')
     else world s' = animated AU ct et (actors s) (PU (world s))).
Proof.
  unfold TestScene.Update. simpl.
  destruct (TestScene.animate _ _ _ _ _) as [s1|] eqn:Han;
    cbn [bind]; [|discriminate].
  apply animate_Ok in Han as (Ha1 & Ht1 & Hw1). simpl in *.
  assert (Htr : trace s1 = trace s ++ update_calls (actors s)).
  { rewrite Ht1. unfold update_calls. by rewrite <- !app_assoc. }
  destruct (keys MoveBackward).
  - unfold back. rewrite Ha1.
    destruct (last (actors s)) as [a|]; cbn [from_option bind]; [|discriminate].
    destruct (setState a Dead (world s1)) as [w2|] eqn:Hs;
      cbn [bind]; [|discriminate].
    destruct (TestScene.collect_dead _ _ _) as [d|]; cbn [bind]; [|discriminate].
    rewrite foldl_ignore. intros [= <-]. simpl.
    split; [done|]. split; [done|].
    exists a. split; [done|]. by rewrite <- Hw1.
  - cbn [bind].
    destruct (TestScene.collect_dead _ _ _) as [d|]; cbn [bind]; [|discriminate].
    rewrite foldl_ignore. by intros [= <-].
Qed.

Lemma Update_total keys ct et (s : Scene) :
  (∀ a, preserves_actors (AU a ct et)) → preserves_actors PU →
  updatable keys s →
  ∃ s', TestScene.Update AU PU keys ct et s = Ok s'.
Proof.
  intros HAU HPU [Hall Hne]. unfold TestScene.Update. simpl.
  destruct (animate_total (actors s) ct et
              (with_world (PU (world s))
                 (emit EvCameraUpdate (emit EvPhysicsUpdate (emit EvSampleBaseUpdate s)))))
    as [s1 Han].
  { done. }
  { simpl. eapply Forall_impl; [exact Hall|]. intros b Hb. by apply HPU. }
  unfold with_world, emit in *. simpl in *. rewrite Han. simpl.
  pose proof Han as (Ha1 & Ht1 & Hw1)%animate_Ok. simpl in *.
  assert (Hall1 : Forall (present (world s1)) (actors s1)).
  { rewrite Ha1, Hw1. eapply Forall_impl; [exact Hall|].
    intros b Hb. apply animated_present; [done|]. by apply HPU. }
  destruct (keys MoveBackward).
  - rewrite Ha1 in *. unfold back.
    destruct (last (actors s)) as [a|] eqn:Hlast.
    2:{ apply last_None in Hlast. by destruct Hne. }
    simpl.
    assert (Ha : present (world s1) a).
    { rewrite Forall_forall in Hall1. apply Hall1.
      apply last_Some_elem_of. done. }
    destruct (setState_total (world s1) a Dead Ha) as [w2 Hs]. rewrite Hs. simpl.
    destruct (collect_dead_total (actors s) w2 []) as [d ->].
    { eapply Forall_impl; [exact Hall1|]. intros b Hb.
      by eapply setState_present. }
    simpl. by eexists.
  - simpl. destruct (collect_dead_total (actors s1) (world s1) [] Hall1) as [d ->].
    simpl. by eexists.
Qed.


(** C9. [Render] calls [RenderActor] on the elements of [actors] that are
    [Active], in the order of the vector, and on no other; [Update] calls
    [Update] on every element of [actors], whatever its state: one call per
    element in the trace, and the world it leaves is the one the updates of
    all the elements, dead ones included, have made in turn of the world
    the physics update left (with the last actor then set dead when the key
    [MoveBackward] is down). *)
Theorem Render_active_Update_all keys ct et (s : Scene) :
  (Forall (present (world s)) (actors s) →
   ∃ s', TestScene.Render s = Ok s'
     ∧ trace s' = trace s
         ++ [EvSetRenderTargets; EvClearRenderTarget; EvClearDepthStencil;
             EvEnvMapRender]
         ++ map EvRenderActor (filter (is_active (world s)) (actors s))
     ∧ (∀ a, is_dead (world s) a →
             EvRenderActor a ∉ map EvRenderActor (filter (is_active (world s)) (actors s))))
  ∧ ((∀ a, preserves_actors (AU a ct et)) → preserves_actors PU →
     updatable keys s →
     ∃ s', TestScene.Update AU PU keys ct et s = Ok s'
       ∧ trace s' = trace s
           ++ [EvSampleBaseUpdate; EvPhysicsUpdate; EvCameraUpdate]
           ++ map EvActorUpdate (actors s)
       ∧ (if keys MoveBackward
          then ∃ a, last (actors s) = Some a
                    ∧ setState a Dead (animated AU ct et (actors s) (PU (world s)))
                      = Ok (world s')
          else world s' = animated AU ct et (actors s) (PU (world s)))).
Proof.
  split.
  - intros Hall. unfold TestScene.Render.
    destruct (render_actors_total (actors s)
                (emit EvEnvMapRender (emit EvClearDepthStencil
                   (emit EvClearRenderTarget (emit EvSetRenderTargets s)))))
      as [s' Hs']; [done|].
    exists s'. split; [done|].
    apply render_actors_Ok in Hs' as (_ & _ & Ht). simpl in Ht.
    split; [by rewrite Ht, <- !app_assoc|].
    intros a Hdead Hin. apply list_elem_of_fmap in Hin as (b & [= <-] & Hb).
    apply list_elem_of_filter in Hb as [Hact _].
    unfold is_dead, is_active in *. congruence.
  - intros HAU HPU Hup.
    destruct (Update_total keys ct et s HAU HPU Hup) as [s' Hs'].
    exists s'. split; [done|].
    by apply Update_Ok in Hs' as (_ & Ht & Hw).
Qed.

(** C1 fails on the code: the loop over [deadActors] has an empty body, so
    a call of [Update] with the key [MoveBackward] down returns with the
    last element of [actors] dead and still in the vector. *)
Theorem Update_leaves_dead_actor keys ct et (s : Scene) :
  (∀ a, preserves_actors (AU a ct et)) → preserves_actors PU →
  updatable keys s → keys MoveBackward = true →
  ∃ s' a, TestScene.Update AU PU keys ct et s = Ok s'
    ∧ actors s' = actors s
    ∧ last (actors s') = Some a ∧ a ∈ actors s' ∧ is_dead (world s') a.
Proof.
  intros HAU HPU Hup Hk.
  destruct (Update_total keys ct et s HAU HPU Hup) as [s' Hs'].
  pose proof Hs' as (Ha & _ & Hw)%Update_Ok. rewrite Hk in Hw.
  destruct Hw as (a & Hlast & Hset).
  exists s', a. rewrite Ha. repeat split; try done.
  - by apply last_Some_elem_of.
  - unfold is_dead. rewrite (setState_state_of _ _ a a Dead Hset).
    by rewrite decide_True.
Qed.

(** A frame kills, and revives nobody. *)
Lemma step_dead (s s' : Scene) (a : ActorId) :
  (∀ b ct et, preserves_dead (AU b ct et)) → preserves_dead PU →
  step AU PU s s' → is_dead (world s) a → is_dead (world s') a.
Proof.
  intros HAU HPU (keys & ct & et & Hs') Ha.
  apply Update_Ok in Hs' as (_ & _ & Hw).
  assert (Hd : is_dead (animated AU ct et (actors s) (PU (world s))) a).
  { apply animated_dead; [done|]. by apply HPU. }
  destruct (keys MoveBackward).
  - destruct Hw as (b & _ & Hset). unfold is_dead.
    rewrite (setState_state_of _ _ b a Dead Hset). by case_decide.
  - by rewrite Hw.
Qed.

Lemma run_dead (r : list Scene) (s0 : Scene) (a : ActorId) :
  (∀ b ct et, preserves_dead (AU b ct et)) → preserves_dead PU →
  run AU PU (s0 :: r) → is_dead (world s0) a →
  Forall (λ s, is_dead (world s) a) (s0 :: r).
Proof.
  intros HAU HPU. revert s0. induction r as [|s1 r IH]; intros s0 Hrun Ha.
  - by repeat constructor.
  - inversion Hrun as [|? ? ? Hstep Hrun']; subst.
    constructor; [done|]. apply IH; [done|]. by eapply step_dead.
Qed.

Lemma transitions_cons (from to : ActorState) (a : ActorId) (s1 s2 : Scene)
    (r : list Scene) :
  transitions from to a (s1 :: s2 :: r)
  = ((if decide (state_of (world s1) a = Some from ∧ state_of (world s2) a = Some to)
      then 1 else 0) + transitions from to a (s2 :: r))%nat.
Proof. reflexivity. Qed.

Lemma transitions_from_dead (to : ActorState) (r : list Scene) (a : ActorId) :
  Forall (λ s, is_dead (world s) a) r → transitions Active to a r = 0%nat.
Proof.
  induction r as [|s0 r IH]; intros Hall; [done|].
  destruct r as [|s1 r]; [done|].
  apply Forall_cons in Hall as [H0 Hall].
  rewrite transitions_cons, IH by done.
  rewrite decide_False; [done|]. unfold is_dead in H0. intros [? _]. congruence.
Qed.

(** C6. Along any run of frames the state of an actor goes from [Active]
    to [Dead] at most once and never from [Dead] to [Active]: an actor that
    is dead in a frame is dead in every later one.  [Actor::Update] and
    [ReactPhysic::Update], which are not among the sources, are assumed
    not to revive an actor. *)
Theorem state_transitions (r : list Scene) (a : ActorId) :
  (∀ b ct et, preserves_dead (AU b ct et)) → preserves_dead PU →
  run AU PU r →
  (transitions Active Dead a r ≤ 1)%nat
  ∧ transitions Dead Active a r = 0%nat
  ∧ (∀ i j si sj, (i ≤ j)%nat → r !! i = Some si → r !! j = Some sj →
       is_dead (world si) a → is_dead (world sj) a).
Proof.
  intros HAU HPU Hrun. split; [|split].
  - induction Hrun as [s|s s' r Hstep Hrun IH]; [simpl; lia|].
    rewrite transitions_cons. case_decide as Hd; [|lia].
    destruct Hd as [_ Hd].
    rewrite transitions_from_dead; [lia|]. by eapply run_dead.
  - induction Hrun as [s|s s' r Hstep Hrun IH]; [done|].
    rewrite transitions_cons, IH.
    rewrite decide_False; [done|]. intros [Hd Hact].
    pose proof (step_dead s s' a HAU HPU Hstep Hd) as Hd'.
    unfold is_dead in Hd'. congruence.
  - induction Hrun as [s|s s' r Hstep Hrun IH]; intros i j si sj Hij Hi Hj Hd.
    + destruct i, j; simpl in *; try done. congruence.
    + destruct i as [|i].
      * simpl in Hi. injection Hi as <-.
        pose proof (run_dead _ _ a HAU HPU (run_cons _ _ _ _ _ Hstep Hrun) Hd) as Hall.
        rewrite Forall_lookup in Hall. by eapply Hall.
      * destruct j as [|j]; [lia|]. simpl in Hi, Hj.
        eapply (IH i j); [lia|done..].
Qed.

End SceneFacts.

(** ** The example scene *)

Lemma update_part004_heap (c : RigidbodyComponent) (w w' : World) :
  RigidbodyComponent_part004.update c w = Ok w' → heap w' = heap w.
Proof.
  unfold RigidbodyComponent_part004.update.
  destruct (deref_body (_rigidBody c) w) as [[b t]|]; cbn [bind]; [|discriminate].
  destruct (getPosition (owner c) w) as [pos|]; cbn [bind]; [|discriminate].
  by intros [= <-].
Qed.

Lemma sample_Actor_Update_heap (a : ActorId) (ct et : double) (w : World) :
  heap (sample_Actor_Update a ct et w) = heap w.
Proof.
  unfold sample_Actor_Update. case_decide; [|done].
  destruct (RigidbodyComponent_part004.update helmetRigidbody w) eqn:Hu; [|done].
  by apply update_part004_heap in Hu.
Qed.

Lemma sample_Actor_Update_actors (a : ActorId) (ct et : double) :
  preserves_actors (sample_Actor_Update a ct et).
Proof. intros w b. unfold present. by rewrite sample_Actor_Update_heap. Qed.

Lemma sample_Actor_Update_dead (a : ActorId) (ct et : double) :
  preserves_dead (sample_Actor_Update a ct et).
Proof.
  intros w b. unfold is_dead, state_of. by rewrite sample_Actor_Update_heap.
Qed.

Lemma sample_ReactPhysic_Update_actors : preserves_actors sample_ReactPhysic_Update.
Proof. by intros w b. Qed.

Lemma sample_ReactPhysic_Update_dead : preserves_dead sample_ReactPhysic_Update.
Proof. by intros w b. Qed.

Lemma sample_scene_updatable (keys : InputController) : updatable keys sample_scene.
Proof.
  split.
  - repeat constructor; eexists; reflexivity.
  - discriminate.
Qed.


Lemma dead_helmet_scene_updatable (keys : InputController) :
  updatable keys dead_helmet_scene.
Proof.
  split.
  - repeat constructor; eexists; reflexivity.
  - discriminate.
Qed.

(** With the helmet dead at (1, 0, 0): [Render] skips it, [Update] updates
    it, which moves its body from the origin to (1, 0, 0). *)
Lemma Render_active_Update_all_witness :
  is_dead (world dead_helmet_scene) helmet1
  ∧ (∃ s', TestScene.Render dead_helmet_scene = Ok s'
       ∧ trace s' = [EvSetRenderTargets; EvClearRenderTarget; EvClearDepthStencil;
                     EvEnvMapRender; EvRenderActor animPeople1])
  ∧ (∃ s', TestScene.Update sample_Actor_Update sample_ReactPhysic_Update
             no_key fzero fzero dead_helmet_scene = Ok s'
       ∧ trace s' = [EvSampleBaseUpdate; EvPhysicsUpdate; EvCameraUpdate;
                     EvActorUpdate helmet1; EvActorUpdate animPeople1]
       ∧ tposition <$> bodies (world dead_helmet_scene) !! 1%positive
         = Some Vector3_zero
       ∧ tposition <$> bodies (world s') !! 1%positive
         = Some (mk_Vector3 (float_of_int 1) fzero fzero)).
Proof.
  destruct (Render_active_Update_all sample_Actor_Update sample_ReactPhysic_Update
              no_key fzero fzero dead_helmet_scene) as [Hr Hu].
  split; [reflexivity|]. split.
  - destruct Hr as (s' & Hs' & Ht & _).
    { exact (proj1 (dead_helmet_scene_updatable no_key)). }
    exists s'. exact (conj Hs' Ht).
  - destruct Hu as (s' & Hs' & Ht & Hw).
    { exact (λ a, sample_Actor_Update_actors a fzero fzero). }
    { exact sample_ReactPhysic_Update_actors. }
    { exact (dead_helmet_scene_updatable no_key). }
    exists s'. split; [exact Hs'|]. split; [exact Ht|].
    split; [reflexivity|].
    cbv beta iota delta [no_key] in Hw. rewrite Hw. vm_compute. reflexivity.
Defined.

Lemma Update_leaves_dead_actor_witness :
  ∃ s', TestScene.Update sample_Actor_Update sample_ReactPhysic_Update
          (key_down MoveBackward) fzero fzero sample_scene = Ok s'
    ∧ actors s' = [helmet1; animPeople1]
    ∧ is_dead (world s') animPeople1.
Proof.
  destruct (Update_leaves_dead_actor sample_Actor_Update sample_ReactPhysic_Update
              (key_down MoveBackward) fzero fzero sample_scene
              (λ a, sample_Actor_Update_actors a fzero fzero)
              sample_ReactPhysic_Update_actors
              (sample_scene_updatable (key_down MoveBackward))
              eq_refl)
    as (s' & a & Hs' & Ha & Hlast & _ & Hd).
  exists s'. split; [exact Hs'|]. split; [exact Ha|].
  rewrite Ha in Hlast. injection Hlast as <-. exact Hd.
Defined.

Lemma state_transitions_witness :
  ∃ s1, run sample_Actor_Update sample_ReactPhysic_Update [sample_scene; s1]
    ∧ (transitions Active Dead animPeople1 [sample_scene; s1] ≤ 1)%nat
    ∧ transitions Dead Active animPeople1 [sample_scene; s1] = 0%nat.
Proof.
  destruct (Update_total sample_Actor_Update sample_ReactPhysic_Update
              (key_down MoveBackward) fzero fzero sample_scene
              (λ a, sample_Actor_Update_actors a fzero fzero)
              sample_ReactPhysic_Update_actors
              (sample_scene_updatable (key_down MoveBackward))) as [s1 Hs1].
  assert (Hrun : run sample_Actor_Update sample_ReactPhysic_Update [sample_scene; s1]).
  { apply run_cons; [|apply run_one].
    exists (key_down MoveBackward), fzero, fzero. exact Hs1. }
  exists s1. split; [exact Hrun|].
  destruct (state_transitions sample_Actor_Update sample_ReactPhysic_Update
              [sample_scene; s1] animPeople1
              sample_Actor_Update_dead sample_ReactPhysic_Update_dead Hrun)
    as (H1 & H2 & _).
  exact (conj H1 H2).
Defined.

(** ** Comparisons of binary32 values *)

Lemma SFcompare_antisym (a b : float) :
  SFcompare b a = CompOpp <$> SFcompare a b.
Proof.
  destruct a as [sa|sa| |sa ma ea], b as [sb|sb| |sb mb eb]; simpl;
    try done;
    try (destruct sa; done); try (destruct sb; done);
    try (destruct sa, sb; done).
  pose proof (Pos.compare_cont_antisym ma mb Eq) as Hm. simpl in Hm.
  destruct sa, sb; simpl; try done.
  - rewrite (Z.compare_antisym ea eb).
    destruct (ea ?= eb)%Z; simpl; try done.
    rewrite <- Hm. by destruct (Pos.compare_cont Eq ma mb).
  - rewrite (Z.compare_antisym ea eb).
    destruct (ea ?= eb)%Z; simpl; try done.
    by rewrite <- Hm.
Qed.

Lemma fle_not_flt (a b : float) : fle a b = true → flt b a = false.
Proof.
  unfold fle, flt, SFleb, SFltb. rewrite (SFcompare_antisym a b).
  by destruct (SFcompare a b) as [[]|].
Qed.

Lemma within_not_outside (Min Max c : float) :
  within Min Max c = true → flt c Min = false ∧ flt Max c = false.
Proof.
  unfold within. intros [H1 H2]%andb_true_iff.
  split; by apply fle_not_flt.
Qed.

(** ** The lambda and the loop of UpdateLights *)

Lemma ClampCoordinate_within (Coord Dir Min Max : float) :
  within Min Max Coord = true →
  Light.ClampCoordinate Coord Dir Min Max = (Coord, Dir).
Proof.
  intros [H1 H2]%within_not_outside. unfold Light.ClampCoordinate.
  by rewrite H1, H2.
Qed.

Section LightFacts.
Variable GridDim : Z.
Variable fElapsedTime : float.

Abbreviation move := (Light.move_light GridDim fElapsedTime).

Lemma update_lights_from_seq (n k : nat) (st : LightState) :
  (k + n ≤ length (m_Lights st))%nat →
  (k + n ≤ length (m_LightMoveDirs st))%nat →
  ∃ st', Light.update_lights_from GridDim fElapsedTime (seq k n) st = Ok st'
    ∧ ∀ i L Dir, m_Lights st !! i = Some L → m_LightMoveDirs st !! i = Some Dir →
        if decide (k ≤ i < k + n)%nat
        then m_Lights st' !! i = Some (move L Dir).1
             ∧ m_LightMoveDirs st' !! i = Some (move L Dir).2
        else m_Lights st' !! i = Some L ∧ m_LightMoveDirs st' !! i = Some Dir.
Proof.
  revert k st. induction n as [|n IH]; intros k st HL HD.
  - exists st. split; [done|]. intros i L Dir Hi Hd.
    rewrite decide_False by lia. done.
  - simpl. unfold Light.update_light.
    destruct (lookup_lt_is_Some_2 (m_Lights st) k) as [Lk HLk]; [lia|].
    destruct (lookup_lt_is_Some_2 (m_LightMoveDirs st) k) as [Dk HDk]; [lia|].
    rewrite HLk, HDk. cbn [from_option bind].
    destruct (move Lk Dk) as [Lk' Dk'] eqn:Hmove. cbn [bind].
    destruct (IH (S k)
                (mk_LightState (<[k := Lk']> (m_Lights st))
                               (<[k := Dk']> (m_LightMoveDirs st))
                               (m_LightsCount st)))
      as (st' & Hst' & Hspec).
    { simpl. rewrite length_insert. lia. }
    { simpl. rewrite length_insert. lia. }
    exists st'. split; [done|]. intros i L Dir Hi Hd. simpl in Hspec.
    destruct (decide (i = k)) as [->|Hne].
    + rewrite decide_True by lia.
      assert (L = Lk) by congruence. assert (Dir = Dk) by congruence. subst.
      rewrite Hmove. simpl.
      specialize (Hspec k Lk' Dk').
      rewrite decide_False in Hspec by lia. apply Hspec.
      * apply list_lookup_insert_eq. by eapply lookup_lt_Some.
      * apply list_lookup_insert_eq. by eapply lookup_lt_Some.
    + specialize (Hspec i L Dir).
      rewrite !list_lookup_insert_ne in Hspec by done.
      specialize (Hspec Hi Hd).
      revert Hspec. case_decide; intros Hspec.
      * rewrite decide_True by lia. exact Hspec.
      * rewrite decide_False by lia. exact Hspec.
Qed.

Lemma move_light_in_volume (L : LightAttribs) (Dir : float3) :
  Light.in_volume GridDim (float3_add (Location L) (float3_scale Dir fElapsedTime))
  = true →
  Location (move L Dir).1 = float3_add (Location L) (float3_scale Dir fElapsedTime)
  ∧ (move L Dir).2 = Dir.
Proof.
  unfold Light.in_volume, Light.move_light.
  intros [[Hx Hy]%andb_true_iff Hz]%andb_true_iff.
  rewrite (ClampCoordinate_within _ _ _ _ Hx), (ClampCoordinate_within _ _ _ _ Hy),
    (ClampCoordinate_within _ _ _ _ Hz). simpl.
  split; [reflexivity|]. by destruct Dir as [dx dy dz].
Qed.

End LightFacts.

(** After 16 seconds the same light has crossed the boundary at 7 by one
    unit: it is back at x = 6 and moves the other way. *)
Example lights_bounce_back :
  Light.UpdateLights 7 (float_of_int 16) sample_lights
  = Ok (mk_LightState
          [mk_LightAttribs (mk_float3 (float_of_int 6) fzero fzero)
                           (float_of_int 1)
                           (mk_float3 (float_of_int 1) (float_of_int 1) (float_of_int 1))]
          [mk_float3 (fneg (float_lit 1 (-1))) fzero fzero]
          1).
Proof. vm_compute. reflexivity. Qed.

(** C5, as stated, fails: after 64 seconds the light that left the origin
    along x at a half per second has been moved to x = 32, beyond
    [GridDim] = 7, and reflected once, to x = 32 - (32 - 7) * 2 = -18,
    outside the volume. *)
Lemma UpdateLights_escapes :
  ¬ lights_stay_in_volume 7 (float_of_int 64) sample_lights.
Proof.
  intros Hstay.
  assert (Hu : Light.UpdateLights 7 (float_of_int 64) sample_lights
               = Ok (mk_LightState
                       [mk_LightAttribs
                          (mk_float3 (float_of_int (-18)) fzero fzero)
                          (float_of_int 1)
                          (mk_float3 (float_of_int 1) (float_of_int 1) (float_of_int 1))]
                       [mk_float3 (fneg (float_lit 1 (-1))) fzero fzero]
                       1))
    by (vm_compute; reflexivity).
  specialize (Hstay _ Hu _ (list_elem_of_here _ _)).
  vm_compute in Hstay. discriminate Hstay.
Qed.

(** Whatever [GridDim] is between 0 and 64, the same light is outside the
    volume after 1024 seconds. *)
Lemma lights_escape_any_grid (GridDim : Z) :
  0 ≤ GridDim ≤ 64 →
  ¬ lights_stay_in_volume GridDim (float_of_int 1024) sample_lights.
Proof.
  intros Hg Hstay.
  assert (Hall : forallb (λ G, some_light_outside G (float_of_int 1024) sample_lights)
                         (map Z.of_nat (seq 0 65)) = true)
    by (vm_compute; reflexivity).
  rewrite forallb_forall in Hall.
  assert (Hout : some_light_outside GridDim (float_of_int 1024) sample_lights = true).
  { apply Hall. rewrite <- (Z2Nat.id GridDim) by lia.
    apply in_map, in_seq. lia. }
  unfold some_light_outside in Hout.
  destruct (Light.UpdateLights GridDim (float_of_int 1024) sample_lights)
    as [st'|] eqn:Hu; [|discriminate].
  apply negb_true_iff in Hout.
  assert (Hin : forallb (λ L, Light.in_volume GridDim (Location L)) (m_Lights st') = true).
  { apply forallb_forall. intros L HL. apply (Hstay st' Hu).
    by apply list_elem_of_In. }
  congruence.
Qed.

(** ** Without rounding *)

(** Over the rationals one reflection brings a coordinate back between the
    bounds exactly when it lies beyond a bound by no more than the width
    [Max - Min]. *)
Lemma ClampCoordinate_exact_inside (Coord Dir Min Max : Q) :
  (Min <= Max)%Q →
  (Min - (Max - Min) <= Coord)%Q → (Coord <= Max + (Max - Min))%Q →
  (Min <= (Light.ClampCoordinate_exact Coord Dir Min Max).1)%Q
  ∧ ((Light.ClampCoordinate_exact Coord Dir Min Max).1 <= Max)%Q.
Proof.
  intros Hmm Hlo Hhi. unfold Light.ClampCoordinate_exact.
  destruct (Qlt_le_dec Coord Min); [|destruct (Qlt_le_dec Max Coord)]; simpl; lra.
Qed.

Lemma ClampCoordinate_exact_outside (Coord Dir Min Max : Q) :
  (Min <= Max)%Q →
  (Coord < Min - (Max - Min) →
   Max < (Light.ClampCoordinate_exact Coord Dir Min Max).1)%Q
  ∧ (Max + (Max - Min) < Coord →
     (Light.ClampCoordinate_exact Coord Dir Min Max).1 < Min)%Q.
Proof.
  intros Hmm. unfold Light.ClampCoordinate_exact.
  split; intros H;
    (destruct (Qlt_le_dec Coord Min); [|destruct (Qlt_le_dec Max Coord)];
     simpl; lra).
Qed.

(** * Further properties *)

(** ** addActor and removeActor *)

Lemma removeActor_emplace_back (a : ActorId) (l : list ActorId) (w : World)
    (tr : list Event) :
  TestScene.removeActor a (mk_Scene (emplace_back a l) w tr) = mk_Scene l w tr.
Proof.
  unfold emplace_back. destruct (decide (a ∈ l)) as [Hin|Hn].
  - destruct (first_occurrence a l Hin) as (l1 & l2 & -> & Hn).
    rewrite <- app_assoc. simpl.
    rewrite removeActor_at by done. by rewrite moved_last_snoc.
  - rewrite removeActor_at by done. unfold moved_last. simpl.
    by rewrite app_nil_r.
Qed.

(** X1. [addActor a] on a live pointer returns, with [a] appended to the
    vector and [Initialize] called on it; a [removeActor a] after it gives
    back the vector as it was before, element for element, whether or not
    [a] was already in it. *)
Theorem addActor_removeActor (a : ActorId) (s : Scene) :
  present (world s) a →
  ∃ s1, TestScene.addActor a s = Ok s1
    ∧ actors s1 = actors s ++ [a]
    ∧ trace s1 = trace s ++ [EvActorInitialize a]
    ∧ world s1 = world s
    ∧ actors (TestScene.removeActor a s1) = actors s
    ∧ world (TestScene.removeActor a s1) = world s.
Proof.
  intros (act & Hd & _)%present_deref. unfold TestScene.addActor. simpl.
  rewrite Hd. cbn [bind]. eexists. split; [done|]. simpl.
  unfold emit. simpl. rewrite removeActor_emplace_back. done.
Qed.

Lemma addActor_removeActor_witness :
  ∃ s1, TestScene.addActor helmet1 sample_scene = Ok s1
    ∧ actors s1 = [helmet1; animPeople1; helmet1]
    ∧ actors (TestScene.removeActor helmet1 s1) = [helmet1; animPeople1].
Proof.
  destruct (addActor_removeActor helmet1 sample_scene) as (s1 & H1 & H2 & _ & _ & H3 & _).
  { eexists. reflexivity. }
  exists s1. exact (conj H1 (conj H2 H3)).
Defined.

(** X2. [removeActor a] keeps every other element of the vector and adds
    none; on a vector without duplicates the result has no duplicates and
    no longer holds [a]. *)
Theorem removeActor_members (a : ActorId) (s : Scene) :
  (∀ b, b ≠ a → b ∈ actors (TestScene.removeActor a s) ↔ b ∈ actors s)
  ∧ (NoDup (actors s) →
     NoDup (actors (TestScene.removeActor a s))
     ∧ a ∉ actors (TestScene.removeActor a s)).
Proof.
  destruct s as [l w tr]. cbn [actors].
  destruct (decide (a ∈ l)) as [Hin|Hn].
  - destruct (first_occurrence a l Hin) as (l1 & l2 & -> & Hn1).
    rewrite removeActor_at by done. cbn [actors].
    assert (Hp : (l1 ++ moved_last l2) ≡ₚ (l1 ++ l2)) by by rewrite moved_last_perm.
    split.
    + intros b Hb. rewrite Hp, !elem_of_app, elem_of_cons. tauto.
    + intros Hnd. rewrite Hp.
      apply NoDup_app in Hnd as (Hnd1 & Hnd12 & Hnd2).
      apply NoDup_cons in Hnd2 as [Ha2 Hnd2].
      split.
      * apply NoDup_app. split; [done|]. split; [|done].
        intros b Hb1 Hb2. apply (Hnd12 b Hb1). by right.
      * rewrite elem_of_app. tauto.
  - rewrite removeActor_not_found by done. cbn [actors]. split; [done|].
    by intros Hnd.
Qed.

Lemma removeActor_members_witness :
  NoDup (actors sample_scene)
  ∧ NoDup (actors (TestScene.removeActor helmet1 sample_scene))
  ∧ (helmet1 ∉ actors (TestScene.removeActor helmet1 sample_scene)).
Proof.
  assert (Hnd : NoDup (actors sample_scene)).
  { apply NoDup_ListNoDup. simpl. repeat constructor; simpl;
      unfold helmet1, animPeople1; intuition discriminate. }
  split; [exact Hnd|].
  exact (proj2 (removeActor_members helmet1 sample_scene) Hnd).
Defined.

(** ** Render *)

Lemma render_actors_present (l : list ActorId) (s s' : Scene) :
  TestScene.render_actors l s = Ok s' → Forall (present (world s)) l.
Proof.
  revert s. induction l as [|a l IH]; intros s; simpl; [by constructor|].
  destruct (getState a (world s)) as [st|] eqn:Hst; cbn [bind]; [|discriminate].
  intros Hr. apply IH in Hr. constructor.
  - apply getState_state_of in Hst. unfold state_of in Hst. unfold present.
    destruct (heap (world s) !! a); [by eexists|discriminate].
  - by destruct (decide (st = Active)).
Qed.

(** X3. [Render] returns exactly when every pointer of [actors] is live;
    it then leaves the vector and the world (actors, bodies, log) as they
    were, so that a second [Render] makes the same calls as the first. *)
Theorem Render_returns_iff (s : Scene) :
  ((∃ s', TestScene.Render s = Ok s') ↔ Forall (present (world s)) (actors s))
  ∧ (∀ s', TestScene.Render s = Ok s' →
       actors s' = actors s ∧ world s' = world s
       ∧ ∃ calls, trace s' = trace s ++ calls
                  ∧ ∃ s'', TestScene.Render s' = Ok s''
                           ∧ trace s'' = trace s' ++ calls).
Proof.
  split.
  - split.
    + intros [s' Hs']. unfold TestScene.Render in Hs'.
      by apply render_actors_present in Hs'.
    + intros Hall. by apply render_actors_total.
  - intros s' Hs'. pose proof Hs' as Hr. unfold TestScene.Render in Hr.
    pose proof (render_actors_present _ _ _ Hr) as Hall.
    apply render_actors_Ok in Hr as (Ha & Hw & Ht). simpl in *.
    split; [done|]. split; [done|].
    exists ([EvSetRenderTargets; EvClearRenderTarget; EvClearDepthStencil;
             EvEnvMapRender]
            ++ map EvRenderActor (filter (is_active (world s)) (actors s))).
    split; [by rewrite Ht, <- !app_assoc|].
    destruct (render_actors_total (actors s')
                (emit EvEnvMapRender (emit EvClearDepthStencil
                   (emit EvClearRenderTarget (emit EvSetRenderTargets s')))))
      as [s'' Hs'']; [simpl; by rewrite Ha, Hw|].
    exists s''. split; [done|].
    apply render_actors_Ok in Hs'' as (_ & _ & Ht''). simpl in Ht''.
    by rewrite Ht'', Ha, Hw, <- !app_assoc.
Qed.

Lemma Render_returns_iff_witness :
  ∃ s', TestScene.Render sample_scene = Ok s' ∧ world s' = world sample_scene.
Proof.
  destruct (Render_returns_iff sample_scene) as [[_ Hret] Hframe].
  destruct Hret as [s' Hs'].
  { exact (proj1 (sample_scene_updatable no_key)). }
  exists s'. split; [exact Hs'|]. exact (proj1 (proj2 (Hframe s' Hs'))).
Defined.

(** ** Update *)

Section UpdateFacts.
Variable AU : ActorId -> double -> double -> World -> World.
Variable PU : World -> World.

Lemma animate_present (l : list ActorId) ct et (s s' : Scene) :
  (∀ a, creates_no_actor (AU a ct et)) →
  TestScene.animate AU l ct et s = Ok s' → Forall (present (world s)) l.
Proof.
  intros HAU. revert s. induction l as [|a l IH]; intros s; simpl; [by constructor|].
  destruct (deref_actor a (world s)) as [act|] eqn:Hd; cbn [bind]; [|discriminate].
  intros Hr. apply IH in Hr. simpl in Hr. constructor.
  - apply deref_present in Hd. by eexists.
  - eapply Forall_impl; [exact Hr|]. intros b Hb. by eapply HAU.
Qed.

Lemma animated_states ct et (l : list ActorId) (w : World) (a : ActorId) :
  (∀ b, preserves_states (AU b ct et)) →
  state_of (animated AU ct et l w) a = state_of w a.
Proof.
  intros HAU. revert w. induction l as [|b l IH]; intros w; [done|].
  simpl. fold (animated AU ct et l (AU b ct et w)). by rewrite IH, HAU.
Qed.

(** X4. On an empty vector [Update] with [MoveBackward] up returns, having
    run the physics update only; with [MoveBackward] down it takes
    [back()] of the empty vector, which is undefined. *)
Theorem Update_empty keys ct et (w : World) (tr : list Event) :
  TestScene.Update AU PU keys ct et (mk_Scene [] w tr)
  = if keys MoveBackward then Fault EmptyBack
    else Ok (mk_Scene [] (PU w)
               (tr ++ [EvSampleBaseUpdate; EvPhysicsUpdate; EvCameraUpdate])).
Proof.
  unfold TestScene.Update. simpl. destruct (keys MoveBackward); [done|].
  simpl. unfold with_world, emit. simpl. by rewrite <- !app_assoc.
Qed.

(** X5. When [Actor::Update] and [ReactPhysic::Update] neither free nor
    create actors, [Update] returns exactly on the scenes whose pointers are
    all live and whose vector is not empty while [MoveBackward] is down. *)
Theorem Update_returns_iff keys ct et (s : Scene) :
  (∀ a, preserves_actors (AU a ct et)) → preserves_actors PU →
  (∀ a, creates_no_actor (AU a ct et)) → creates_no_actor PU →
  (∃ s', TestScene.Update AU PU keys ct et s = Ok s') ↔ updatable keys s.
Proof.
  intros HAU HPU HAU' HPU'. split; [|by apply Update_total].
  intros [s' Hs']. split.
  - unfold TestScene.Update in Hs'. simpl in Hs'.
    destruct (TestScene.animate _ _ _ _ _) as [s1|] eqn:Han;
      cbn [bind] in Hs'; [|discriminate].
    apply animate_present in Han; [|done]. simpl in Han.
    eapply Forall_impl; [exact Han|]. intros b Hb. by apply HPU'.
  - intros Hk. apply Update_Ok in Hs' as (_ & _ & Hw). rewrite Hk in Hw.
    destruct Hw as (a & Hlast & _). intros Hnil. by rewrite Hnil in Hlast.
Qed.

(** Every pointer is still live after [Update]. *)
Lemma Update_present keys ct et (s s' : Scene) :
  (∀ a, preserves_actors (AU a ct et)) → preserves_actors PU →
  Forall (present (world s)) (actors s) →
  TestScene.Update AU PU keys ct et s = Ok s' →
  Forall (present (world s')) (actors s').
Proof.
  intros HAU HPU Hall Hs'. apply Update_Ok in Hs' as (Ha & _ & Hw).
  rewrite Ha. eapply Forall_impl; [exact Hall|]. intros b Hb.
  assert (Hb1 : present (animated AU ct et (actors s) (PU (world s))) b).
  { apply animated_present; [done|]. by apply HPU. }
  destruct (keys MoveBackward).
  - destruct Hw as (a & _ & Hset). by eapply setState_present.
  - by rewrite Hw.
Qed.

(** X6. No frame adds or removes an actor: along a run the vector of every
    scene is the vector of the first. *)
Theorem run_actors_constant (s0 : Scene) (r : list Scene) :
  run AU PU (s0 :: r) → Forall (λ s, actors s = actors s0) r.
Proof.
  revert s0. induction r as [|s1 r IH]; intros s0 Hrun; [by constructor|].
  inversion Hrun as [|? ? ? (keys & ct & et & Hstep) Hrun']; subst.
  apply Update_Ok in Hstep as (Ha & _).
  constructor; [done|]. rewrite <- Ha. by apply IH.
Qed.

(** X7. When [Actor::Update] and [ReactPhysic::Update] change no state,
    [MoveBackward] only ever kills the last element of the vector: along a
    run every actor that is not the last element of the first scene keeps
    the state it had there. *)
Theorem run_kills_last_only (s0 : Scene) (r : list Scene) (a : ActorId) :
  (∀ b ct et, preserves_states (AU b ct et)) → preserves_states PU →
  run AU PU (s0 :: r) → last (actors s0) ≠ Some a →
  Forall (λ s, state_of (world s) a = state_of (world s0) a) r.
Proof.
  intros HAU HPU. revert s0. induction r as [|s1 r IH]; intros s0 Hrun Hlast;
    [by constructor|].
  inversion Hrun as [|? ? ? (keys & ct & et & Hstep) Hrun']; subst.
  apply Update_Ok in Hstep as (Ha & _ & Hw).
  assert (H1 : state_of (world s1) a = state_of (world s0) a).
  { assert (Han : state_of (animated AU ct et (actors s0) (PU (world s0))) a
                  = state_of (world s0) a).
    { rewrite animated_states by done. apply HPU. }
    destruct (keys MoveBackward).
    - destruct Hw as (b & Hb & Hset).
      rewrite (setState_state_of _ _ b a Dead Hset).
      rewrite decide_False by congruence. done.
    - by rewrite Hw. }
  constructor; [done|]. rewrite <- H1. apply IH; [done|]. by rewrite Ha.
Qed.

(** X8. The actor [Update] kills is not drawn by the [Render] that follows:
    after an [Update] with [MoveBackward] down, [Render] returns and makes
    no [RenderActor] call on the last element of the vector. *)
Theorem Update_then_Render keys ct et (s : Scene) :
  (∀ a, preserves_actors (AU a ct et)) → preserves_actors PU →
  updatable keys s → keys MoveBackward = true →
  ∃ s1 s2 a calls,
    TestScene.Update AU PU keys ct et s = Ok s1
    ∧ TestScene.Render s1 = Ok s2
    ∧ last (actors s) = Some a
    ∧ trace s2 = trace s1 ++ calls
    ∧ EvRenderActor a ∉ calls.
Proof.
  intros HAU HPU Hup Hk.
  destruct (Update_total AU PU keys ct et s HAU HPU Hup) as [s1 Hs1].
  pose proof (Update_present keys ct et s s1 HAU HPU (proj1 Hup) Hs1) as Hall1.
  pose proof Hs1 as (Ha & _ & Hw)%Update_Ok. rewrite Hk in Hw.
  destruct Hw as (a & Hlast & Hset).
  destruct (render_actors_total (actors s1)
              (emit EvEnvMapRender (emit EvClearDepthStencil
                 (emit EvClearRenderTarget (emit EvSetRenderTargets s1)))))
    as [s2 Hs2]; [done|].
  exists s1, s2, a.
  exists ([EvSetRenderTargets; EvClearRenderTarget; EvClearDepthStencil;
           EvEnvMapRender]
          ++ map EvRenderActor (filter (is_active (world s1)) (actors s1))).
  split; [done|]. split; [done|]. split; [done|].
  apply render_actors_Ok in Hs2 as (_ & _ & Ht). simpl in Ht.
  split; [by rewrite Ht, <- !app_assoc|].
  intros [Hin|Hin]%elem_of_app.
  - repeat (apply elem_of_cons in Hin as [Hin|Hin]; [discriminate|]).
    by apply elem_of_nil in Hin.
  - apply list_elem_of_fmap in Hin as (b & [= <-] & Hb).
    apply list_elem_of_filter in Hb as [Hact _].
    unfold is_active in Hact.
    rewrite (setState_state_of _ _ a a Dead Hset) in Hact.
    rewrite decide_True in Hact by done. discriminate.
Qed.

(** X9. An actor added with [addActor] is the one the next [Update] with
    [MoveBackward] down kills, and it stays in the vector. *)
Theorem addActor_then_Update keys ct et (a : ActorId) (s : Scene) :
  (∀ b, preserves_actors (AU b ct et)) → preserves_actors PU →
  Forall (present (world s)) (actors s) → present (world s) a →
  keys MoveBackward = true →
  ∃ s1 s2, TestScene.addActor a s = Ok s1
    ∧ TestScene.Update AU PU keys ct et s1 = Ok s2
    ∧ actors s2 = actors s ++ [a]
    ∧ is_dead (world s2) a.
Proof.
  intros HAU HPU Hall Ha Hk.
  destruct (present_deref _ _ Ha) as (act & Hd & _).
  unfold TestScene.addActor. simpl. rewrite Hd. cbn [bind].
  set (s1 := emit (EvActorInitialize a)
               (mk_Scene (emplace_back a (actors s)) (world s) (trace s))).
  assert (Hup : updatable keys s1).
  { split.
    - simpl. unfold emplace_back. apply Forall_app. split; [done|].
      by repeat constructor.
    - intros _. simpl. unfold emplace_back. by destruct (actors s). }
  destruct (Update_total AU PU keys ct et s1 HAU HPU Hup) as [s2 Hs2].
  exists s1, s2. split; [done|]. split; [done|].
  apply Update_Ok in Hs2 as (Ha2 & _ & Hw). rewrite Hk in Hw.
  destruct Hw as (b & Hlast & Hset). simpl in Ha2, Hlast.
  unfold emplace_back in *. rewrite last_snoc in Hlast. injection Hlast as <-.
  split; [done|].
  unfold is_dead. rewrite (setState_state_of _ _ a a Dead Hset).
  by rewrite decide_True.
Qed.

End UpdateFacts.

(** ** The example scene, again *)

Lemma sample_Actor_Update_creates (a : ActorId) (ct et : double) :
  creates_no_actor (sample_Actor_Update a ct et).
Proof. intros w b. unfold present. by rewrite sample_Actor_Update_heap. Qed.

Lemma sample_Actor_Update_states (a : ActorId) (ct et : double) :
  preserves_states (sample_Actor_Update a ct et).
Proof. intros w b. unfold state_of. by rewrite sample_Actor_Update_heap. Qed.

Lemma sample_ReactPhysic_Update_creates : creates_no_actor sample_ReactPhysic_Update.
Proof. by intros w b. Qed.

Lemma sample_ReactPhysic_Update_states : preserves_states sample_ReactPhysic_Update.
Proof. by intros w b. Qed.

Lemma sample_step :
  ∃ s1, TestScene.Update sample_Actor_Update sample_ReactPhysic_Update
          (key_down MoveBackward) fzero fzero sample_scene = Ok s1
        ∧ run sample_Actor_Update sample_ReactPhysic_Update [sample_scene; s1].
Proof.
  destruct (Update_total sample_Actor_Update sample_ReactPhysic_Update
              (key_down MoveBackward) fzero fzero sample_scene
              (λ a, sample_Actor_Update_actors a fzero fzero)
              sample_ReactPhysic_Update_actors
              (sample_scene_updatable (key_down MoveBackward))) as [s1 Hs1].
  exists s1. split; [done|].
  apply run_cons; [|apply run_one].
  by exists (key_down MoveBackward), fzero, fzero.
Qed.

Lemma Update_returns_iff_witness :
  ∃ s', TestScene.Update sample_Actor_Update sample_ReactPhysic_Update
          (key_down MoveBackward) fzero fzero sample_scene = Ok s'.
Proof.
  apply (Update_returns_iff sample_Actor_Update sample_ReactPhysic_Update
           (key_down MoveBackward) fzero fzero sample_scene
           (λ a, sample_Actor_Update_actors a fzero fzero)
           sample_ReactPhysic_Update_actors
           (λ a, sample_Actor_Update_creates a fzero fzero)
           sample_ReactPhysic_Update_creates).
  exact (sample_scene_updatable (key_down MoveBackward)).
Defined.

Lemma run_actors_constant_witness :
  ∃ s1, run sample_Actor_Update sample_ReactPhysic_Update [sample_scene; s1]
        ∧ actors s1 = [helmet1; animPeople1].
Proof.
  destruct sample_step as (s1 & _ & Hrun). exists s1. split; [exact Hrun|].
  pose proof (run_actors_constant sample_Actor_Update sample_ReactPhysic_Update
                sample_scene [s1] Hrun) as Hall.
  apply Forall_cons in Hall as [H1 _]. exact H1.
Defined.

Lemma run_kills_last_only_witness :
  ∃ s1, run sample_Actor_Update sample_ReactPhysic_Update [sample_scene; s1]
        ∧ state_of (world s1) helmet1 = Some Active.
Proof.
  destruct sample_step as (s1 & _ & Hrun). exists s1. split; [exact Hrun|].
  pose proof (run_kills_last_only sample_Actor_Update sample_ReactPhysic_Update
                sample_scene [s1] helmet1
                sample_Actor_Update_states sample_ReactPhysic_Update_states Hrun)
    as Hall.
  apply Forall_cons in Hall as [H1 _]; [exact H1|].
  simpl. unfold helmet1, animPeople1. discriminate.
Defined.

Lemma Update_then_Render_witness :
  ∃ s1 s2 calls,
    TestScene.Update sample_Actor_Update sample_ReactPhysic_Update
      (key_down MoveBackward) fzero fzero sample_scene = Ok s1
    ∧ TestScene.Render s1 = Ok s2
    ∧ trace s2 = trace s1 ++ calls
    ∧ (EvRenderActor animPeople1 ∉ calls).
Proof.
  destruct (Update_then_Render sample_Actor_Update sample_ReactPhysic_Update
              (key_down MoveBackward) fzero fzero sample_scene
              (λ a, sample_Actor_Update_actors a fzero fzero)
              sample_ReactPhysic_Update_actors
              (sample_scene_updatable (key_down MoveBackward)) eq_refl)
    as (s1 & s2 & a & calls & H1 & H2 & Hlast & Ht & Hn).
  exists s1, s2, calls. injection Hlast as <-.
  exact (conj H1 (conj H2 (conj Ht Hn))).
Defined.

Lemma addActor_then_Update_witness :
  ∃ s1 s2, TestScene.addActor helmet1 sample_scene = Ok s1
    ∧ TestScene.Update sample_Actor_Update sample_ReactPhysic_Update
        (key_down MoveBackward) fzero fzero s1 = Ok s2
    ∧ actors s2 = [helmet1; animPeople1; helmet1]
    ∧ is_dead (world s2) helmet1.
Proof.
  destruct (addActor_then_Update sample_Actor_Update sample_ReactPhysic_Update
              (key_down MoveBackward) fzero fzero helmet1 sample_scene
              (λ a, sample_Actor_Update_actors a fzero fzero)
              sample_ReactPhysic_Update_actors
              (proj1 (sample_scene_updatable no_key)))
    as (s1 & s2 & H1 & H2 & H3 & H4); [eexists; reflexivity | reflexivity |].
  exists s1, s2. exact (conj H1 (conj H2 (conj H3 H4))).
Defined.

(** ** RigidbodyComponent, further *)

Section RigidbodyMore.
Variable to_string : float -> string.

Abbreviation update_TR := (RigidbodyComponent_TownRunner.update to_string).
Abbreviation update_P4 := RigidbodyComponent_part004.update.

(** The two revisions of [update], case by case. *)
Lemma update_TR_cases (c : RigidbodyComponent) (w : World) :
  match _rigidBody c with
  | None => update_TR c w = Fault NullDereference
  | Some b =>
      match bodies w !! b, heap w !! owner c with
      | Some t, Some act => ∃ w', update_TR c w = Ok w'
      | _, _ => update_TR c w = Fault DanglingPointer
      end
  end.
Proof.
  unfold RigidbodyComponent_TownRunner.update. unfold_actor_ops.
  destruct (_rigidBody c) as [b|]; [|done].
  destruct (bodies w !! b) as [t|]; [|by destruct (heap w !! owner c)].
  destruct (heap w !! owner c) as [act|]; simpl; [|done].
  rewrite lookup_insert_eq. by eexists.
Qed.

Lemma update_P4_cases (c : RigidbodyComponent) (w : World) :
  match _rigidBody c with
  | None => update_P4 c w = Fault NullDereference
  | Some b =>
      match bodies w !! b, heap w !! owner c with
      | Some t, Some act => ∃ w', update_P4 c w = Ok w'
      | _, _ => update_P4 c w = Fault DanglingPointer
      end
  end.
Proof.
  unfold RigidbodyComponent_part004.update. unfold_actor_ops.
  destruct (_rigidBody c) as [b|]; [|done].
  destruct (bodies w !! b) as [t|]; [|by destruct (heap w !! owner c)].
  destruct (heap w !! owner c) as [act|]; simpl; [|done].
  by eexists.
Qed.

(** X10. The two revisions of [update] fail on the same inputs with the same
    fault: a null dereference for a null handle, a dangling pointer when
    the body or the owner is gone; both return exactly when the handle, the
    body and the owner are live. *)
Theorem update_same_faults (c : RigidbodyComponent) (w : World) :
  (∀ f, update_TR c w = Fault f ↔ update_P4 c w = Fault f)
  ∧ ((∃ w', update_P4 c w = Ok w')
     ↔ ∃ b, _rigidBody c = Some b ∧ is_Some (bodies w !! b) ∧ present w (owner c))
  ∧ (update_P4 c w = Fault NullDereference ↔ _rigidBody c = None).
Proof.
  pose proof (update_TR_cases c w) as HT. pose proof (update_P4_cases c w) as HP.
  unfold present.
  destruct (_rigidBody c) as [b|].
  - destruct (bodies w !! b) as [t|] eqn:Hb, (heap w !! owner c) as [act|] eqn:Ha.
    + destruct HT as [w1 HT]. destruct HP as [w2 HP]. rewrite HT, HP.
      split; [intros f; split; discriminate|].
      split; [|split; discriminate].
      split; [|by eexists]. intros _. exists b. rewrite Hb. by eauto.
    + rewrite HT, HP. split; [done|]. split; [|split; discriminate].
      split; [intros [? [=]]|]. intros (b' & _ & _ & Hs). by destruct Hs.
    + rewrite HT, HP. split; [done|]. split; [|split; discriminate].
      split; [intros [? [=]]|]. intros (b' & [= <-] & Hs & _).
      rewrite Hb in Hs. by destruct Hs.
    + rewrite HT, HP. split; [done|]. split; [|split; discriminate].
      split; [intros [? [=]]|]. intros (b' & _ & _ & Hs). by destruct Hs.
  - rewrite HT, HP. split; [done|]. split; [|done].
    split; [intros [? [=]]|]. by intros (b' & [=] & _).
Qed.

Lemma update_TR_heap (c : RigidbodyComponent) (w w' : World) :
  update_TR c w = Ok w' →
  ∃ b t act, _rigidBody c = Some b ∧ bodies w !! b = Some t
    ∧ heap w !! owner c = Some act.
Proof.
  pose proof (update_TR_cases c w) as HT. intros Hu.
  destruct (_rigidBody c) as [b|]; cbn iota in *;
    [|rewrite HT in Hu; discriminate].
  destruct (bodies w !! b) as [t|] eqn:Hb, (heap w !! owner c) as [act|] eqn:Ha;
    cbn iota in *; try (rewrite HT in Hu; discriminate). by exists b, t, act.
Qed.

Lemma update_P4_inv (c : RigidbodyComponent) (w w' : World) :
  update_P4 c w = Ok w' →
  ∃ b t act, _rigidBody c = Some b ∧ bodies w !! b = Some t
    ∧ heap w !! owner c = Some act.
Proof.
  pose proof (update_P4_cases c w) as HP. intros Hu.
  destruct (_rigidBody c) as [b|]; cbn iota in *;
    [|rewrite HP in Hu; discriminate].
  destruct (bodies w !! b) as [t|] eqn:Hb, (heap w !! owner c) as [act|] eqn:Ha;
    cbn iota in *; try (rewrite HP in Hu; discriminate). by exists b, t, act.
Qed.

(** X11. The part_004 [update] is idempotent: a second call right after a
    first one that returned returns the same world. *)
Theorem update_P4_idempotent (c : RigidbodyComponent) (w w1 : World) :
  update_P4 c w = Ok w1 → update_P4 c w1 = Ok w1.
Proof.
  intros Hu. destruct (update_P4_inv c w w1 Hu) as (b & t & act & Hrb & Hb & Ha).
  rewrite (update_part004_Ok c w b t act Hrb Hb Ha) in Hu. injection Hu as <-.
  rewrite (update_part004_Ok c _ b
             (mk_Transform (Vector3_of_float3 (position act)) (torientation t)) act);
    [|done|simpl; by rewrite lookup_insert_eq|done].
  simpl. by rewrite insert_insert_eq.
Qed.

(** X12. The TownRunner [update] is idempotent on the actors and the
    bodies but not on the log: every call appends one line, which names
    the owner and gives the position of its body, and each of [n] further
    calls appends the same line again. *)
Theorem update_TR_log_grows (c : RigidbodyComponent) (w w1 : World) (n : nat) :
  update_TR c w = Ok w1 →
  ∃ b t act,
    _rigidBody c = Some b ∧ bodies w !! b = Some t ∧ heap w !! owner c = Some act
    ∧ log w1 = log w ++ [update_message to_string (actorName act) (tposition t)]
    ∧ update_times update_TR n c w1
      = Ok (mk_World (heap w1) (bodies w1)
              (log w1 ++ replicate n
                           (update_message to_string (actorName act) (tposition t)))).
Proof.
  intros Hu. destruct (update_TR_heap c w w1 Hu) as (b & t & act & Hrb & Hb & Ha).
  rewrite (update_TR_Ok_message to_string c w b t act Hrb Hb Ha) in Hu.
  injection Hu as <-.
  exists b, t, act. split; [done|]. split; [done|]. split; [done|].
  split; [done|]. simpl.
  generalize (log w ++ [update_message to_string (actorName act) (tposition t)]).
  induction n as [|n IH]; intros lg; simpl.
  - by rewrite app_nil_r.
  - rewrite (update_TR_Ok_message to_string c _ b t
               (mk_Actor (float3_of_Vector3 (tposition t)) (state act) (actorName act)));
      [|done|done|simpl; by rewrite lookup_insert_eq].
    cbn [bind]. simpl. rewrite insert_insert_eq. rewrite IH.
    by rewrite <- app_assoc.
Qed.

(** X13. The two revisions undo each other's write: after the part_004
    [update] the TownRunner [update] returns and finds the actors as they
    were before the two calls; after the TownRunner [update] the part_004
    [update] returns and finds the bodies as they were. *)
Theorem update_round_trip (c : RigidbodyComponent) (w : World) :
  (∀ w1, update_P4 c w = Ok w1 →
     ∃ w2, update_TR c w1 = Ok w2 ∧ heap w2 = heap w ∧ bodies w2 = bodies w1)
  ∧ (∀ w1, update_TR c w = Ok w1 →
     ∃ w2, update_P4 c w1 = Ok w2 ∧ bodies w2 = bodies w ∧ heap w2 = heap w1).
Proof.
  split; intros w1 Hu.
  - destruct (update_P4_inv c w w1 Hu) as (b & t & act & Hrb & Hb & Ha).
    rewrite (update_part004_Ok c w b t act Hrb Hb Ha) in Hu. injection Hu as <-.
    destruct (update_TownRunner_Ok to_string c
                (mk_World (heap w)
                   (<[b := mk_Transform (Vector3_of_float3 (position act))
                              (torientation t)]> (bodies w)) (log w))
                b (mk_Transform (Vector3_of_float3 (position act)) (torientation t))
                act Hrb) as [message Hm];
      [simpl; by rewrite lookup_insert_eq|done|].
    eexists. split; [exact Hm|]. simpl. split; [|done].
    apply insert_id. rewrite Ha. by destruct act as [[px py pz] st nm].
  - destruct (update_TR_heap c w w1 Hu) as (b & t & act & Hrb & Hb & Ha).
    destruct (update_TownRunner_Ok to_string c w b t act Hrb Hb Ha) as [message Hm].
    rewrite Hu in Hm. injection Hm as ->.
    eexists. split.
    + apply (update_part004_Ok c _ b t
               (mk_Actor (float3_of_Vector3 (tposition t)) (state act) (actorName act)));
        [done|done|simpl; by rewrite lookup_insert_eq].
    + simpl. split; [|done].
      apply insert_id. rewrite Hb. by destruct t as [[tx ty tz] q].
Qed.

(** X14. The TownRunner [update] writes the owner's position and the log,
    nothing else: every actor keeps its state and its name, every other
    actor its position, no actor or body appears or disappears, and the
    bodies are untouched. *)
Theorem update_TR_frame (c : RigidbodyComponent) (w w' : World) :
  update_TR c w = Ok w' →
  bodies w' = bodies w
  ∧ dom (heap w') = dom (heap w)
  ∧ (∀ a, state <$> heap w' !! a = state <$> heap w !! a)
  ∧ (∀ a, actorName <$> heap w' !! a = actorName <$> heap w !! a)
  ∧ (∀ a, a ≠ owner c → heap w' !! a = heap w !! a).
Proof.
  intros Hu. destruct (update_TR_heap c w w' Hu) as (b & t & act & Hrb & Hb & Ha).
  destruct (update_TownRunner_Ok to_string c w b t act Hrb Hb Ha) as [message Hm].
  rewrite Hu in Hm. injection Hm as ->. simpl.
  split; [done|]. split.
  { rewrite dom_insert_L. apply subseteq_union_1_L, singleton_subseteq_l.
    by eapply elem_of_dom_2. }
  split; [|split].
  - intros a. destruct (decide (a = owner c)) as [->|Hne].
    + by rewrite lookup_insert_eq, Ha.
    + by rewrite lookup_insert_ne.
  - intros a. destruct (decide (a = owner c)) as [->|Hne].
    + by rewrite lookup_insert_eq, Ha.
    + by rewrite lookup_insert_ne.
  - intros a Hne. by rewrite lookup_insert_ne.
Qed.

Lemma createRigidBody_fresh (t : Transform) (w : World) :
  ((createRigidBody t w).1 ∉ dom (bodies w))
  ∧ bodies (createRigidBody t w).2 = <[(createRigidBody t w).1 := t]> (bodies w)
  ∧ heap (createRigidBody t w).2 = heap w
  ∧ log (createRigidBody t w).2 = log w.
Proof. unfold createRigidBody. simpl. split; [apply is_fresh|done]. Qed.

(** X15. The first [update] after construction with a physics world, on a
    live owner, always returns.  The part_004 revision overwrites the
    position given to the constructor with the owner's position and keeps
    the orientation given; the TownRunner revision moves the owner to the
    position given to the constructor (and logs it).  The body is a new
    one: the bodies that existed before the constructor are untouched. *)
Theorem make_world_then_update (defaultOrder : Z) (a : ActorId) (t : Transform)
    (w : World) (act : Actor) :
  heap w !! a = Some act →
  ∃ b, (b ∉ dom (bodies w))
    ∧ (RigidbodyComponent_part004.make_world defaultOrder a t w).1
      = mk_RigidbodyComponent a defaultOrder (Some b)
    ∧ (RigidbodyComponent_TownRunner.make_world defaultOrder a t w).1
      = mk_RigidbodyComponent a defaultOrder (Some b)
    ∧ update_P4 (RigidbodyComponent_part004.make_world defaultOrder a t w).1
                (RigidbodyComponent_part004.make_world defaultOrder a t w).2
      = Ok (mk_World (heap w)
              (<[b := mk_Transform (Vector3_of_float3 (position act))
                         (torientation t)]> (bodies w))
              (log w))
    ∧ update_TR (RigidbodyComponent_TownRunner.make_world defaultOrder a t w).1
                (RigidbodyComponent_TownRunner.make_world defaultOrder a t w).2
      = Ok (mk_World
              (<[a := mk_Actor (float3_of_Vector3 (tposition t)) (state act)
                        (actorName act)]> (heap w))
              (<[b := t]> (bodies w))
              (log w ++ [update_message to_string (actorName act) (tposition t)])).
Proof.
  intros Ha. destruct (createRigidBody_fresh t w) as (Hf & Hb & Hh & Hl).
  exists (createRigidBody t w).1. split; [done|].
  unfold RigidbodyComponent_part004.make_world,
    RigidbodyComponent_TownRunner.make_world.
  destruct (createRigidBody t w) as [b w0] eqn:Hc. simpl in *.
  split; [done|]. split; [done|]. split.
  - rewrite (update_part004_Ok _ w0 b t act); [|done|by rewrite Hb, lookup_insert_eq|
                                                by rewrite Hh].
    by rewrite Hh, Hb, Hl, insert_insert_eq.
  - rewrite (update_TR_Ok_message to_string _ w0 b t act); [|done|by rewrite Hb, lookup_insert_eq|
                                                  by rewrite Hh].
    simpl. by rewrite Hh, Hb, Hl.
Qed.

End RigidbodyMore.

Lemma update_P4_idempotent_witness :
  ∃ w1, RigidbodyComponent_part004.update helmetRigidbody moved_world = Ok w1
        ∧ RigidbodyComponent_part004.update helmetRigidbody w1 = Ok w1.
Proof.
  assert (Hu := update_part004_Ok helmetRigidbody moved_world 1%positive
                  helmetTransform
                  (mk_Actor (mk_float3 (float_of_int 1) fzero fzero) Active "Helmet")
                  eq_refl eq_refl eq_refl).
  eexists. split; [exact Hu|].
  exact (update_P4_idempotent helmetRigidbody moved_world _ Hu).
Defined.

Lemma update_TR_log_grows_witness :
  ∃ w1 w3,
    RigidbodyComponent_TownRunner.update sample_to_string helmetRigidbody moved_world
    = Ok w1
    ∧ update_times (RigidbodyComponent_TownRunner.update sample_to_string) 2
        helmetRigidbody w1 = Ok w3
    ∧ log w3 = log w1
               ++ replicate 2
                    (update_message sample_to_string "Helmet"
                       (tposition helmetTransform)).
Proof.
  assert (Hu := update_TR_Ok_message sample_to_string helmetRigidbody moved_world
                  1%positive helmetTransform
                  (mk_Actor (mk_float3 (float_of_int 1) fzero fzero) Active "Helmet")
                  eq_refl eq_refl eq_refl).
  destruct (update_TR_log_grows sample_to_string helmetRigidbody moved_world _ 2 Hu)
    as (b & t & act & Hrb & Hb & Ha & _ & Hn).
  assert (Hb1 : b = 1%positive) by (injection Hrb as <-; reflexivity).
  rewrite Hb1 in Hb.
  assert (Ht : t = helmetTransform) by (injection Hb as <-; reflexivity).
  assert (Hact : act = mk_Actor (mk_float3 (float_of_int 1) fzero fzero) Active "Helmet")
    by (injection Ha as <-; reflexivity).
  rewrite Ht, Hact in Hn.
  eexists _, _. split; [exact Hu|]. split; [exact Hn|]. reflexivity.
Defined.

Lemma update_round_trip_witness :
  ∃ w1 w2,
    RigidbodyComponent_part004.update helmetRigidbody moved_world = Ok w1
    ∧ RigidbodyComponent_TownRunner.update sample_to_string helmetRigidbody w1 = Ok w2
    ∧ heap w2 = heap moved_world.
Proof.
  assert (Hu := update_part004_Ok helmetRigidbody moved_world 1%positive
                  helmetTransform
                  (mk_Actor (mk_float3 (float_of_int 1) fzero fzero) Active "Helmet")
                  eq_refl eq_refl eq_refl).
  destruct (proj1 (update_round_trip sample_to_string helmetRigidbody moved_world)
              _ Hu) as (w2 & H2 & Hh & _).
  eexists _, w2. exact (conj Hu (conj H2 Hh)).
Defined.

Lemma update_TR_frame_witness :
  ∃ w1,
    RigidbodyComponent_TownRunner.update sample_to_string helmetRigidbody moved_world
    = Ok w1
    ∧ bodies w1 = bodies moved_world
    ∧ heap w1 !! animPeople1 = heap moved_world !! animPeople1.
Proof.
  assert (Hu := update_TR_Ok_message sample_to_string helmetRigidbody moved_world
                  1%positive helmetTransform
                  (mk_Actor (mk_float3 (float_of_int 1) fzero fzero) Active "Helmet")
                  eq_refl eq_refl eq_refl).
  destruct (update_TR_frame sample_to_string helmetRigidbody moved_world _ Hu)
    as (Hb & _ & _ & _ & Ho).
  eexists. split; [exact Hu|]. split; [exact Hb|].
  apply Ho. unfold animPeople1. simpl. discriminate.
Defined.

Lemma make_world_then_update_witness :
  ∃ b w1,
    RigidbodyComponent_part004.update helmetRigidbody sample_world = Ok w1
    ∧ _rigidBody helmetRigidbody = Some b
    ∧ heap w1 = sample_heap.
Proof.
  destruct (make_world_then_update sample_to_string 100 helmet1 helmetTransform
              (mk_World sample_heap ∅ [])
              (mk_Actor (mk_float3 fzero fzero fzero) Active "Helmet") eq_refl)
    as (b & _ & Hc & _ & Hu & _).
  eexists b, _. split; [exact Hu|]. split; [|reflexivity].
  unfold helmetRigidbody. by rewrite Hc.
Defined.

(** ** binary32, further *)

Lemma valid_binary_finite (s : bool) (m : positive) (e : Z) :
  valid_binary prec emax (S754_finite s m e) = true →
  fexp prec emax (Z.pos (digits2_pos m) + e) = e ∧ e ≤ emax - prec.
Proof.
  simpl. unfold bounded, canonical_mantissa.
  intros [H1 H2]%andb_true_iff. split; [by apply Z.eqb_eq|by apply Z.leb_le].
Qed.

Lemma fmul_minus_one (d : float) :
  valid_binary prec emax d = true →
  fmul d (float_of_int (-1)) = fneg d.
Proof.
  intros Hv. unfold fmul, float_of_int.
  change (binary_normalize prec emax (-1) 0 false) with (S754_finite true 8388608 (-23)).
  destruct d as [s|s| |s m e]; simpl; try done; try (by rewrite xorb_true_r).
  apply valid_binary_finite in Hv as [Hc He].
  rewrite Pos.mul_comm.
  change (8388608 * m)%positive
    with (m~0~0~0~0~0~0~0~0~0~0~0~0~0~0~0~0~0~0~0~0~0~0~0)%positive.
  unfold binary_round_aux, shr_fexp.
  assert (Hd : Zdigits2 (Z.pos (m~0~0~0~0~0~0~0~0~0~0~0~0~0~0~0~0~0~0~0~0~0~0~0))
               = Z.pos (digits2_pos m) + 23).
  { simpl. lia. }
  rewrite Hd.
  replace (Z.pos (digits2_pos m) + 23 + (e + -23)) with (Z.pos (digits2_pos m) + e)
    by lia.
  rewrite Hc. replace (e - (e + -23)) with 23 by lia.
  cbn [shr shr_record_of_loc].
  assert (Hit : SpecFloat.iter_pos shr_1 23
                  (Build_shr_record
                     (Z.pos (m~0~0~0~0~0~0~0~0~0~0~0~0~0~0~0~0~0~0~0~0~0~0~0))
                     false false)
                = Build_shr_record (Z.pos m) false false) by reflexivity.
  rewrite Hit. cbn [shr_m loc_of_shr_record round_nearest_even].
  replace (e + -23 + 23) with e by lia.
  cbn [Zdigits2]. rewrite Hc, Z.sub_diag. cbn [shr shr_m].
  apply Z.leb_le in He. rewrite He. by rewrite xorb_true_r.
Qed.

Lemma fneg_valid (d : float) : valid_float d → valid_float (fneg d).
Proof. unfold valid_float. by destruct d. Qed.

Lemma SFabs_fneg (d : float) : SFabs (fneg d) = SFabs d.
Proof. by destruct d. Qed.

Lemma fadd_nan_l (v : float) : fadd S754_nan v = S754_nan.
Proof. done. Qed.

Lemma fadd_nan_r (v : float) : fadd v S754_nan = S754_nan.
Proof. by destruct v. Qed.

Lemma fmul_nan_r (v : float) : fmul v S754_nan = S754_nan.
Proof. by destruct v. Qed.

Lemma within_nan (Min Max : float) : within Min Max S754_nan = false.
Proof. unfold within, fle, SFleb. by destruct Min. Qed.

Lemma ClampCoordinate_nan (Dir Min Max : float) :
  Light.ClampCoordinate S754_nan Dir Min Max = (S754_nan, Dir).
Proof.
  unfold Light.ClampCoordinate, flt, SFltb. simpl. by destruct Max.
Qed.

Lemma ClampCoordinate_dir (Coord Dir Min Max : float) :
  valid_float Dir →
  (Light.ClampCoordinate Coord Dir Min Max).2 = Dir
  ∨ (Light.ClampCoordinate Coord Dir Min Max).2 = fneg Dir.
Proof.
  intros Hv. unfold Light.ClampCoordinate.
  destruct (flt Coord Min); [right; by apply fmul_minus_one|].
  destruct (flt Max Coord); [right; by apply fmul_minus_one|by left].
Qed.

(** ** UpdateLights, further *)

Section LightsMore.
Variable GridDim : Z.

Abbreviation update_light := (Light.update_light GridDim).
Abbreviation update_lights_from := (Light.update_lights_from GridDim).
Abbreviation move_light := (Light.move_light GridDim).

(** One turn of the loop. *)
Lemma update_light_Ok t (i : nat) (st st' : LightState) :
  update_light t i st = Ok st' →
  ∃ L Dir, m_Lights st !! i = Some L ∧ m_LightMoveDirs st !! i = Some Dir
    ∧ st' = mk_LightState (<[i := (move_light t L Dir).1]> (m_Lights st))
                          (<[i := (move_light t L Dir).2]> (m_LightMoveDirs st))
                          (m_LightsCount st).
Proof.
  unfold Light.update_light.
  destruct (m_Lights st !! i) as [L|]; cbn [from_option bind]; [|discriminate].
  destruct (m_LightMoveDirs st !! i) as [Dir|]; cbn [from_option bind]; [|discriminate].
  destruct (move_light t L Dir) as [L' Dir'] eqn:Hm. intros [= <-].
  exists L, Dir. by rewrite Hm.
Qed.

Lemma update_light_Fault t (i : nat) (st : LightState) f :
  update_light t i st = Fault f → f = OutOfRange.
Proof.
  unfold Light.update_light.
  destruct (m_Lights st !! i) as [L|]; cbn [from_option bind]; [|by intros [=]].
  destruct (m_LightMoveDirs st !! i) as [Dir|]; cbn [from_option bind];
    [|by intros [=]].
  by destruct (move_light t L Dir).
Qed.

Lemma move_light_Size_Color t (L : LightAttribs) (Dir : float3) :
  Size (move_light t L Dir).1 = Size L ∧ Color (move_light t L Dir).1 = Color L.
Proof.
  unfold Light.move_light.
  repeat (match goal with |- context [let '(_, _) := ?c in _] =>
            rewrite (surjective_pairing c) end).
  done.
Qed.

(** What the loop over the indices [l] leaves alone. *)
Lemma update_lights_from_frame t (l : list nat) (st st' : LightState) :
  update_lights_from t l st = Ok st' →
  length (m_Lights st') = length (m_Lights st)
  ∧ length (m_LightMoveDirs st') = length (m_LightMoveDirs st)
  ∧ m_LightsCount st' = m_LightsCount st
  ∧ (∀ i, Size <$> m_Lights st' !! i = Size <$> m_Lights st !! i)
  ∧ (∀ i, Color <$> m_Lights st' !! i = Color <$> m_Lights st !! i)
  ∧ (∀ i, i ∉ l → m_Lights st' !! i = m_Lights st !! i
                  ∧ m_LightMoveDirs st' !! i = m_LightMoveDirs st !! i).
Proof.
  revert st. induction l as [|k l IH]; intros st; simpl.
  - by intros [= <-].
  - destruct (update_light t k st) as [st1|] eqn:H1; cbn [bind]; [|discriminate].
    intros Hr. apply IH in Hr as (HL & HD & HC & HS & HCo & Hout).
    apply update_light_Ok in H1 as (L & Dir & HLk & HDk & ->).
    cbn [m_Lights m_LightMoveDirs m_LightsCount] in *.
    rewrite length_insert in HL. rewrite length_insert in HD.
    destruct (move_light_Size_Color t L Dir) as [HSz HCl].
    split; [done|]. split; [done|]. split; [done|].
    split; [|split].
    + intros i. rewrite HS. destruct (decide (i = k)) as [->|Hne].
      * rewrite list_lookup_insert_eq by by eapply lookup_lt_Some.
        rewrite HLk. simpl. by rewrite HSz.
      * by rewrite list_lookup_insert_ne.
    + intros i. rewrite HCo. destruct (decide (i = k)) as [->|Hne].
      * rewrite list_lookup_insert_eq by by eapply lookup_lt_Some.
        rewrite HLk. simpl. by rewrite HCl.
      * by rewrite list_lookup_insert_ne.
    + intros i Hi. apply not_elem_of_cons in Hi as [Hne Hi].
      destruct (Hout i Hi) as [-> ->].
      by rewrite !list_lookup_insert_ne.
Qed.

Lemma update_lights_from_Fault t (l : list nat) (st : LightState) f :
  update_lights_from t l st = Fault f → f = OutOfRange.
Proof.
  revert st. induction l as [|k l IH]; intros st; simpl; [discriminate|].
  destruct (update_light t k st) as [st1|] eqn:H1; cbn [bind].
  - apply IH.
  - intros [= <-]. by eapply update_light_Fault.
Qed.

Lemma update_lights_from_seq_bound t (n k : nat) (st st' : LightState) :
  update_lights_from t (seq k n) st = Ok st' →
  n = 0%nat ∨ ((k + n ≤ length (m_Lights st))%nat
               ∧ (k + n ≤ length (m_LightMoveDirs st))%nat).
Proof.
  revert k st. induction n as [|n IH]; intros k st; [by left|]. simpl.
  destruct (update_light t k st) as [st1|] eqn:H1; cbn [bind]; [|discriminate].
  intros Hr. right.
  apply update_light_Ok in H1 as (L & Dir & HLk & HDk & ->).
  apply lookup_lt_Some in HLk, HDk.
  apply IH in Hr as [->|[H2 H3]]; [lia|].
  cbn [m_Lights m_LightMoveDirs] in H2, H3.
  rewrite length_insert in H2. rewrite length_insert in H3. lia.
Qed.

Lemma UpdateLights_bound t (st st' : LightState) :
  Light.UpdateLights GridDim t st = Ok st' →
  (Z.to_nat (m_LightsCount st) ≤ length (m_Lights st))%nat
  ∧ (Z.to_nat (m_LightsCount st) ≤ length (m_LightMoveDirs st))%nat.
Proof.
  unfold Light.UpdateLights. intros Hst'.
  apply update_lights_from_seq_bound in Hst' as [H0|H]; [|done]. lia.
Qed.

Lemma UpdateLights_total t (st : LightState) :
  (Z.to_nat (m_LightsCount st) ≤ length (m_Lights st))%nat →
  (Z.to_nat (m_LightsCount st) ≤ length (m_LightMoveDirs st))%nat →
  ∃ st', Light.UpdateLights GridDim t st = Ok st'.
Proof.
  intros HL HD.
  destruct (update_lights_from_seq GridDim t (Z.to_nat (m_LightsCount st)) 0 st)
    as (st' & Hst' & _); [done..|].
  by exists st'.
Qed.

(** X16. [UpdateLights] returns exactly when both vectors hold at least
    [m_LightsCount] elements; otherwise it indexes a vector out of range. *)
Theorem UpdateLights_returns_iff t (st : LightState) :
  ((∃ st', Light.UpdateLights GridDim t st = Ok st')
   ↔ (Z.to_nat (m_LightsCount st) ≤ length (m_Lights st))%nat
     ∧ (Z.to_nat (m_LightsCount st) ≤ length (m_LightMoveDirs st))%nat)
  ∧ (∀ f, Light.UpdateLights GridDim t st = Fault f → f = OutOfRange).
Proof.
  split; [split|].
  - intros [st' Hst']. by eapply UpdateLights_bound.
  - intros [HL HD]. by apply UpdateLights_total.
  - intros f. apply update_lights_from_Fault.
Qed.

(** X17. [UpdateLights] moves lights and turns directions, nothing else:
    the two vectors keep their lengths, [m_LightsCount] its value, every
    light its [Size] and [Color], and the lights and directions from index
    [m_LightsCount] on are untouched. *)
Theorem UpdateLights_only_moves t (st st' : LightState) :
  Light.UpdateLights GridDim t st = Ok st' →
  length (m_Lights st') = length (m_Lights st)
  ∧ length (m_LightMoveDirs st') = length (m_LightMoveDirs st)
  ∧ m_LightsCount st' = m_LightsCount st
  ∧ (∀ i, Size <$> m_Lights st' !! i = Size <$> m_Lights st !! i)
  ∧ (∀ i, Color <$> m_Lights st' !! i = Color <$> m_Lights st !! i)
  ∧ (∀ i, (Z.to_nat (m_LightsCount st) ≤ i)%nat →
          m_Lights st' !! i = m_Lights st !! i
          ∧ m_LightMoveDirs st' !! i = m_LightMoveDirs st !! i).
Proof.
  intros Hu. unfold Light.UpdateLights in Hu.
  apply update_lights_from_frame in Hu as (HL & HD & HC & HS & HCo & Hout).
  repeat (split; [done|]). intros i Hi. apply Hout.
  rewrite list_elem_of_In, in_seq. lia.
Qed.

Lemma move_light_coords t (L : LightAttribs) (Dir : float3) :
  let moved := float3_add (Location L) (float3_scale Dir t) in
  let Min := fneg (float_of_int GridDim) in
  let Max := float_of_int GridDim in
  (x (Location (move_light t L Dir).1), x (move_light t L Dir).2)
  = Light.ClampCoordinate (x moved) (x Dir) Min Max
  ∧ (y (Location (move_light t L Dir).1), y (move_light t L Dir).2)
    = Light.ClampCoordinate (y moved) (y Dir) Min Max
  ∧ (z (Location (move_light t L Dir).1), z (move_light t L Dir).2)
    = Light.ClampCoordinate (z moved) (z Dir) Min Max.
Proof.
  unfold Light.move_light.
  repeat (match goal with |- context [let '(_, _) := ?c in _] =>
            rewrite (surjective_pairing c) end).
  simpl. by rewrite <- !surjective_pairing.
Qed.

(** What becomes of the light and the direction at an index below
    [m_LightsCount]. *)
Lemma UpdateLights_at t (st st' : LightState) (i : nat) :
  Light.UpdateLights GridDim t st = Ok st' →
  (i < Z.to_nat (m_LightsCount st))%nat →
  ∃ L Dir, m_Lights st !! i = Some L ∧ m_LightMoveDirs st !! i = Some Dir
    ∧ m_Lights st' !! i = Some (move_light t L Dir).1
    ∧ m_LightMoveDirs st' !! i = Some (move_light t L Dir).2.
Proof.
  intros Hu Hi.
  destruct (UpdateLights_bound t st st' Hu) as [HL HD].
  destruct (lookup_lt_is_Some_2 (m_Lights st) i) as [L HLi]; [lia|].
  destruct (lookup_lt_is_Some_2 (m_LightMoveDirs st) i) as [Dir HDi]; [lia|].
  destruct (update_lights_from_seq GridDim t (Z.to_nat (m_LightsCount st)) 0 st HL HD)
    as (st'' & Hst'' & Hspec).
  unfold Light.UpdateLights in Hu. rewrite Hu in Hst''. injection Hst'' as <-.
  specialize (Hspec i L Dir HLi HDi). rewrite decide_True in Hspec by lia.
  exists L, Dir. by destruct Hspec.
Qed.

(** X18. A NaN is never repaired: a coordinate of a light that is NaN
    before the call is NaN after it, whatever the elapsed time; a NaN
    elapsed time makes every coordinate of every animated light NaN; and a
    light with a NaN coordinate is outside the volume. *)
Theorem UpdateLights_nan t (st st' : LightState) (i : nat) (L : LightAttribs) :
  Light.UpdateLights GridDim t st = Ok st' →
  (i < Z.to_nat (m_LightsCount st))%nat → m_Lights st !! i = Some L →
  ∃ L', m_Lights st' !! i = Some L'
    ∧ (t = S754_nan ∨ x (Location L) = S754_nan → x (Location L') = S754_nan)
    ∧ (t = S754_nan ∨ y (Location L) = S754_nan → y (Location L') = S754_nan)
    ∧ (t = S754_nan ∨ z (Location L) = S754_nan → z (Location L') = S754_nan)
    ∧ (x (Location L') = S754_nan ∨ y (Location L') = S754_nan
       ∨ z (Location L') = S754_nan →
       Light.in_volume GridDim (Location L') = false).
Proof.
  intros Hu Hi HLi.
  destruct (UpdateLights_at t st st' i Hu Hi) as (L0 & Dir & HL0 & HDi & HL' & _).
  assert (L0 = L) by congruence. subst L0.
  exists (move_light t L Dir).1. split; [done|].
  destruct (move_light_coords t L Dir) as (Hx & Hy & Hz). cbv zeta in *.
  assert (Hmoved : ∀ l d, t = S754_nan ∨ l = S754_nan →
                          fadd l (fmul d t) = S754_nan).
  { intros l d [->| ->]; [by rewrite fmul_nan_r, fadd_nan_r|done]. }
  split; [|split; [|split]].
  - intros H. apply (f_equal fst) in Hx. simpl in Hx. rewrite Hx.
    rewrite (Hmoved _ _ H). by rewrite ClampCoordinate_nan.
  - intros H. apply (f_equal fst) in Hy. simpl in Hy. rewrite Hy.
    rewrite (Hmoved _ _ H). by rewrite ClampCoordinate_nan.
  - intros H. apply (f_equal fst) in Hz. simpl in Hz. rewrite Hz.
    rewrite (Hmoved _ _ H). by rewrite ClampCoordinate_nan.
  - unfold Light.in_volume. intros [H|[H|H]]; rewrite H, within_nan; simpl;
      by rewrite ?andb_false_r.
Qed.

Lemma move_light_speed t (L : LightAttribs) (Dir : float3) :
  valid_float3 Dir →
  same_speed Dir (move_light t L Dir).2 ∧ valid_float3 (move_light t L Dir).2.
Proof.
  intros (Vx & Vy & Vz).
  destruct (move_light_coords t L Dir) as (Hx & Hy & Hz). cbv zeta in *.
  apply (f_equal snd) in Hx, Hy, Hz. simpl in Hx, Hy, Hz.
  unfold same_speed, valid_float3. rewrite Hx, Hy, Hz.
  repeat match goal with
  | |- context [(Light.ClampCoordinate ?c ?d ?mn ?mx).2] =>
      let H := fresh in
      destruct (ClampCoordinate_dir c d mn mx) as [H|H]; [done|rewrite H..]
  end; rewrite ?SFabs_fneg; repeat split; try done; by apply fneg_valid.
Qed.

Lemma UpdateLights_speed t (st st' : LightState) (i : nat) (Dir : float3) :
  Light.UpdateLights GridDim t st = Ok st' →
  m_LightMoveDirs st !! i = Some Dir → valid_float3 Dir →
  ∃ Dir', m_LightMoveDirs st' !! i = Some Dir'
          ∧ same_speed Dir Dir' ∧ valid_float3 Dir'.
Proof.
  intros Hu HDi Hv.
  destruct (decide (i < Z.to_nat (m_LightsCount st))%nat) as [Hi|Hi].
  - destruct (UpdateLights_at t st st' i Hu Hi) as (L & Dir0 & _ & HD0 & _ & HD').
    assert (Dir0 = Dir) by congruence. subst Dir0.
    eexists. split; [exact HD'|]. by apply move_light_speed.
  - unfold Light.UpdateLights in Hu.
    apply update_lights_from_frame in Hu as (_ & _ & _ & _ & _ & Hout).
    destruct (Hout i) as [_ HD']; [rewrite list_elem_of_In, in_seq; lia|].
    exists Dir. split; [by rewrite HD'|]. by split.
Qed.

(** X19. Lights never change speed: over any number of calls, whatever
    the elapsed times, each component of a (valid binary32) direction
    keeps its absolute value; a bounce only flips its sign. *)
Theorem UpdateLights_keeps_speed (times : list float) (st st' : LightState)
    (i : nat) (Dir : float3) :
  UpdateLights_frames GridDim times st = Ok st' →
  m_LightMoveDirs st !! i = Some Dir → valid_float3 Dir →
  ∃ Dir', m_LightMoveDirs st' !! i = Some Dir'
          ∧ same_speed Dir Dir' ∧ valid_float3 Dir'.
Proof.
  revert st Dir. induction times as [|t times IH]; intros st Dir; simpl.
  - intros [= <-] HDi Hv. exists Dir. split; [done|]. split; [by repeat split|done].
  - destruct (Light.UpdateLights GridDim t st) as [st1|] eqn:H1; cbn [bind];
      [|discriminate].
    intros Hr HDi Hv.
    destruct (UpdateLights_speed t st st1 i Dir H1 HDi Hv) as (D1 & HD1 & Hs1 & Hv1).
    destruct (IH st1 D1 Hr HD1 Hv1) as (D' & HD' & Hs' & Hv').
    exists D'. split; [done|]. split; [|done].
    destruct Hs1 as (? & ? & ?), Hs' as (? & ? & ?).
    repeat split; congruence.
Qed.

End LightsMore.

(** ** InitLights *)

Section InitLightsFacts.
Variable GridDim : Z.
Context {RndState : Type}.
Variable Rnd : RndState -> float * RndState.
Variable Rnd0 : RndState.
Variable LightAttribs_default : LightAttribs.

Abbreviation init_light := (InitLights.init_light GridDim Rnd).
Abbreviation init_dir := (InitLights.init_dir Rnd).
Abbreviation for_each := (InitLights.for_each).
Abbreviation after_draws := (InitLights.after_draws Rnd).
Abbreviation InitLights := (InitLights.InitLights GridDim Rnd Rnd0 LightAttribs_default).

Lemma after_draws_add (a b : nat) (r : RndState) :
  after_draws (a + b) r = after_draws b (after_draws a r).
Proof. revert r. induction a as [|a IH]; intros r; [done|]. simpl. apply IH. Qed.

Lemma Rnd3_draws (r : RndState) : (InitLights.Rnd3 Rnd r).2 = after_draws 3 r.
Proof.
  unfold InitLights.Rnd3. simpl.
  destruct (Rnd r) as [a r1]. simpl. destruct (Rnd r1) as [b r2]. simpl.
  by destruct (Rnd r2) as [c r3].
Qed.

Lemma init_light_draws (L : LightAttribs) (r : RndState) :
  init_light L r = ((init_light LightAttribs_default r).1, after_draws 7 r).
Proof.
  change (init_light L r) with (init_light LightAttribs_default r).
  rewrite (surjective_pairing (init_light LightAttribs_default r)) at 1.
  f_equal.
  assert (H7 : after_draws 7 r
               = after_draws 3 (Rnd (after_draws 3 r)).2).
  { change 7%nat with (3 + (1 + 3))%nat. by rewrite !after_draws_add. }
  rewrite H7. unfold InitLights.init_light.
  pose proof (Rnd3_draws r) as H1.
  destruct (InitLights.Rnd3 Rnd r) as [v r1]. cbn [snd] in H1. subst r1.
  destruct (Rnd (after_draws 3 r)) as [s r2].
  pose proof (Rnd3_draws r2) as H3.
  destruct (InitLights.Rnd3 Rnd r2) as [c r3]. cbn [snd] in H3. by subst r3.
Qed.

Lemma init_dir_draws (D : float3) (r : RndState) :
  init_dir D r = ((init_dir (mk_float3 fzero fzero fzero) r).1, after_draws 3 r).
Proof.
  change (init_dir D r) with (init_dir (mk_float3 fzero fzero fzero) r).
  rewrite (surjective_pairing (init_dir _ r)) at 1.
  f_equal. unfold InitLights.init_dir.
  pose proof (Rnd3_draws r) as H1.
  by destruct (InitLights.Rnd3 Rnd r) as [v r1].
Qed.

(** A loop whose body overwrites the element from [k] draws. *)
Lemma for_each_draws {A : Type} (body : A -> RndState -> A * RndState)
    (g : RndState -> A) (k : nat) :
  (∀ e r, body e r = (g r, after_draws k r)) →
  ∀ v r, for_each body v r
         = (map (λ i, g (after_draws (k * i) r)) (seq 0 (length v)),
            after_draws (k * length v) r).
Proof.
  intros Hbody. induction v as [|e v IH]; intros r.
  - simpl. by rewrite Nat.mul_0_r.
  - simpl. rewrite Hbody, IH. f_equal.
    + rewrite Nat.mul_0_r. simpl. f_equal.
      rewrite <- seq_shift, map_map. apply map_ext. intros i.
      by rewrite Nat.mul_succ_r, (Nat.add_comm (k * i)), after_draws_add.
    + by rewrite Nat.mul_succ_r, (Nat.add_comm (k * length v)), after_draws_add.
Qed.

(** What [InitLights] returns, in closed form. *)
Lemma InitLights_closed (st : LightState) :
  0 ≤ m_LightsCount st →
  let n := Z.to_nat (m_LightsCount st) in
  InitLights st
  = inl (mk_LightState
           (map (λ i, (init_light LightAttribs_default (after_draws (7 * i) Rnd0)).1)
                (seq 0 n))
           (map (λ i, (init_dir (mk_float3 fzero fzero fzero)
                         (after_draws (7 * n + 3 * i) Rnd0)).1)
                (seq 0 n))
           (m_LightsCount st),
         after_draws (10 * n) Rnd0).
Proof.
  intros Hc n. unfold InitLights.InitLights.
  destruct (m_LightsCount st <? 0) eqn:Hneg; [apply Z.ltb_lt in Hneg; lia|].
  rewrite (for_each_draws init_light _ 7 init_light_draws).
  rewrite length_resize. fold n.
  rewrite length_map, length_seq.
  rewrite (for_each_draws init_dir _ 3 init_dir_draws).
  rewrite length_resize. f_equal. f_equal.
  - f_equal. apply map_ext. intros i. by rewrite after_draws_add.
  - rewrite <- after_draws_add. f_equal. lia.
Qed.

(** X20. [InitLights] throws [std::length_error] for a negative
    [m_LightsCount]; otherwise it returns with exactly [m_LightsCount]
    lights and as many directions, so that [UpdateLights] on its result
    never indexes out of range, whatever the elapsed time. *)
Theorem InitLights_sizes (st : LightState) :
  (m_LightsCount st < 0 → InitLights st = inr length_error)
  ∧ (0 ≤ m_LightsCount st →
     ∃ st' r, InitLights st = inl (st', r)
       ∧ length (m_Lights st') = Z.to_nat (m_LightsCount st)
       ∧ length (m_LightMoveDirs st') = Z.to_nat (m_LightsCount st)
       ∧ m_LightsCount st' = m_LightsCount st
       ∧ ∀ G t, ∃ st'', Light.UpdateLights G t st' = Ok st'').
Proof.
  split.
  - intros Hneg. unfold InitLights.InitLights.
    apply Z.ltb_lt in Hneg. by rewrite Hneg.
  - intros Hc. eexists _, _. split; [by apply InitLights_closed|].
    cbn [m_Lights m_LightMoveDirs m_LightsCount].
    rewrite !length_map, !length_seq. repeat (split; [done|]).
    intros G t. apply (UpdateLights_total G t);
      cbn [m_Lights m_LightMoveDirs m_LightsCount];
      by rewrite !length_map, !length_seq.
Qed.

(** X21. [InitLights] is a full reset: what it returns depends on
    [m_LightsCount] only, not on the lights and directions the vectors held
    before.  It draws [10 * m_LightsCount] numbers in all: the light at
    index [i] is made of the seven draws from [7 * i] on, and only after
    all the lights the direction at index [i] of the three draws from
    [7 * m_LightsCount + 3 * i] on. *)
Theorem InitLights_reset (st : LightState) :
  (∀ st2, m_LightsCount st2 = m_LightsCount st →
          InitLights.InitLights GridDim Rnd Rnd0 LightAttribs_default st2
          = InitLights st)
  ∧ (0 ≤ m_LightsCount st →
     ∀ st' r, InitLights st = inl (st', r) →
       r = after_draws (10 * Z.to_nat (m_LightsCount st)) Rnd0
       ∧ ∀ i, (i < Z.to_nat (m_LightsCount st))%nat →
           m_Lights st' !! i
           = Some (init_light LightAttribs_default (after_draws (7 * i) Rnd0)).1
           ∧ m_LightMoveDirs st' !! i
             = Some (init_dir (mk_float3 fzero fzero fzero)
                       (after_draws (7 * Z.to_nat (m_LightsCount st) + 3 * i) Rnd0)).1).
Proof.
  split.
  - intros st2 Hc. destruct (Z.lt_ge_cases (m_LightsCount st) 0) as [Hneg|Hpos].
    + unfold InitLights.InitLights. rewrite Hc.
      apply Z.ltb_lt in Hneg. by rewrite Hneg.
    + rewrite (InitLights_closed st) by done.
      rewrite (InitLights_closed st2) by lia. cbv zeta. by rewrite Hc.
  - intros Hc st' r Hi. rewrite (InitLights_closed st Hc) in Hi.
    cbv zeta in Hi. injection Hi as <- <-. split; [done|].
    intros i Hlt. cbn [m_Lights m_LightMoveDirs].
    rewrite !list_lookup_fmap, !lookup_seq_lt by done. done.
Qed.

End InitLightsFacts.

Lemma InitLights_sizes_witness :
  ∃ st' r st'',
    InitLights.InitLights 7 sample_Rnd 0%nat
      (mk_LightAttribs (mk_float3 fzero fzero fzero) fzero (mk_float3 fzero fzero fzero))
      sample_lights = inl (st', r)
    ∧ length (m_Lights st') = 1%nat
    ∧ Light.UpdateLights 7 (float_of_int 1) st' = Ok st''.
Proof.
  destruct (InitLights_sizes 7 sample_Rnd 0%nat
              (mk_LightAttribs (mk_float3 fzero fzero fzero) fzero
                 (mk_float3 fzero fzero fzero)) sample_lights)
    as [_ H].
  destruct H as (st' & r & Hi & HL & _ & _ & Hu); [simpl; lia|].
  destruct (Hu 7 (float_of_int 1)) as [st'' Hst''].
  exists st', r, st''. exact (conj Hi (conj HL Hst'')).
Defined.

Lemma InitLights_reset_witness :
  InitLights.InitLights 7 sample_Rnd 0%nat
    (mk_LightAttribs (mk_float3 fzero fzero fzero) fzero (mk_float3 fzero fzero fzero))
    nan_lights
  = InitLights.InitLights 7 sample_Rnd 0%nat
      (mk_LightAttribs (mk_float3 fzero fzero fzero) fzero (mk_float3 fzero fzero fzero))
      sample_lights.
Proof.
  apply (InitLights_reset 7 sample_Rnd 0%nat
           (mk_LightAttribs (mk_float3 fzero fzero fzero) fzero
              (mk_float3 fzero fzero fzero)) sample_lights).
  reflexivity.
Defined.

Lemma UpdateLights_returns_iff_witness :
  ∃ st', Light.UpdateLights 7 (float_of_int 1) sample_lights = Ok st'.
Proof.
  apply (UpdateLights_returns_iff 7 (float_of_int 1) sample_lights).
  simpl. lia.
Defined.

Lemma UpdateLights_only_moves_witness :
  ∃ st', Light.UpdateLights 7 (float_of_int 64) sample_lights = Ok st'
         ∧ length (m_Lights st') = 1%nat
         ∧ Size <$> m_Lights st' !! 0%nat = Some (float_of_int 1).
Proof.
  destruct (UpdateLights_total 7 (float_of_int 64) sample_lights)
    as [st' Hu]; [simpl; lia..|].
  destruct (UpdateLights_only_moves 7 (float_of_int 64) sample_lights st' Hu)
    as (HL & _ & _ & HS & _).
  exists st'. exact (conj Hu (conj HL (HS 0%nat))).
Defined.

Lemma UpdateLights_nan_witness :
  ∃ st' L', Light.UpdateLights 7 (float_of_int 1) nan_lights = Ok st'
    ∧ m_Lights st' !! 0%nat = Some L'
    ∧ x (Location L') = S754_nan
    ∧ Light.in_volume 7 (Location L') = false.
Proof.
  destruct (UpdateLights_total 7 (float_of_int 1) nan_lights)
    as [st' Hu]; [simpl; lia..|].
  destruct (UpdateLights_nan 7 (float_of_int 1) nan_lights st' 0%nat
              (mk_LightAttribs (mk_float3 S754_nan fzero fzero) (float_of_int 1)
                 (mk_float3 (float_of_int 1) (float_of_int 1) (float_of_int 1))) Hu)
    as (L' & HL' & Hx & _ & _ & Hv); [simpl; lia|reflexivity|].
  exists st', L'. split; [exact Hu|]. split; [exact HL'|].
  assert (Hn : x (Location L') = S754_nan) by (apply Hx; right; reflexivity).
  split; [exact Hn|]. apply Hv. left. exact Hn.
Defined.

Lemma UpdateLights_keeps_speed_witness :
  ∃ st' Dir',
    UpdateLights_frames 7 [float_of_int 16; float_of_int 64] sample_lights = Ok st'
    ∧ m_LightMoveDirs st' !! 0%nat = Some Dir'
    ∧ same_speed (mk_float3 (float_lit 1 (-1)) fzero fzero) Dir'.
Proof.
  assert (Hu : ∃ st', UpdateLights_frames 7 [float_of_int 16; float_of_int 64]
                        sample_lights = Ok st').
  { eexists. vm_compute. reflexivity. }
  destruct Hu as [st' Hu].
  destruct (UpdateLights_keeps_speed 7 [float_of_int 16; float_of_int 64]
              sample_lights st' 0%nat (mk_float3 (float_lit 1 (-1)) fzero fzero) Hu)
    as (Dir' & HD' & Hs & _); [reflexivity|by vm_compute|].
  exists st', Dir'. exact (conj Hu (conj HD' Hs)).
Defined.

(** ** ActorCreation *)

Lemma setPosition_Ok (a : ActorId) (p : float3) (w : World) :
  present w a →
  ∃ act, heap w !! a = Some act
    ∧ setPosition a p w = Ok (store_actor a (mk_Actor p (state act) (actorName act)) w).
Proof.
  intros [act Ha]. exists act. split; [done|].
  unfold setPosition, deref_actor, bind. by rewrite Ha.
Qed.

Lemma store_actor_present (a b : ActorId) (act : Actor) (w : World) :
  present w b → present (store_actor a act w) b.
Proof.
  unfold present, store_actor. simpl. intros Hb.
  destruct (decide (a = b)) as [->|Hne].
  - rewrite lookup_insert_eq. by eexists.
  - by rewrite lookup_insert_ne.
Qed.

(** The loop: every actor of the list ends at the origin; states, names
    and the actors outside the list are as before. *)
Lemma set_positions_spec (l : list ActorId) (w : World) :
  Forall (present w) l →
  ∃ w', ActorCreation.set_positions l w = Ok w'
    ∧ bodies w' = bodies w ∧ log w' = log w
    ∧ (∀ a, a ∈ l → position <$> heap w' !! a = Some (mk_float3 fzero fzero fzero))
    ∧ (∀ a, a ∉ l → heap w' !! a = heap w !! a)
    ∧ (∀ a, state <$> heap w' !! a = state <$> heap w !! a)
    ∧ (∀ a, actorName <$> heap w' !! a = actorName <$> heap w !! a).
Proof.
  revert w. induction l as [|b l IH]; intros w Hall; simpl.
  - exists w. repeat split; try done. intros a Ha. by apply elem_of_nil in Ha.
  - apply Forall_cons in Hall as [Hb Hall].
    destruct (setPosition_Ok b (mk_float3 fzero fzero fzero) w Hb) as (act & Hact & ->).
    cbn [bind].
    destruct (IH (store_actor b (mk_Actor (mk_float3 fzero fzero fzero) (state act)
                                   (actorName act)) w))
      as (w' & Hw' & HB & HLg & Hin & Hout & Hst & Hnm).
    { eapply Forall_impl; [exact Hall|]. intros c Hc. by apply store_actor_present. }
    exists w'. split; [done|]. split; [done|]. split; [done|].
    simpl in Hout, Hst, Hnm.
    split; [|split; [|split]].
    + intros a Ha. destruct (decide (a ∈ l)) as [Hl|Hl]; [by apply Hin|].
      apply elem_of_cons in Ha as [->|Ha]; [|done].
      rewrite (Hout b Hl), lookup_insert_eq. done.
    + intros a Ha. apply not_elem_of_cons in Ha as [Hne Ha].
      rewrite (Hout a Ha). by rewrite lookup_insert_ne.
    + intros a. rewrite Hst. destruct (decide (a = b)) as [->|Hne].
      * by rewrite lookup_insert_eq, Hact.
      * by rewrite lookup_insert_ne.
    + intros a. rewrite Hnm. destruct (decide (a = b)) as [->|Hne].
      * by rewrite lookup_insert_eq, Hact.
      * by rewrite lookup_insert_ne.
Qed.

Lemma make_world_heap (d : Z) (a : ActorId) (t : Transform) (w : World) :
  heap (RigidbodyComponent_part004.make_world d a t w).2 = heap w.
Proof. reflexivity. Qed.

Section CreationFacts.
Variable new_Helmet : World -> ActorId * World.
Variable new_AnimPeople : World -> ActorId * World.
Variable GetActor : ActorId -> World -> ActorId.
Variable addComponent : ActorId -> RigidbodyComponent -> World -> World.
Variable defaultOrder : Z.

(** X22. When the two constructors return live actors and neither they
    nor [addComponent] free one, [ActorCreation] on a scene with live
    pointers returns: it has appended to the vector the actor [new Helmet]
    returned and then the actor [new AnimPeople] returned (the latter
    built in the world that holds the helmet's rigid body and component),
    and every actor of the vector, the ones it held before included, is at
    the origin; bodies and log are those the second constructor left. *)
Theorem ActorCreation_origin (s : Scene) :
  allocates new_Helmet → allocates new_AnimPeople →
  (∀ a c, preserves_actors (addComponent a c)) →
  Forall (present (world s)) (actors s) →
  let hw := new_Helmet (world s) in
  let cw := RigidbodyComponent_part004.make_world defaultOrder (GetActor hw.1 hw.2)
              (mk_Transform Vector3_zero Quaternion_identity) hw.2 in
  let pw := new_AnimPeople (addComponent hw.1 cw.1 cw.2) in
  ∃ s',
    ActorCreation.ActorCreation new_Helmet new_AnimPeople GetActor addComponent
      defaultOrder s = Ok s'
    ∧ actors s' = actors s ++ [hw.1; pw.1]
    ∧ trace s' = trace s
    ∧ (∀ a, a ∈ actors s' →
            position <$> heap (world s') !! a = Some (mk_float3 fzero fzero fzero))
    ∧ bodies (world s') = bodies pw.2
    ∧ log (world s') = log pw.2.
Proof.
  intros HH HA HC Hall. cbv zeta. unfold ActorCreation.ActorCreation.
  destruct (HH (world s)) as [Hh1 Hh2].
  destruct (new_Helmet (world s)) as [h w1]. simpl in Hh1, Hh2. cbn [fst snd].
  destruct (present_deref _ _ Hh1) as (acth & -> & _). cbn [bind].
  pose proof (make_world_heap defaultOrder (GetActor h w1)
                (mk_Transform Vector3_zero Quaternion_identity) w1) as Hheap.
  destruct (RigidbodyComponent_part004.make_world _ _ _ w1) as [c w2].
  simpl in Hheap. cbn [fst snd].
  assert (Hw2 : ∀ a, present w1 a → present w2 a).
  { intros a. unfold present. by rewrite Hheap. }
  destruct (present_deref _ _ (Hw2 h Hh1)) as (acth2 & -> & _). cbn [bind].
  destruct (HA (addComponent h c w2)) as [Ha1 Ha2].
  destruct (new_AnimPeople (addComponent h c w2)) as [p w3]. simpl in Ha1, Ha2.
  cbn [fst snd].
  assert (Hlive : ∀ a, present (world s) a → present w3 a).
  { intros a Ha. apply Ha2, HC, Hw2, Hh2, Ha. }
  destruct (set_positions_spec
              (emplace_back p (emplace_back h (actors s))) w3)
    as (w4 & Hw4 & HB & HLg & Hin & _).
  { unfold emplace_back. rewrite !Forall_app. split; [split|].
    - eapply Forall_impl; [exact Hall|]. exact Hlive.
    - repeat constructor. by apply Ha2, HC, Hw2.
    - by repeat constructor. }
  rewrite Hw4. cbn [bind].
  eexists. split; [done|]. simpl. unfold emplace_back.
  split; [by rewrite <- app_assoc|]. split; [done|]. split; [exact Hin|done].
Qed.

End CreationFacts.

Lemma sample_new_allocates (name : string) : allocates (sample_new name).
Proof.
  intros w. unfold sample_new. simpl. split.
  - unfold present, store_actor. simpl. rewrite lookup_insert_eq. by eexists.
  - intros a Ha. by apply store_actor_present.
Qed.

Lemma ActorCreation_origin_witness :
  ∃ s',
    ActorCreation.ActorCreation (sample_new "Helmet") (sample_new "AnimPeople")
      (λ a _, a) (λ _ _ w, w) 100 sample_scene = Ok s'
    ∧ actors s' = [helmet1; animPeople1; 3%positive; 4%positive]
    ∧ actorName <$> heap (world s') !! 3%positive = Some "Helmet"
    ∧ position <$> heap (world s') !! 3%positive = Some (mk_float3 fzero fzero fzero).
Proof.
  destruct (ActorCreation_origin (sample_new "Helmet") (sample_new "AnimPeople")
              (λ a _, a) (λ _ _ w, w) 100 sample_scene
              (sample_new_allocates "Helmet") (sample_new_allocates "AnimPeople")
              (λ _ _ w a H, H)
              (proj1 (sample_scene_updatable no_key)))
    as (s' & Hs' & Ha & _ & Hpos & _).
  assert (Hact : actors s' = [helmet1; animPeople1; 3%positive; 4%positive])
    by (rewrite Ha; vm_compute; reflexivity).
  exists s'. split; [exact Hs'|]. split; [exact Hact|]. split.
  - vm_compute in Hs'. injection Hs' as <-. vm_compute. reflexivity.
  - apply Hpos. rewrite Hact. right. right. left.
Defined.

(** * Reflection at the boundary, in binary32 *)

(** ** Digits *)

(** The number of binary digits of a mantissa, as a logarithm. *)
Lemma digits2_pos_size (m : positive) : digits2_pos m = Pos.size m.
Proof. induction m; simpl; congruence. Qed.

Lemma digits2_log2 (m : positive) : Z.pos (digits2_pos m) = Z.log2 (Z.pos m) + 1.
Proof.
  rewrite digits2_pos_size. destruct m; simpl; lia.
Qed.

Lemma digits2_bounds (m : positive) :
  2 ^ (Z.pos (digits2_pos m) - 1) ≤ Z.pos m < 2 ^ Z.pos (digits2_pos m).
Proof.
  rewrite digits2_log2.
  replace (Z.log2 (Z.pos m) + 1 - 1) with (Z.log2 (Z.pos m)) by lia.
  apply Z.log2_spec. lia.
Qed.

Lemma Zdigits2_log2 (z : Z) : 0 < z → Zdigits2 z = Z.log2 z + 1.
Proof. destruct z; try lia. intros _. apply digits2_log2. Qed.

Lemma fexp_eq (e : Z) : fexp prec emax e = Z.max (e - 24) (-149).
Proof. reflexivity. Qed.

(** ** Shifts *)

Lemma iter_pos_nat {A : Type} (f : A → A) (p : positive) (a : A) :
  SpecFloat.iter_pos f p a = Nat.iter (Pos.to_nat p) f a.
Proof.
  revert a. induction p as [p IH|p IH|]; intros a.
  - rewrite Pos2Nat.inj_xI. cbn [SpecFloat.iter_pos]. rewrite !IH.
    rewrite <- Nat.iter_add, <- Nat.iter_succ_r. f_equal. lia.
  - rewrite Pos2Nat.inj_xO. cbn [SpecFloat.iter_pos]. rewrite !IH.
    rewrite <- Nat.iter_add. f_equal. lia.
  - done.
Qed.

Lemma shr_1_m (r : shr_record) : 0 ≤ shr_m r → shr_m (shr_1 r) = shr_m r / 2.
Proof.
  destruct r as [m rb sb]. cbn [shr_m]. intros Hm.
  destruct m as [|[p|p|]|p]; try lia; cbn [shr_1 shr_m].
  - done.
  - apply Z.div_unique with 1; lia.
  - apply Z.div_unique with 0; lia.
  - done.
Qed.

Lemma shr_1_exact (z : Z) :
  0 ≤ z → shr_1 (Build_shr_record (2 * z) false false) = Build_shr_record z false false.
Proof. intros Hz. destruct z; try lia; done. Qed.

Lemma iter_shr_1_m (k : nat) (r : shr_record) :
  0 ≤ shr_m r → shr_m (Nat.iter k shr_1 r) = shr_m r / 2 ^ Z.of_nat k.
Proof.
  intros Hm. induction k as [|k IH].
  - simpl. by rewrite Z.div_1_r.
  - rewrite Nat.iter_succ, shr_1_m.
    + rewrite IH, Z.div_div by lia. f_equal.
      rewrite Nat2Z.inj_succ, Z.pow_succ_r by lia. lia.
    + rewrite IH. apply Z.div_pos; lia.
Qed.

Lemma iter_shr_1_exact (k : nat) (z : Z) :
  0 ≤ z →
  Nat.iter k shr_1 (Build_shr_record (z * 2 ^ Z.of_nat k) false false)
  = Build_shr_record z false false.
Proof.
  revert z. induction k as [|k IH]; intros z Hz.
  - simpl. f_equal. lia.
  - rewrite Nat.iter_succ_r.
    replace (z * 2 ^ Z.of_nat (S k)) with (2 * (z * 2 ^ Z.of_nat k))
      by (rewrite Nat2Z.inj_succ, Z.pow_succ_r by lia; lia).
    rewrite shr_1_exact by lia. by apply IH.
Qed.

(** [shr], for a shift that is not negative. *)
Lemma shr_m_shift (r : shr_record) (e n : Z) :
  0 ≤ shr_m r → 0 ≤ n →
  shr_m (shr r e n).1 = shr_m r / 2 ^ n ∧ (shr r e n).2 = e + n.
Proof.
  intros Hm Hn. destruct n as [|p|p]; try lia; simpl.
  - split; [by rewrite Z.div_1_r|lia].
  - rewrite iter_pos_nat, iter_shr_1_m by done.
    by rewrite positive_nat_Z.
Qed.

Lemma shr_exact (z : Z) (e n : Z) :
  0 ≤ z → 0 ≤ n →
  shr (Build_shr_record (z * 2 ^ n) false false) e n
  = (Build_shr_record z false false, e + n).
Proof.
  intros Hz Hn. destruct n as [|p|p]; try lia; simpl.
  - f_equal; [f_equal|]; lia.
  - rewrite iter_pos_nat. rewrite <- (positive_nat_Z p) at 1.
    by rewrite iter_shr_1_exact.
Qed.

Lemma shr_nonpos (r : shr_record) (e n : Z) : n ≤ 0 → shr r e n = (r, e).
Proof. by destruct n as [|p|p]; try lia. Qed.

Lemma Zdigits2_mul_pow2 (z n : Z) :
  0 < z → 0 ≤ n → Zdigits2 (z * 2 ^ n) = Zdigits2 z + n.
Proof.
  intros Hz Hn. rewrite !Zdigits2_log2 by (try apply Z.mul_pos_pos; lia).
  rewrite Z.log2_mul_pow2 by lia. lia.
Qed.

Lemma Zdigits2_div_pow2 (z n : Z) :
  0 ≤ n → 2 ^ n ≤ z → Zdigits2 (z / 2 ^ n) = Zdigits2 z - n.
Proof.
  intros Hn Hz.
  assert (0 < 2 ^ n) by (apply Z.pow_pos_nonneg; lia).
  assert (0 < z / 2 ^ n) by (apply Z.div_str_pos; lia).
  rewrite !Zdigits2_log2 by lia.
  rewrite <- Z.shiftr_div_pow2, Z.log2_shiftr by lia.
  assert (n ≤ Z.log2 z) by (apply Z.log2_le_pow2; lia). lia.
Qed.

Lemma Zdigits2_mono (a b : Z) : 0 < a → a ≤ b → Zdigits2 a ≤ Zdigits2 b.
Proof.
  intros Ha Hab. rewrite !Zdigits2_log2 by lia.
  pose proof (Z.log2_le_mono a b Hab). lia.
Qed.

Lemma Zdigits2_bounds (z : Z) : 0 < z → 2 ^ (Zdigits2 z - 1) ≤ z < 2 ^ Zdigits2 z.
Proof. destruct z; try lia. intros _. apply digits2_bounds. Qed.

Lemma Zdigits2_lt_pow2 (z k : Z) : 0 < z → 0 ≤ k → z < 2 ^ k → Zdigits2 z ≤ k.
Proof.
  intros Hz Hk Hlt. rewrite Zdigits2_log2 by done.
  assert (Z.log2 z < k) by (apply Z.log2_lt_pow2; lia). lia.
Qed.

(** ** Rounding to binary32 *)

Lemma round_nearest_even_cases (m : Z) (l : location) :
  round_nearest_even m l = m ∨ round_nearest_even m l = m + 1.
Proof. destruct l as [|[]]; simpl; try destruct (Z.even m); auto. Qed.

Lemma pow2_pos (k : Z) : 0 ≤ k → 0 < 2 ^ k.
Proof. intros. apply Z.pow_pos_nonneg; lia. Qed.

Lemma pow2_le (a b : Z) : 0 ≤ a ≤ b → 2 ^ a ≤ 2 ^ b.
Proof. intros. apply Z.pow_le_mono_r; lia. Qed.

Lemma pow2_lt (a b : Z) : 0 ≤ a < b → 2 ^ a < 2 ^ b.
Proof. intros. apply Z.pow_lt_mono_r; lia. Qed.

Lemma pow2_lt_inv (a b : Z) : 0 ≤ b → 2 ^ a < 2 ^ b → a < b.
Proof. intros Hb H. apply (Z.pow_lt_mono_r_iff 2); lia. Qed.

(** The second shift of [binary_round_aux] leaves zero or a canonical
    mantissa. *)
Lemma shr_fexp_canonical (m e : Z) :
  0 ≤ m ≤ 2 ^ 24 → -149 ≤ e → (m < 2 ^ 23 → e = -149) →
  ∀ r e2, shr_fexp prec emax m e loc_Exact = (r, e2) →
  shr_m r = 0
  ∨ (0 < shr_m r ∧ fexp prec emax (Zdigits2 (shr_m r) + e2) = e2).
Proof.
  intros Hm He Hsub r e2. unfold shr_fexp. cbn [shr_record_of_loc].
  destruct (decide (m = 2 ^ 24)) as [->|Hne].
  - change (Zdigits2 (2 ^ 24)) with 25. rewrite fexp_eq.
    replace (Z.max (25 + e - 24) (-149) - e) with 1 by lia.
    intros [= <- <-]. right. split; [done|].
    change (shr_m _) with (2 ^ 23). change (Zdigits2 (2 ^ 23)) with 24.
    rewrite fexp_eq. lia.
  - destruct (decide (m = 0)) as [->|Hz].
    + rewrite shr_nonpos by (rewrite fexp_eq; simpl; lia).
      intros [= <- <-]. by left.
    + assert (Hd : Zdigits2 m ≤ 24) by (apply Zdigits2_lt_pow2; lia).
      pose proof (Zdigits2_bounds m ltac:(lia)) as [_ Hub].
      assert (Hd' : 2 ^ 23 ≤ m → Zdigits2 m = 24).
      { intros Hge. destruct (decide (Zdigits2 m ≤ 23)) as [H23|]; [|lia].
        assert (0 ≤ Zdigits2 m)
          by (rewrite Zdigits2_log2 by lia; pose proof (Z.log2_nonneg m); lia).
        pose proof (pow2_le (Zdigits2 m) 23 ltac:(lia)). lia. }
      assert (Hc : fexp prec emax (Zdigits2 m + e) = e).
      { rewrite fexp_eq. destruct (decide (m < 2 ^ 23)); [|rewrite Hd'; lia].
        rewrite Hsub by done. lia. }
      rewrite shr_nonpos by lia.
      intros [= <- <-]. right. cbn [shr_m]. split; [lia|done].
Qed.

(** The first shift and the rounding, for a mantissa that is not below
    its canonical exponent. *)
Lemma shr_fexp_round (M E : Z) :
  0 < M → E ≤ fexp prec emax (Zdigits2 M + E) →
  ∀ r e1, shr_fexp prec emax M E loc_Exact = (r, e1) →
  let m := round_nearest_even (shr_m r) (loc_of_shr_record r) in
  0 ≤ m ≤ 2 ^ 24 ∧ -149 ≤ e1 ∧ (m < 2 ^ 23 → e1 = -149).
Proof.
  intros HM HE r e1 Hshr m.
  unfold shr_fexp in Hshr. cbn [shr_record_of_loc] in Hshr.
  set (d := Zdigits2 M) in *. set (n := fexp prec emax (d + E) - E) in *.
  assert (Hn : 0 ≤ n) by (unfold n; lia).
  destruct (shr_m_shift (Build_shr_record M false false) E n) as [Hm1 He1];
    [simpl; lia|done|].
  rewrite Hshr in Hm1, He1. cbn [fst snd shr_m] in Hm1, He1.
  pose proof (Zdigits2_bounds M HM) as [Hlo Hhi]. fold d in Hlo, Hhi.
  assert (Hd : 1 ≤ d).
  { unfold d. rewrite Zdigits2_log2 by done. pose proof (Z.log2_nonneg M). lia. }
  pose proof (pow2_pos n Hn) as Hpn.
  assert (Hfe : fexp prec emax (d + E) = Z.max (d + E - 24) (-149)) by apply fexp_eq.
  assert (H0 : 0 ≤ shr_m r) by (rewrite Hm1; apply Z.div_pos; lia).
  assert (H24 : shr_m r < 2 ^ 24).
  { rewrite Hm1. apply Z.div_lt_upper_bound; [done|].
    rewrite <- Z.pow_add_r by lia.
    pose proof (pow2_le d (n + 24) ltac:(unfold n; lia)). lia. }
  assert (H23 : e1 ≠ -149 → 2 ^ 23 ≤ shr_m r).
  { intros Hne. assert (Hn' : n = d - 24) by (unfold n; lia).
    rewrite Hm1. apply Z.div_le_lower_bound; [done|].
    rewrite <- Z.pow_add_r by lia.
    replace (n + 23) with (d - 1) by lia. done. }
  destruct (round_nearest_even_cases (shr_m r) (loc_of_shr_record r)) as [Hr|Hr];
    fold m in Hr; rewrite Hr.
  - repeat split; lia.
  - repeat split; lia.
Qed.

Lemma valid_float_finite (s : bool) (m : positive) (e : Z) :
  valid_float (S754_finite s m e)
  ↔ fexp prec emax (Z.pos (digits2_pos m) + e) = e ∧ e ≤ 104.
Proof.
  unfold valid_float, valid_binary, bounded, canonical_mantissa.
  rewrite andb_true_iff, Z.eqb_eq, Z.leb_le. done.
Qed.

(** [binary_round_aux] returns a binary32 value. *)
Lemma binary_round_aux_valid (s : bool) (M E : Z) :
  0 < M → E ≤ fexp prec emax (Zdigits2 M + E) →
  valid_float (binary_round_aux prec emax s M E loc_Exact).
Proof.
  intros HM HE. unfold binary_round_aux.
  destruct (shr_fexp prec emax M E loc_Exact) as [r1 e1] eqn:H1.
  destruct (shr_fexp_round M E HM HE r1 e1 H1) as (Hm & He1 & Hsub).
  destruct (shr_fexp prec emax _ e1 loc_Exact) as [r2 e2] eqn:H2.
  destruct (shr_fexp_canonical _ e1 Hm He1 Hsub r2 e2 H2) as [Hz|[Hp Hc]].
  - by rewrite Hz.
  - destruct (shr_m r2) as [|p|p]; try done.
    destruct (e2 <=? emax - prec) eqn:Hle; [|done].
    apply valid_float_finite. split; [done|]. by apply Z.leb_le in Hle.
Qed.

Lemma Pos_iter_xO (m d : positive) :
  Z.pos (Pos.iter xO m d) = Z.pos m * 2 ^ Z.pos d.
Proof.
  induction d as [|d IH] using Pos.peano_ind.
  - simpl. lia.
  - rewrite Pos.iter_succ, Pos2Z.inj_xO, IH, Pos2Z.inj_succ, Z.pow_succ_r by lia.
    lia.
Qed.

Lemma shl_align_lt (m : positive) (e e' : Z) :
  e' < e →
  Z.pos (shl_align m e e').1 = Z.pos m * 2 ^ (e - e') ∧ (shl_align m e e').2 = e'.
Proof.
  intros Hlt. unfold shl_align.
  destruct (e' - e) as [|p|p] eqn:Hd; try lia.
  cbn [fst snd]. rewrite Pos_iter_xO. split; [|done]. f_equal. f_equal. lia.
Qed.

Lemma shl_align_ge (m : positive) (e e' : Z) :
  e ≤ e' → shl_align m e e' = (m, e).
Proof.
  intros Hle. unfold shl_align. by destruct (e' - e) as [|p|p] eqn:Hd; try lia.
Qed.

(** The aligned mantissa stands for the same number. *)
Lemma shl_align_value (m : positive) (e e' : Z) :
  -149 ≤ e' ≤ e →
  Z.pos (shl_align m e e').1 * 2 ^ (e' + 149) = Z.pos m * 2 ^ (e + 149).
Proof.
  intros He. destruct (decide (e' < e)) as [Hlt|Hge].
  - destruct (shl_align_lt m e e' Hlt) as [-> _].
    rewrite <- Z.mul_assoc, <- Z.pow_add_r by lia. do 2 f_equal. lia.
  - rewrite shl_align_ge by lia. cbn [fst]. do 2 f_equal. lia.
Qed.

Lemma binary_round_valid (s : bool) (m : positive) (e : Z) :
  valid_float (binary_round prec emax s m e).
Proof.
  unfold binary_round.
  set (ce := fexp prec emax (Z.pos (digits2_pos m) + e)).
  destruct (shl_align m e ce) as [mz ez] eqn:Hsh.
  apply binary_round_aux_valid; [done|].
  destruct (decide (ce < e)) as [Hlt|Hge].
  - destruct (shl_align_lt m e ce Hlt) as [Hm He]. rewrite Hsh in Hm, He.
    cbn [fst snd] in Hm, He. subst ez. rewrite Hm.
    rewrite Zdigits2_mul_pow2 by lia. cbn [Zdigits2].
    replace (Z.pos (digits2_pos m) + (e - ce) + ce) with (Z.pos (digits2_pos m) + e)
      by lia.
    fold ce. lia.
  - rewrite shl_align_ge in Hsh by lia. injection Hsh as <- <-.
    cbn [Zdigits2]. fold ce. lia.
Qed.

Lemma binary_normalize_valid (M E : Z) (sz : bool) :
  valid_float (binary_normalize prec emax M E sz).
Proof. destruct M; [done|apply binary_round_valid..]. Qed.

(** Sums, differences and products of binary32 values are binary32
    values. *)
Lemma fadd_valid (a b : float) :
  valid_float a → valid_float b → valid_float (fadd a b).
Proof.
  intros Ha Hb. unfold fadd.
  destruct a as [sa|sa| |sa ma ea], b as [sb|sb| |sb mb eb]; try done;
    try (by destruct sa, sb).
  apply binary_normalize_valid.
Qed.

Lemma fsub_valid (a b : float) :
  valid_float a → valid_float b → valid_float (fsub a b).
Proof.
  intros Ha Hb. unfold fsub.
  destruct a as [sa|sa| |sa ma ea], b as [sb|sb| |sb mb eb]; try done;
    try (by destruct sa, sb).
  apply binary_normalize_valid.
Qed.

Lemma digits2_pos_mul (a b : positive) :
  Z.pos (digits2_pos a) + Z.pos (digits2_pos b) - 1 ≤ Z.pos (digits2_pos (a * b)).
Proof.
  rewrite !digits2_log2, Pos2Z.inj_mul.
  pose proof (Z.log2_mul_below (Z.pos a) (Z.pos b) ltac:(lia) ltac:(lia)). lia.
Qed.

Lemma fmul_valid (a b : float) :
  valid_float a → valid_float b → valid_float (fmul a b).
Proof.
  intros Ha Hb. unfold fmul.
  destruct a as [sa|sa| |sa ma ea], b as [sb|sb| |sb mb eb]; try done.
  apply valid_float_finite in Ha as [Ha _], Hb as [Hb _].
  rewrite fexp_eq in Ha, Hb.
  cbn [SFmul]. apply binary_round_aux_valid; [done|].
  cbn [Zdigits2]. rewrite fexp_eq.
  pose proof (digits2_pos_mul ma mb). lia.
Qed.

(** ** Operations without rounding error *)

Lemma binary_round_aux_exact (s : bool) (m : positive) (n E : Z) :
  0 ≤ n → fexp prec emax (Zdigits2 (Z.pos m * 2 ^ n) + E) = E + n → E + n ≤ 104 →
  binary_round_aux prec emax s (Z.pos m * 2 ^ n) E loc_Exact = S754_finite s m (E + n).
Proof.
  intros Hn Hc Hle. unfold binary_round_aux, shr_fexp. cbn [shr_record_of_loc].
  rewrite Hc. replace (E + n - E) with n by lia.
  rewrite shr_exact by lia. cbn [shr_m loc_of_shr_record round_nearest_even].
  rewrite Zdigits2_mul_pow2 in Hc by lia.
  replace (Zdigits2 (Z.pos m) + (E + n)) with (Zdigits2 (Z.pos m) + n + E) by lia.
  rewrite Hc, Z.sub_diag. cbn [shr shr_m].
  destruct (Z.leb_spec (E + n) (emax - prec)) as [|Hgt]; [done|].
  unfold emax, prec in Hgt. lia.
Qed.

Lemma binary_round_exact (s : bool) (m : positive) (e F : Z) :
  -149 ≤ e → -149 ≤ F ≤ 104 →
  (2 ^ (F + 149) | Z.pos m * 2 ^ (e + 149)) →
  Z.pos m * 2 ^ (e + 149) < 2 ^ (24 + F + 149) →
  ∃ m' e', binary_round prec emax s m e = S754_finite s m' e'
    ∧ Z.pos m' * 2 ^ (e' + 149) = Z.pos m * 2 ^ (e + 149).
Proof.
  intros He HF Hdiv Hlt. unfold binary_round.
  set (d := Z.pos (digits2_pos m)). set (ce := fexp prec emax (d + e)).
  pose proof (digits2_bounds m) as [Hlo Hhi]. fold d in Hlo, Hhi.
  assert (Hd : 1 ≤ d) by (unfold d; lia).
  assert (Hce : ce = Z.max (d + e - 24) (-149)) by apply fexp_eq.
  pose proof (pow2_pos (e + 149) ltac:(lia)) as Hpe.
  assert (HceF : ce ≤ F).
  { assert (d + e + 148 < 24 + F + 149); [|lia].
    apply pow2_lt_inv; [lia|].
    eapply Z.le_lt_trans; [|exact Hlt].
    replace (d + e + 148) with ((d - 1) + (e + 149)) by lia.
    rewrite Z.pow_add_r by lia. apply Z.mul_le_mono_nonneg_r; [lia|done]. }
  destruct (decide (ce < e)) as [Hlt'|Hge].
  - destruct (shl_align_lt m e ce Hlt') as [Hm Hez].
    destruct (shl_align m e ce) as [mz ez]. cbn [fst snd] in Hm, Hez. subst ez.
    exists mz, ce. split.
    + pose proof (binary_round_aux_exact s mz 0 ce) as Hx.
      rewrite Z.pow_0_r, Z.mul_1_r, Z.add_0_r in Hx. apply Hx; [lia| |lia].
      cbn [Zdigits2].
      assert (Hdz : Z.pos (digits2_pos mz) = d + (e - ce)).
      { change (Z.pos (digits2_pos mz)) with (Zdigits2 (Z.pos mz)).
        rewrite Hm, Zdigits2_mul_pow2 by lia. done. }
      rewrite Hdz. replace (d + (e - ce) + ce) with (d + e) by lia. done.
    + rewrite Hm, <- Z.mul_assoc, <- Z.pow_add_r by lia. do 2 f_equal. lia.
  - rewrite shl_align_ge by lia.
    destruct Hdiv as [q Hq].
    set (n := ce - e).
    assert (Hn : 0 ≤ n) by (unfold n; lia).
    pose proof (pow2_pos n Hn) as Hpn.
    assert (Hm : Z.pos m = (q * 2 ^ (F - ce)) * 2 ^ n).
    { apply (Z.mul_cancel_r _ _ (2 ^ (e + 149))); [lia|].
      rewrite Hq, <- !Z.mul_assoc, <- !Z.pow_add_r by lia. do 2 f_equal.
      unfold n. lia. }
    assert (Hq0 : 0 < q * 2 ^ (F - ce)) by nia.
    destruct (q * 2 ^ (F - ce)) as [|m'|m'] eqn:Hm'; try lia.
    exists m', (e + n). split.
    + rewrite Hm. apply binary_round_aux_exact; [done| |unfold n; lia].
      rewrite <- Hm. cbn [Zdigits2]. fold d. fold ce. unfold n. lia.
    + rewrite Hm, <- Z.mul_assoc, <- Z.pow_add_r by lia. do 2 f_equal. lia.
Qed.

(** A number [M * 2^E] that fits the format, with the exponent [F], is
    represented as it is. *)
Lemma binary_normalize_exact (M E F : Z) :
  -149 ≤ E → -149 ≤ F ≤ 104 →
  (2 ^ (F + 149) | M * 2 ^ (E + 149)) →
  Z.abs (M * 2 ^ (E + 149)) < 2 ^ (24 + F + 149) →
  finite (binary_normalize prec emax M E false) = true
  ∧ F2Z (binary_normalize prec emax M E false) = M * 2 ^ (E + 149).
Proof.
  intros HE HF Hdiv Hlt.
  pose proof (pow2_pos (E + 149) ltac:(lia)) as HpE.
  destruct M as [|m|m]; cbn [binary_normalize].
  - done.
  - destruct (binary_round_exact false m E F HE HF Hdiv) as (m' & e' & -> & Hv);
      [lia|].
    split; [done|]. cbn [F2Z cond_Zopp]. done.
  - destruct (binary_round_exact true m E F HE HF) as (m' & e' & -> & Hv).
    + apply Z.divide_opp_r in Hdiv.
      by replace (- (Z.neg m * 2 ^ (E + 149))) with (Z.pos m * 2 ^ (E + 149))
        in Hdiv by lia.
    + lia.
    + split; [done|]. cbn [F2Z cond_Zopp]. rewrite Hv. lia.
Qed.

Lemma cond_Zopp_mul (s : bool) (a b : Z) : cond_Zopp s a * b = cond_Zopp s (a * b).
Proof. destruct s; simpl; lia. Qed.

Lemma valid_finite_bounds (s : bool) (m : positive) (e : Z) :
  valid_float (S754_finite s m e) →
  -149 ≤ e ≤ 104 ∧ Z.pos m < 2 ^ 24 ∧ (-149 < e → 2 ^ 23 ≤ Z.pos m).
Proof.
  intros [Hc He]%valid_float_finite. rewrite fexp_eq in Hc.
  pose proof (digits2_bounds m) as [Hlo Hhi].
  set (d := Z.pos (digits2_pos m)) in *.
  assert (1 ≤ d) by (unfold d; lia).
  split; [lia|]. split.
  - pose proof (pow2_le d 24 ltac:(lia)). lia.
  - intros Hn. assert (d = 24) as Hd by lia. by rewrite Hd in Hlo.
Qed.

Lemma aligned_value (s : bool) (m : positive) (e ez : Z) :
  -149 ≤ ez ≤ e →
  cond_Zopp s (Z.pos (shl_align m e ez).1) * 2 ^ (ez + 149)
  = F2Z (S754_finite s m e).
Proof.
  intros He. rewrite cond_Zopp_mul, shl_align_value by done. done.
Qed.

Lemma F2Z_finite (a : float) : F2Z a ≠ 0 → ∃ s m e, a = S754_finite s m e.
Proof. destruct a as [| | |s m e]; try done. by exists s, m, e. Qed.

Lemma fadd_exact (a b : float) (F : Z) :
  valid_float a → valid_float b → F2Z a ≠ 0 → F2Z b ≠ 0 →
  -149 ≤ F ≤ 104 → (2 ^ (F + 149) | F2Z a + F2Z b) →
  Z.abs (F2Z a + F2Z b) < 2 ^ (24 + F + 149) →
  finite (fadd a b) = true ∧ F2Z (fadd a b) = F2Z a + F2Z b.
Proof.
  intros Ha Hb [sa [ma [ea ->]]]%F2Z_finite [sb [mb [eb ->]]]%F2Z_finite HF Hdiv Hlt.
  pose proof (valid_finite_bounds _ _ _ Ha) as (Hea & _).
  pose proof (valid_finite_bounds _ _ _ Hb) as (Heb & _).
  unfold fadd. cbn [SFadd]. cbv zeta.
  set (ez := Z.min ea eb).
  assert (Hv : (cond_Zopp sa (Z.pos (shl_align ma ea ez).1)
                + cond_Zopp sb (Z.pos (shl_align mb eb ez).1)) * 2 ^ (ez + 149)
               = F2Z (S754_finite sa ma ea) + F2Z (S754_finite sb mb eb)).
  { rewrite Z.mul_add_distr_r, !aligned_value by (unfold ez; lia). done. }
  rewrite <- Hv in Hdiv, Hlt |- *.
  apply (binary_normalize_exact _ ez F); [unfold ez; lia|done..].
Qed.

Lemma fsub_exact (a b : float) (F : Z) :
  valid_float a → valid_float b → F2Z a ≠ 0 → F2Z b ≠ 0 →
  -149 ≤ F ≤ 104 → (2 ^ (F + 149) | F2Z a - F2Z b) →
  Z.abs (F2Z a - F2Z b) < 2 ^ (24 + F + 149) →
  finite (fsub a b) = true ∧ F2Z (fsub a b) = F2Z a - F2Z b.
Proof.
  intros Ha Hb [sa [ma [ea ->]]]%F2Z_finite [sb [mb [eb ->]]]%F2Z_finite HF Hdiv Hlt.
  pose proof (valid_finite_bounds _ _ _ Ha) as (Hea & _).
  pose proof (valid_finite_bounds _ _ _ Hb) as (Heb & _).
  unfold fsub. cbn [SFsub]. cbv zeta.
  set (ez := Z.min ea eb).
  assert (Hv : (cond_Zopp sa (Z.pos (shl_align ma ea ez).1)
                - cond_Zopp sb (Z.pos (shl_align mb eb ez).1)) * 2 ^ (ez + 149)
               = F2Z (S754_finite sa ma ea) - F2Z (S754_finite sb mb eb)).
  { rewrite Z.mul_sub_distr_r, !aligned_value by (unfold ez; lia). done. }
  rewrite <- Hv in Hdiv, Hlt |- *.
  apply (binary_normalize_exact _ ez F); [unfold ez; lia|done..].
Qed.

(** Doubling is exact below the overflow threshold. *)
Lemma fmul_two_exact (d : float) :
  valid_float d → F2Z d ≠ 0 → Z.abs (F2Z d) < 2 ^ 200 →
  F2Z (fmul d (float_of_int 2)) = 2 * F2Z d.
Proof.
  intros Hv [s [m [e ->]]]%F2Z_finite Hlt.
  pose proof (valid_finite_bounds _ _ _ Hv) as (He & Hm24 & Hm23).
  apply valid_float_finite in Hv as [Hc _]. rewrite fexp_eq in Hc.
  cbn [F2Z] in Hlt.
  pose proof (pow2_pos (e + 149) ltac:(lia)) as Hpe.
  assert (He50 : e ≤ 50).
  { assert (e + 149 < 200); [|lia]. apply pow2_lt_inv; [lia|].
    eapply Z.le_lt_trans; [|exact Hlt]. destruct s; cbn [cond_Zopp]; nia. }
  change (float_of_int 2) with (S754_finite false 8388608 (-22)).
  unfold fmul. cbn [SFmul]. rewrite xorb_false_r.
  destruct (decide (Z.pos (digits2_pos m) = 24)) as [Hd|Hd].
  - replace (Z.pos (m * 8388608)) with (Z.pos m * 2 ^ 23)
      by (rewrite Pos2Z.inj_mul; done).
    rewrite (binary_round_aux_exact s m 23 (e + -22)); [|lia| |lia].
    + cbn [F2Z]. replace (e + -22 + 23 + 149) with (Z.succ (e + 149)) by lia.
      rewrite Z.pow_succ_r by lia. destruct s; cbn [cond_Zopp]; lia.
    + rewrite Zdigits2_mul_pow2 by lia. cbn [Zdigits2]. rewrite fexp_eq. lia.
  - replace (Z.pos (m * 8388608)) with (Z.pos m~0 * 2 ^ 22)
      by (rewrite Pos2Z.inj_mul, (Pos2Z.inj_xO m);
          change (Z.pos 8388608) with (2 * 2 ^ 22); lia).
    assert (Hd1 : Zdigits2 (Z.pos m~0) = Z.pos (digits2_pos m) + 1).
    { cbn [Zdigits2 digits2_pos]. lia. }
    rewrite (binary_round_aux_exact s m~0 22 (e + -22)); [|lia| |lia].
    + cbn [F2Z]. replace (e + -22 + 22 + 149) with (e + 149) by lia.
      rewrite (Pos2Z.inj_xO m). destruct s; cbn [cond_Zopp]; lia.
    + rewrite Zdigits2_mul_pow2, Hd1, fexp_eq by lia. lia.
Qed.

(** ** Comparisons *)

Lemma magnitude_lt (s1 s2 : bool) (m1 m2 : positive) (e1 e2 : Z) :
  valid_float (S754_finite s1 m1 e1) → valid_float (S754_finite s2 m2 e2) →
  e1 < e2 → Z.pos m1 * 2 ^ (e1 + 149) < Z.pos m2 * 2 ^ (e2 + 149).
Proof.
  intros (He1 & Hm1 & _)%valid_finite_bounds (He2 & _ & Hm2)%valid_finite_bounds Hlt.
  specialize (Hm2 ltac:(lia)).
  pose proof (pow2_pos (e1 + 149) ltac:(lia)) as Hp.
  replace (e2 + 149) with ((e2 - e1) + (e1 + 149)) by lia.
  rewrite (Z.pow_add_r 2 (e2 - e1) (e1 + 149)), Z.mul_assoc by lia.
  apply Z.mul_lt_mono_pos_r; [done|].
  pose proof (pow2_le 1 (e2 - e1) ltac:(lia)) as H2. change (2 ^ 1) with 2 in H2.
  change (2 ^ 24) with 16777216 in Hm1. change (2 ^ 23) with 8388608 in Hm2.
  nia.
Qed.

Lemma F2Z_pos (m : positive) (e : Z) : -149 ≤ e → 0 < Z.pos m * 2 ^ (e + 149).
Proof. intros He. pose proof (pow2_pos (e + 149) ltac:(lia)). lia. Qed.

Lemma magnitude_compare (s1 s2 : bool) (m1 m2 : positive) (e1 e2 : Z) :
  valid_float (S754_finite s1 m1 e1) → valid_float (S754_finite s2 m2 e2) →
  match e1 ?= e2 with
  | Lt => Lt
  | Gt => Gt
  | Eq => Pos.compare_cont Eq m1 m2
  end = (Z.pos m1 * 2 ^ (e1 + 149) ?= Z.pos m2 * 2 ^ (e2 + 149)).
Proof.
  intros H1 H2. destruct (Z.compare_spec e1 e2) as [->|Hlt|Hgt].
  - pose proof (valid_finite_bounds _ _ _ H2) as (He & _).
    pose proof (pow2_pos (e2 + 149) ltac:(lia)) as Hp.
    change (Pos.compare_cont Eq m1 m2) with (Z.pos m1 ?= Z.pos m2).
    destruct (Z.compare_spec (Z.pos m1) (Z.pos m2)) as [Heq|Hlt|Hgt]; symmetry.
    + apply Z.compare_eq_iff. by rewrite Heq.
    + apply Z.compare_lt_iff. by apply Z.mul_lt_mono_pos_r.
    + apply Z.compare_gt_iff. by apply Z.mul_lt_mono_pos_r.
  - symmetry. apply Z.compare_lt_iff. by eapply magnitude_lt.
  - symmetry. apply Z.compare_gt_iff. by eapply magnitude_lt.
Qed.

(** On binary32 numbers the comparison of the library is that of the
    numbers they stand for. *)
Lemma SFcompare_F2Z (a b : float) :
  valid_float a → valid_float b → finite a = true → finite b = true →
  SFcompare a b = Some (F2Z a ?= F2Z b).
Proof.
  intros Ha Hb Hfa Hfb.
  destruct a as [sa|sa| |sa ma ea], b as [sb|sb| |sb mb eb]; try done.
  - pose proof (valid_finite_bounds _ _ _ Hb) as (He & _).
    pose proof (F2Z_pos mb eb ltac:(lia)).
    cbn [SFcompare F2Z]. f_equal. symmetry.
    destruct sb; cbn [cond_Zopp];
      [apply Z.compare_gt_iff|apply Z.compare_lt_iff]; lia.
  - pose proof (valid_finite_bounds _ _ _ Ha) as (He & _).
    pose proof (F2Z_pos ma ea ltac:(lia)).
    cbn [SFcompare F2Z]. f_equal. symmetry.
    destruct sa; cbn [cond_Zopp];
      [apply Z.compare_lt_iff|apply Z.compare_gt_iff]; lia.
  - pose proof (valid_finite_bounds _ _ _ Ha) as (Hea & _).
    pose proof (valid_finite_bounds _ _ _ Hb) as (Heb & _).
    pose proof (F2Z_pos ma ea ltac:(lia)).
    pose proof (F2Z_pos mb eb ltac:(lia)).
    cbn [SFcompare F2Z]. f_equal.
    destruct sa, sb; cbn [cond_Zopp].
    + rewrite Z.compare_opp, <- (magnitude_compare true true mb ma eb ea Hb Ha).
      rewrite (Z.compare_antisym eb ea), (Pos.compare_cont_antisym).
      by destruct (eb ?= ea).
    + symmetry. apply Z.compare_lt_iff. lia.
    + symmetry. apply Z.compare_gt_iff. lia.
    + by apply (magnitude_compare false false).
Qed.

Lemma flt_F2Z (a b : float) :
  valid_float a → valid_float b → finite a = true → finite b = true →
  flt a b = true ↔ F2Z a < F2Z b.
Proof.
  intros Ha Hb Hfa Hfb. unfold flt, SFltb. rewrite SFcompare_F2Z by done.
  destruct (Z.compare_spec (F2Z a) (F2Z b)); split; (done || lia).
Qed.

Lemma fle_F2Z (a b : float) :
  valid_float a → valid_float b → finite a = true → finite b = true →
  fle a b = true ↔ F2Z a ≤ F2Z b.
Proof.
  intros Ha Hb Hfa Hfb. unfold fle, SFleb. rewrite SFcompare_F2Z by done.
  destruct (Z.compare_spec (F2Z a) (F2Z b)); split; (done || lia).
Qed.

Lemma within_finite (Min Max c : float) :
  finite Min = true → finite Max = true → within Min Max c = true → finite c = true.
Proof.
  unfold within, fle, SFleb. intros Hlo Hhi Hw.
  destruct c as [s|s| |s m e]; try done.
  - destruct Min as [s1|s1| |s1 m1 e1], Max as [s2|s2| |s2 m2 e2], s; done.
  - destruct Min as [s1|s1| |s1 m1 e1]; done.
Qed.

Lemma within_F2Z (Min Max c : float) :
  valid_float Min → valid_float Max → valid_float c →
  finite Min = true → finite Max = true → finite c = true →
  within Min Max c = true ↔ F2Z Min ≤ F2Z c ≤ F2Z Max.
Proof.
  intros. unfold within. rewrite andb_true_iff, !fle_F2Z by done. done.
Qed.

Lemma F2Z_fneg (a : float) : F2Z (fneg a) = - F2Z a.
Proof. destruct a as [| | |[] m e]; simpl; lia. Qed.

Lemma finite_fneg (a : float) : finite (fneg a) = finite a.
Proof. by destruct a. Qed.

(** [static_cast<float>(n)] is exact for an [int] below 2^24. *)
Lemma float_of_int_exact (n : Z) :
  Z.abs n < 2 ^ 24 →
  valid_float (float_of_int n) ∧ finite (float_of_int n) = true
  ∧ F2Z (float_of_int n) = n * 2 ^ 149.
Proof.
  intros Hn. split; [apply binary_normalize_valid|].
  apply (binary_normalize_exact n 0 0); [lia..| |].
  - apply Z.divide_factor_r.
  - change (0 + 149) with 149. change (24 + 0 + 149) with (24 + 149).
    rewrite Z.abs_mul, (Z.pow_add_r 2 24 149) by lia.
    rewrite (Z.abs_eq (2 ^ 149)) by (pose proof (pow2_pos 149); lia).
    apply Z.mul_lt_mono_pos_r; [apply pow2_pos|]; lia.
Qed.

(** ** One reflection, in binary32 *)

(** A binary32 number below 2^24 in magnitude is a multiple of a power of
    two that also divides the integers. *)
Lemma F2Z_grid (c : float) :
  valid_float c → F2Z c ≠ 0 → Z.abs (F2Z c) < 2 ^ 24 * 2 ^ 149 →
  ∃ e, -149 ≤ e ≤ 0 ∧ (2 ^ (e + 149) | F2Z c) ∧ (2 ^ (e + 149) | 2 ^ 149)
       ∧ Z.abs (F2Z c) < 2 ^ (24 + e + 149).
Proof.
  intros Hv [s [m [e ->]]]%F2Z_finite Hlt.
  pose proof (valid_finite_bounds _ _ _ Hv) as (He & Hm24 & Hm23).
  pose proof (pow2_pos (e + 149) ltac:(lia)) as Hpe.
  assert (Habs : Z.abs (F2Z (S754_finite s m e)) = Z.pos m * 2 ^ (e + 149)).
  { cbn [F2Z]. destruct s; cbn [cond_Zopp]; lia. }
  rewrite Habs in Hlt |- *.
  assert (He0 : e ≤ 0).
  { destruct (decide (e ≤ 0)) as [|Hpos]; [done|]. exfalso.
    specialize (Hm23 ltac:(lia)).
    pose proof (pow2_le 150 (e + 149) ltac:(lia)) as H150.
    assert (2 ^ 23 * 2 ^ 150 ≤ Z.pos m * 2 ^ (e + 149))
      by (apply Z.mul_le_mono_nonneg; done).
    rewrite <- Z.pow_add_r in * by lia. change (23 + 150) with (24 + 149) in *.
    lia. }
  exists e. split; [lia|]. split; [|split].
  - cbn [F2Z]. destruct s; cbn [cond_Zopp].
    + apply Z.divide_opp_r, Z.divide_factor_r.
    + apply Z.divide_factor_r.
  - exists (2 ^ (- e)). rewrite <- Z.pow_add_r by lia. f_equal. lia.
  - replace (24 + e + 149) with (24 + (e + 149)) by lia.
    rewrite (Z.pow_add_r 2 24 (e + 149)) by lia. by apply Z.mul_lt_mono_pos_r.
Qed.

Lemma ClampCoordinate_reflected (G : Z) (c d : float) :
  0 ≤ G → 3 * G < 2 ^ 24 → valid_float c →
  within (fneg (float_of_int (3 * G))) (float_of_int (3 * G)) c = true →
  let Min := fneg (float_of_int G) in
  let Max := float_of_int G in
  let c' := (Light.ClampCoordinate c d Min Max).1 in
  within Min Max c' = true
  ∧ (flt c Min = true → F2Z c' = 2 * F2Z Min - F2Z c)
  ∧ (flt c Min = false → flt Max c = true → F2Z c' = 2 * F2Z Max - F2Z c).
Proof.
  intros HG0 HG Hvc Hreach Min Max c'.
  destruct (float_of_int_exact G ltac:(lia)) as (HvG & HfG & HzG).
  destruct (float_of_int_exact (3 * G) ltac:(lia)) as (Hv3 & Hf3 & Hz3).
  assert (HvMin : valid_float Min) by by apply fneg_valid.
  assert (HfMin : finite Min = true) by (unfold Min; by rewrite finite_fneg).
  assert (HzMin : F2Z Min = - (G * 2 ^ 149)) by (unfold Min; by rewrite F2Z_fneg, HzG).
  fold Max in HvG, HfG, HzG.
  assert (Hfc : finite c = true).
  { eapply within_finite; [| |exact Hreach]; [by rewrite finite_fneg|done]. }
  apply within_F2Z in Hreach; [|by apply fneg_valid|try done..];
    [|by rewrite finite_fneg].
  rewrite F2Z_fneg, Hz3 in Hreach.
  pose proof (pow2_pos 149 ltac:(lia)) as HU.
  set (U := 2 ^ 149) in *.
  assert (Hv2 : valid_float (float_of_int 2)) by apply binary_normalize_valid.
  assert (H200 : 2 ^ 24 * U < 2 ^ 200).
  { unfold U. rewrite <- Z.pow_add_r by lia. apply pow2_lt. lia. }
  assert (Hc24 : Z.abs (F2Z c) < 2 ^ 24 * U) by nia.
  unfold c', Light.ClampCoordinate.
  destruct (flt c Min) eqn:H1.
  - apply flt_F2Z in H1; [|done..]. rewrite HzMin in H1.
    destruct (F2Z_grid c Hvc ltac:(lia) Hc24) as (e & He & Hdc & HdU & Hlt).
    assert (HdG : (2 ^ (e + 149) | G * U)) by by apply Z.divide_mul_r.
    destruct (fsub_exact Min c e) as [Hf1 Hz1]; [done|done|lia|lia|lia| | |].
    { rewrite HzMin. apply Z.divide_sub_r; [by apply Z.divide_opp_r|done]. }
    { lia. }
    assert (Hv1 : valid_float (fsub Min c)) by by apply fsub_valid.
    pose proof (fmul_two_exact (fsub Min c) Hv1 ltac:(lia) ltac:(lia)) as Hz2.
    assert (Hvm : valid_float (fmul (fsub Min c) (float_of_int 2)))
      by by apply fmul_valid.
    destruct (fadd_exact c (fmul (fsub Min c) (float_of_int 2)) e)
      as [Hf3' Hz3']; [done|done|lia|lia|lia| | |].
    { rewrite Hz2, Hz1, HzMin. apply Z.divide_add_r; [done|].
      apply Z.divide_mul_r, Z.divide_sub_r; [by apply Z.divide_opp_r|done]. }
    { lia. }
    cbn [fst]. split; [|split; [|done]].
    + apply within_F2Z; [done|done|by apply fadd_valid|done..|]. lia.
    + intros _. lia.
  - assert (H1' : ¬ F2Z c < F2Z Min).
    { intros Hlt. apply flt_F2Z in Hlt; [|done..]. congruence. }
    rewrite HzMin in H1'.
    destruct (flt Max c) eqn:H2.
    + apply flt_F2Z in H2; [|done..]. rewrite HzG in H2.
      destruct (F2Z_grid c Hvc ltac:(lia) Hc24) as (e & He & Hdc & HdU & Hlt).
      assert (HdG : (2 ^ (e + 149) | G * U)) by by apply Z.divide_mul_r.
      destruct (fsub_exact c Max e) as [Hf1 Hz1]; [done|done|lia|lia|lia| | |].
      { rewrite HzG. by apply Z.divide_sub_r. }
      { lia. }
      assert (Hv1 : valid_float (fsub c Max)) by by apply fsub_valid.
      pose proof (fmul_two_exact (fsub c Max) Hv1 ltac:(lia) ltac:(lia)) as Hz2.
      assert (Hvm : valid_float (fmul (fsub c Max) (float_of_int 2)))
        by by apply fmul_valid.
      destruct (fsub_exact c (fmul (fsub c Max) (float_of_int 2)) e)
        as [Hf3' Hz3']; [done|done|lia|lia|lia| | |].
      { rewrite Hz2, Hz1, HzG. apply Z.divide_sub_r; [done|].
        by apply Z.divide_mul_r, Z.divide_sub_r. }
      { lia. }
      cbn [fst]. split; [|split; [done|]].
      * apply within_F2Z; [done|done|by apply fsub_valid|done..|]. lia.
      * intros _ _. lia.
    + assert (H2' : ¬ F2Z Max < F2Z c).
      { intros Hlt. apply flt_F2Z in Hlt; [|done..]. congruence. }
      rewrite HzG in H2'. cbn [fst]. split; [|done].
      apply within_F2Z; [done..|]. lia.
Qed.

Lemma ClampCoordinate_negates (c d Min Max : float) :
  valid_float d →
  (Light.ClampCoordinate c d Min Max).2
  = if flt c Min || flt Max c then fneg d else d.
Proof.
  intros Hv. unfold Light.ClampCoordinate.
  destruct (flt c Min); [by apply fmul_minus_one|].
  destruct (flt Max c); [by apply fmul_minus_one|done].
Qed.

(** The lambda returns binary32 values. *)
Lemma ClampCoordinate_valid (c d Min Max : float) :
  valid_float c → valid_float d → valid_float Min → valid_float Max →
  valid_float (Light.ClampCoordinate c d Min Max).1
  ∧ valid_float (Light.ClampCoordinate c d Min Max).2.
Proof.
  intros Hc Hd Hlo Hhi.
  assert (H2 : valid_float (float_of_int 2)) by apply binary_normalize_valid.
  assert (H1 : valid_float (float_of_int (-1))) by apply binary_normalize_valid.
  unfold Light.ClampCoordinate.
  destruct (flt c Min); [|destruct (flt Max c)]; cbn [fst snd]; split;
    auto using fadd_valid, fsub_valid, fmul_valid.
Qed.

Lemma ClampCoordinate_reflects (G : Z) (c d : float) :
  0 ≤ G → 3 * G < 2 ^ 24 → valid_float c → valid_float d →
  within (fneg (float_of_int (3 * G))) (float_of_int (3 * G)) c = true →
  let Min := fneg (float_of_int G) in
  let Max := float_of_int G in
  within Min Max (Light.ClampCoordinate c d Min Max).1 = true
  ∧ reflected Min Max c d (Light.ClampCoordinate c d Min Max).1
                          (Light.ClampCoordinate c d Min Max).2.
Proof.
  intros HG0 HG Hvc Hvd Hreach Min Max.
  destruct (ClampCoordinate_reflected G c d HG0 HG Hvc Hreach) as (Hin & Hlo & Hhi).
  fold Min Max in Hin, Hlo, Hhi. split; [done|].
  unfold reflected. rewrite (ClampCoordinate_negates c d Min Max Hvd).
  split; [|split].
  - intros H1. rewrite H1. split; [by apply Hlo|done].
  - intros H1 H2. rewrite H1, H2. split; [by apply Hhi|done].
  - intros H1 H2. rewrite H1, H2. unfold Light.ClampCoordinate.
    by rewrite H1, H2.
Qed.

(** ** UpdateLights within reach of the volume *)

Section Reflection.
Variable GridDim : Z.
Variable fElapsedTime : float.

Lemma moved_valid (L : LightAttribs) (Dir : float3) :
  valid_float fElapsedTime → valid_float3 (Location L) → valid_float3 Dir →
  valid_float3 (float3_add (Location L) (float3_scale Dir fElapsedTime)).
Proof.
  intros Ht (Hx & Hy & Hz) (Hdx & Hdy & Hdz).
  repeat split; simpl; by apply fadd_valid, fmul_valid.
Qed.

Lemma move_light_reflects (L : LightAttribs) (Dir : float3) :
  0 ≤ GridDim → 3 * GridDim < 2 ^ 24 →
  valid_float fElapsedTime → valid_float3 (Location L) → valid_float3 Dir →
  let moved := float3_add (Location L) (float3_scale Dir fElapsedTime) in
  let Min := fneg (float_of_int GridDim) in
  let Max := float_of_int GridDim in
  let L' := (Light.move_light GridDim fElapsedTime L Dir).1 in
  let Dir' := (Light.move_light GridDim fElapsedTime L Dir).2 in
  within_reach GridDim moved = true →
  Light.in_volume GridDim (Location L') = true
  ∧ reflected Min Max (x moved) (x Dir) (x (Location L')) (x Dir')
  ∧ reflected Min Max (y moved) (y Dir) (y (Location L')) (y Dir')
  ∧ reflected Min Max (z moved) (z Dir) (z (Location L')) (z Dir')
  ∧ valid_float3 (Location L') ∧ valid_float3 Dir'.
Proof.
  intros HG0 HG Ht HvL HvD moved Min Max L' Dir' Hreach.
  assert (HvMax : valid_float Max) by apply binary_normalize_valid.
  assert (HvMin : valid_float Min) by by apply fneg_valid.
  destruct (moved_valid L Dir Ht HvL HvD) as (Hvx & Hvy & Hvz).
  fold moved in Hvx, Hvy, Hvz.
  destruct HvD as (Hdx & Hdy & Hdz).
  unfold within_reach in Hreach. cbv zeta in Hreach.
  apply andb_true_iff in Hreach as [[Hrx Hry]%andb_true_iff Hrz].
  destruct (move_light_coords GridDim fElapsedTime L Dir) as (Hx & Hy & Hz).
  cbv zeta in Hx, Hy, Hz. fold moved Min Max L' Dir' in Hx, Hy, Hz.
  destruct (ClampCoordinate_reflects GridDim (x moved) (x Dir) HG0 HG Hvx Hdx Hrx)
    as [Hix Hfx].
  destruct (ClampCoordinate_reflects GridDim (y moved) (y Dir) HG0 HG Hvy Hdy Hry)
    as [Hiy Hfy].
  destruct (ClampCoordinate_reflects GridDim (z moved) (z Dir) HG0 HG Hvz Hdz Hrz)
    as [Hiz Hfz].
  fold Min Max in Hix, Hfx, Hiy, Hfy, Hiz, Hfz.
  destruct (ClampCoordinate_valid (x moved) (x Dir) Min Max Hvx Hdx HvMin HvMax)
    as [Hcx Hex].
  destruct (ClampCoordinate_valid (y moved) (y Dir) Min Max Hvy Hdy HvMin HvMax)
    as [Hcy Hey].
  destruct (ClampCoordinate_valid (z moved) (z Dir) Min Max Hvz Hdz HvMin HvMax)
    as [Hcz Hez].
  rewrite <- Hx in Hix, Hfx, Hcx, Hex. rewrite <- Hy in Hiy, Hfy, Hcy, Hey.
  rewrite <- Hz in Hiz, Hfz, Hcz, Hez.
  cbn [fst snd] in Hix, Hfx, Hiy, Hfy, Hiz, Hfz, Hcx, Hex, Hcy, Hey, Hcz, Hez.
  split; [|done].
  unfold Light.in_volume, Light.VolumeMin, Light.VolumeMax. cbn [x y z].
  fold Min Max. by rewrite Hix, Hiy, Hiz.
Qed.

(** C5, as amended. With [m_LightsCount] lights and directions in the two
    vectors, [UpdateLights] returns and has moved each of them by
    [Dir * fElapsedTime]. A moved location inside the volume
    [[-GridDim, +GridDim]^3] is kept, with its direction. For
    [0 <= GridDim] with [3 * GridDim < 2^24] and binary32 values as elapsed
    time, location and direction, a light whose moved location has every
    coordinate in [[-3 * GridDim, 3 * GridDim]], that is beyond a boundary
    by no more than the width of the volume, lies in the volume after the
    call: each coordinate beyond a boundary has been reflected about that
    boundary, as a number and without rounding error, with the matching
    component of the direction negated, and each other coordinate is kept
    with its component of the direction; the new location and direction
    are binary32 values again. *)
Theorem UpdateLights_bounce (st : LightState) :
  (Z.to_nat (m_LightsCount st) ≤ length (m_Lights st))%nat →
  (Z.to_nat (m_LightsCount st) ≤ length (m_LightMoveDirs st))%nat →
  ∃ st', Light.UpdateLights GridDim fElapsedTime st = Ok st'
    ∧ ∀ i L Dir, (i < Z.to_nat (m_LightsCount st))%nat →
        m_Lights st !! i = Some L → m_LightMoveDirs st !! i = Some Dir →
        ∃ L' Dir', m_Lights st' !! i = Some L' ∧ m_LightMoveDirs st' !! i = Some Dir'
          ∧ let moved := float3_add (Location L) (float3_scale Dir fElapsedTime) in
            let Min := fneg (float_of_int GridDim) in
            let Max := float_of_int GridDim in
            (Light.in_volume GridDim moved = true →
             Location L' = moved ∧ Dir' = Dir
             ∧ Light.in_volume GridDim (Location L') = true)
            ∧ (0 ≤ GridDim → 3 * GridDim < 2 ^ 24 →
               valid_float fElapsedTime → valid_float3 (Location L) →
               valid_float3 Dir → within_reach GridDim moved = true →
               Light.in_volume GridDim (Location L') = true
               ∧ reflected Min Max (x moved) (x Dir) (x (Location L')) (x Dir')
               ∧ reflected Min Max (y moved) (y Dir) (y (Location L')) (y Dir')
               ∧ reflected Min Max (z moved) (z Dir) (z (Location L')) (z Dir')
               ∧ valid_float3 (Location L') ∧ valid_float3 Dir').
Proof.
  intros HL HD. unfold Light.UpdateLights.
  destruct (update_lights_from_seq GridDim fElapsedTime
              (Z.to_nat (m_LightsCount st)) 0 st)
    as (st' & Hst' & Hspec); [done..|].
  exists st'. split; [done|].
  intros i L Dir Hi HLi HDi. specialize (Hspec i L Dir HLi HDi).
  rewrite decide_True in Hspec by lia. destruct Hspec as [HL' HD'].
  exists (Light.move_light GridDim fElapsedTime L Dir).1,
         (Light.move_light GridDim fElapsedTime L Dir).2.
  split; [done|]. split; [done|]. cbv zeta. split.
  - intros Hin.
    destruct (move_light_in_volume GridDim fElapsedTime L Dir Hin) as [Hloc Hdir].
    split; [done|]. split; [done|]. by rewrite Hloc.
  - intros HG0 HG Ht HvL HvD Hreach.
    by apply move_light_reflects.
Qed.

End Reflection.

(** After 16 seconds the light of the examples has been moved to x = 8,
    one unit beyond the boundary at 7: it is back inside, at 2 * 7 - 8, and
    moves the other way. *)
Lemma UpdateLights_bounce_witness :
  ∃ st' L' Dir',
    Light.UpdateLights 7 (float_of_int 16) sample_lights = Ok st'
    ∧ m_Lights st' !! 0%nat = Some L' ∧ m_LightMoveDirs st' !! 0%nat = Some Dir'
    ∧ Light.in_volume 7 (Location L') = true
    ∧ F2Z (x (Location L')) = 2 * F2Z (float_of_int 7) - F2Z (float_of_int 8)
    ∧ x Dir' = fneg (float_lit 1 (-1)).
Proof.
  destruct (UpdateLights_bounce 7 (float_of_int 16) sample_lights)
    as (st' & Hst' & Hspec); [simpl; lia | simpl; lia |].
  destruct (Hspec 0%nat
              (mk_LightAttribs (mk_float3 fzero fzero fzero) (float_of_int 1)
                 (mk_float3 (float_of_int 1) (float_of_int 1) (float_of_int 1)))
              (mk_float3 (float_lit 1 (-1)) fzero fzero))
    as (L' & Dir' & HL' & HD' & _ & Hin);
    [simpl; lia | reflexivity | reflexivity |].
  destruct Hin as (Hvol & (_ & Hx & _) & _ & _ & _ & _);
    [lia | lia | vm_compute; reflexivity
     | repeat split; vm_compute; reflexivity
     | repeat split; vm_compute; reflexivity
     | vm_compute; reflexivity |].
  destruct Hx as [Hx Hd]; [vm_compute; reflexivity | vm_compute; reflexivity |].
  exists st', L', Dir'.
  exact (conj Hst' (conj HL' (conj HD' (conj Hvol (conj Hx Hd))))).
Defined.
